(** * GATA dataset collectors: knowledge-graph snapshots and graph-edit commands

    A shallow embedding of the two collection scripts of the repository,

    - [cmd_gen.0.2/make_cmd_gen_dataset.py]  (module [CmdGen]),
    - [playthroughs/collect_playthroughs.py] (module [Playthroughs]),

    and of the properties their specification states about them.

    Python values are modelled as follows.  Strings are [string] (byte
    strings; the scripts only handle ASCII game text), Python [set]s of
    propositions are [gset Fact], lists are [list], [sorted] on strings is a
    merge sort for the code-point order [String.le], and a raised exception
    is the [Raise] case of [result].  A [for] loop with [break] is
    [for_each], iterating a loop body that returns the updated local
    variables and a [flow] flag. *)

From Stdlib Require Import Ascii.
From stdpp Require Import base decidable countable list sorting strings gmap.

(** ** Exceptions *)

Inductive exn :=
| IndexError
| ValueError
| EnvError (msg : string).

Inductive result (A : Type) :=
| Ok (a : A)
| Raise (e : exn).
Global Arguments Ok {A} a.
Global Arguments Raise {A} e.

Global Instance result_ret : MRet result := λ A a, Ok a.
Global Instance result_bind : MBind result := λ A B f m,
  match m with
  | Ok a => f a
  | Raise e => Raise e
  end.

(** [l[i]] on a Python list. *)
Definition index {A} (l : list A) (i : nat) : result A :=
  match l !! i with
  | Some a => Ok a
  | None => Raise IndexError
  end.

(** ** Loops *)

Inductive flow := Next | Break.

(** [for x in xs: body], where the body may [break] or raise. *)
Fixpoint for_each {X S} (body : X → S → result (S * flow))
    (xs : list X) (s : S) : result S :=
  match xs with
  | [] => Ok s
  | x :: xs' =>
      match body x s with
      | Ok (s', Next) => for_each body xs' s'
      | Ok (s', Break) => Ok s'
      | Raise e => Raise e
      end
  end.

(** [[c for c in l if p(c)]], where evaluating [p] may raise. *)
Fixpoint comprehension {A} (p : A → result bool) (l : list A) : result (list A) :=
  match l with
  | [] => Ok []
  | c :: l' =>
      b ← p c;
      r ← comprehension p l';
      Ok (if b : bool then c :: r else r)
  end.

(** [enumerate(l, start)]. *)
Definition enumerate {A} (start : nat) (l : list A) : list (nat * A) :=
  zip (seq start (length l)) l.

(** ** Strings *)

Definition newline : string := String "010"%char EmptyString.

(** [str.isspace] on one ASCII character. *)
Definition isspace (a : ascii) : bool :=
  let n := N_of_ascii a in
  ((9 <=? n)%N && (n <=? 13)%N) || ((28 <=? n)%N && (n <=? 32)%N).

(** [s.split()]: the maximal runs of non-whitespace characters. *)
Fixpoint split_from (word : string) (s : string) : list string :=
  match s with
  | EmptyString => if decide (word = EmptyString) then [] else [word]
  | String a s' =>
      if isspace a
      then (if decide (word = EmptyString) then [] else [word]) ++ split_from EmptyString s'
      else split_from (word +:+ String a EmptyString) s'
  end.
Definition split (s : string) : list string := split_from EmptyString s.

Definition lower_char (a : ascii) : ascii :=
  let n := N_of_ascii a in
  if ((65 <=? n)%N && (n <=? 90)%N)%bool then ascii_of_N (n + 32) else a.

(** [s.lower()]. *)
Fixpoint lower (s : string) : string :=
  match s with
  | EmptyString => EmptyString
  | String a s' => String (lower_char a) (lower s')
  end.

(** [os.path.basename(path)]: what follows the last slash. *)
Fixpoint basename_from (tail : string) (path : string) : string :=
  match path with
  | EmptyString => tail
  | String a path' =>
      if decide (a = "/"%char) then basename_from EmptyString path'
      else basename_from (tail +:+ String a EmptyString) path'
  end.
Definition basename (path : string) : string := basename_from EmptyString path.

(** [sep.join(l)]. *)
Fixpoint join (sep : string) (l : list string) : string :=
  match l with
  | [] => EmptyString
  | [s] => s
  | s :: l' => s +:+ sep +:+ join sep l'
  end.

(** [sorted(l)] on a list of strings. *)
Definition sorted (l : list string) : list string := merge_sort String.le l.

(** [s[len(p):]] when [s.startswith(p)]. *)
Fixpoint strip_prefix (p s : string) : option string :=
  match p, s with
  | EmptyString, _ => Some s
  | String a p', String b s' => if decide (a = b) then strip_prefix p' s' else None
  | String _ _, EmptyString => None
  end.

(** The file after [outfile.seek(outfile.tell() - 2); outfile.write(w)],
    for a two-character [w]. *)
Definition overwrite_last2 (outfile w : string) : string :=
  String.substring 0 (String.length outfile - 2) outfile +:+ w.

(** ** Facts *)

(** A TextWorld [Variable]: a name and a type. *)
Record Entity := { ent_name : string; ent_type : string }.

(** A TextWorld [Proposition]: a predicate name and its arguments. *)
Record Fact := { fact_name : string; fact_arguments : list Entity }.

Global Instance Entity_eq_dec : EqDecision Entity.
Proof. solve_decision. Defined.
Global Instance Fact_eq_dec : EqDecision Fact.
Proof. solve_decision. Defined.

Global Instance Entity_countable : Countable Entity :=
  inj_countable' (λ e, (ent_name e, ent_type e))
    (λ p, {| ent_name := p.1; ent_type := p.2 |})
    (λ e, match e with Build_Entity _ _ => eq_refl end).
Global Instance Fact_countable : Countable Fact :=
  inj_countable' (λ f, (fact_name f, fact_arguments f))
    (λ p, {| fact_name := p.1; fact_arguments := p.2 |})
    (λ f, match f with Build_Fact _ _ => eq_refl end).

(** ** External collaborators *)

(** What [env.reset()] and [env.step(cmd)] report about the game. *)
Record Infos {Game Action : Type} := {
  infos_game : Game;
  infos_facts : list Fact;
  infos_last_action : option Action;
  infos_admissible_commands : list string;
  infos_walkthrough : list string;
}.
Global Arguments Infos : clear implicits.

(** The result of [env.step(cmd)] (the score is never used). *)
Record Observation {Game Action : Type} := {
  step_obs : string;
  step_done : bool;
  step_infos : Infos Game Action;
}.
Global Arguments Observation : clear implicits.

(** The TextWorld environment: an opaque oracle.  An environment object is
    a value of [Env]; [env.step] returns the stepped environment next to its
    report, and [env.copy()] is the value itself. *)
Class TextWorld := {
  Game : Type;
  Action : Type;
  Env : Type;
  textworld_start : string → result Env;
  env_reset : Env → result (Env * (string * Infos Game Action));
  env_step : Env → string → result (Env * Observation Game Action);
}.

(** [numpy.random.RandomState]: the generator state is threaded through
    [rng.choice]. *)
Class Numpy := {
  Rng : Type;
  rng_init : Z → Rng;
  rng_choice : Rng → list string → string * Rng;
}.

(** [np.random.RandomState(seed)] accepts seeds in [0, 2**32). *)
Definition RandomState `{Numpy} (seed : Z) : result Rng :=
  if bool_decide (0 ≤ seed < 2 ^ 32)%Z then Ok (rng_init seed) else Raise ValueError.

(** The parts of the repository's [generic] module that the scripts import
    and whose text the specification leaves to the environment: observation
    preprocessing, the local and full views, and the table of inverse
    predicate pairs declared by the rule base ([paired_inverse f] is the
    fact describing the same relation as [f] from the other direction). *)
Class Generic `{TextWorld} := {
  preproc : string → string;
  process_local_obs_facts : Game → list Fact → option Action → string → gset Fact;
  process_fully_obs_facts : Game → list Fact → gset Fact;
  paired_inverse : Fact → option Fact;
}.

(** [generic.process_facts]: the seen view after a step, from the previous
    seen view.  The scripts are verified for an arbitrary implementation;
    [process_facts_spec] below is the one the specification describes. *)
Class ProcessFacts `{TextWorld} := {
  process_facts : gset Fact → Game → list Fact → option Action → string → gset Fact;
}.

(** The call [process_facts(last_facts, infos["game"], infos["facts"],
    infos["last_action"], cmd)] that both scripts make after a step. *)
Definition seen_after `{ProcessFacts} (last_facts : gset Fact)
    (infos : Infos Game Action) (cmd : string) : gset Fact :=
  process_facts last_facts (infos_game infos) (infos_facts infos)
    (infos_last_action infos) cmd.

(** ** The [generic] helpers, from the specification *)

(** Modelled from the spec: [seenView] of section 4.3, the body of
    [generic.process_facts], which is not among the sources:
    [previousSeen ∪ (closureFacts ∩ perceivable)]. *)
Definition seenView (previousSeen closureFacts perceivable : gset Fact) : gset Fact :=
  previousSeen ∪ (closureFacts ∩ perceivable).

(** Modelled from the spec: [generic.process_facts] as section 4 composes
    it, the closure of the inference engine (4.2) filtered to the
    perceivable facts and merged into the previous seen view (4.3).  The
    closure and the perceivability rule depend on the rule base of the
    environment and are parameters. *)
Definition process_facts_spec `{TextWorld}
    (closure perceivable : Game → list Fact → option Action → string → gset Fact)
    : ProcessFacts :=
  {| process_facts prev_facts info_game info_facts info_last_action cmd :=
       seenView prev_facts
         (closure info_game info_facts info_last_action cmd)
         (perceivable info_game info_facts info_last_action cmd) |}.

(** Modelled from the spec: [serialize] of section 4.4, behind
    [generic.serialize_facts]: the predicate name followed by the arguments
    in declaration order, lower-cased, written as in the example
    [at(player, kitchen)]. *)
Definition serialize (fact : Fact) : string :=
  lower (fact_name fact +:+ "(" +:+ join ", " (ent_name <$> fact_arguments fact) +:+ ")").

(** Modelled from the spec: [generic.serialize_facts], one canonical string
    per fact of the set; the callers sort the result (section 4.4,
    [serialize_set]). *)
Definition serialize_facts (facts : gset Fact) : list string :=
  serialize <$> elements facts.

Section gen_graph_commands.
Context `{Generic}.

(** Modelled from the spec: the symmetric-pair policy of section 4.5.  A
    fact is dropped when its paired inverse is in the same set of facts and
    has the lexicographically smaller canonical encoding. *)
Definition implied_by_partner (facts : gset Fact) (fact : Fact) : bool :=
  match paired_inverse fact with
  | Some partner => bool_decide (partner ∈ facts) && String.ltb (serialize partner) (serialize fact)
  | None => false
  end.

(** Modelled from the spec: the facts that keep their command after the
    symmetric-pair collapsing of section 4.5. *)
Definition collapse (facts : gset Fact) : list Fact :=
  filter (λ fact, ¬ implied_by_partner facts fact) (elements facts).

(** Modelled from the spec: [generic.gen_graph_commands], the commands of
    [synthesizeCommands] (section 4.5) for one operation: after the
    symmetric-pair collapsing, one string ["<cmd> <canonical-fact>"]
    (section 6) per fact. *)
Definition gen_graph_commands (facts : gset Fact) (cmd : string) : list string :=
  (λ fact, cmd +:+ " " +:+ serialize fact) <$> collapse facts.

End gen_graph_commands.

(** ["commands_to_ignore"] of both scripts. *)
Definition commands_to_ignore : list string := ["look"; "examine"; "inventory"].

(** The condition of the comprehension that selects the exploratory
    commands at walkthrough position [i], with Python's evaluation order:
    [(c == "examine cookbook" or c.split()[0] not in commands_to_ignore)
      and (i + 1) != len(walkthrough) and c != walkthrough[i + 1]]. *)
Definition eligible (walkthrough : list string) (i : nat) (c : string) : result bool :=
  wanted ← (if decide (c = "examine cookbook") then Ok true
            else w ← index (split c) 0; Ok (bool_decide (w ∉ commands_to_ignore)));
  if wanted : bool then
    if decide (i + 1 ≠ length walkthrough) then
      next ← index walkthrough (i + 1);
      Ok (bool_decide (c ≠ next))
    else Ok false
  else Ok false.

(** The walkthrough as both scripts process it: ["inventory"] first, then
    ["restart"] before everything. *)
Definition normalize_walkthrough (walkthrough : list string) : result (list string) :=
  first ← index walkthrough 0;
  let walkthrough :=
    if decide (first ≠ "inventory") then "inventory" :: walkthrough else walkthrough in
  Ok ("restart" :: walkthrough).

(** ** [cmd_gen.0.2/make_cmd_gen_dataset.py] *)

Module CmdGen.

(** One entry of the dataset. *)
Record DataRecord := {
  game : string;
  step : nat * nat;
  observation : string;
  previous_action : string;
  target_commands : list string;
  previous_graph_seen : list string;
  graph_seen : list string;
}.

Section collect_data_from_game.
Context `{TextWorld, !Generic, !ProcessFacts, Numpy}.

(** The local variables of [collect_data_from_game] that live across the
    iterations of the walkthrough loop. *)
Record Locals := {
  env : Env;
  obs : string;
  infos : Infos Game Action;
  done : bool;
  facts_seen : gset Fact;
  rng : Rng;
  dataset : list DataRecord;
}.

(** The variables of a fork: the copied environment and the seen facts of
    the exploratory branch. *)
Record Branch := {
  env_ : Env;
  facts_seen_ : gset Fact;
}.

(** [obs, _, done, infos = e.step(cmd)], for the report [o] of the step. *)
Definition observe (l : Locals) (o : Observation Game Action) : Locals :=
  {| env := env l; obs := step_obs o; infos := step_infos o; done := step_done o;
     facts_seen := facts_seen l; rng := rng l; dataset := dataset l |}.

Definition with_env (l : Locals) (e : Env) : Locals :=
  {| env := e; obs := obs l; infos := infos l; done := done l;
     facts_seen := facts_seen l; rng := rng l; dataset := dataset l |}.

Definition with_rng (l : Locals) (r : Rng) : Locals :=
  {| env := env l; obs := obs l; infos := infos l; done := done l;
     facts_seen := facts_seen l; rng := r; dataset := dataset l |}.

Definition with_facts_seen (l : Locals) (facts : gset Fact) : Locals :=
  {| env := env l; obs := obs l; infos := infos l; done := done l;
     facts_seen := facts; rng := rng l; dataset := dataset l |}.

(** [dataset += [entry]]. *)
Definition emit (l : Locals) (entry : DataRecord) : Locals :=
  {| env := env l; obs := obs l; infos := infos l; done := done l;
     facts_seen := facts_seen l; rng := rng l; dataset := dataset l ++ [entry] |}.

(** The commands of one transition (lines 110-111 and 146-147). *)
Definition commands_of (last_facts facts_seen : gset Fact) : list string :=
  sorted (gen_graph_commands (facts_seen ∖ last_facts) "add"
          ++ gen_graph_commands (last_facts ∖ facts_seen) "delete").

(** The dictionary appended to the dataset (lines 105-114 and 141-150). *)
Definition entry (gamefile : string) (i j : nat) (obs cmd : string)
    (last_facts facts_seen : gset Fact) : DataRecord :=
  {| game := basename gamefile;
     step := (i, j);
     observation := preproc obs;
     previous_action := lower cmd;
     target_commands := commands_of last_facts facts_seen;
     previous_graph_seen := sorted (serialize_facts last_facts);
     graph_seen := sorted (serialize_facts facts_seen) |}.

(** The body of [for j in range(1, branching_depth + 1)] (lines 125-150). *)
Definition explore_body (gamefile : string) (walkthrough : list string) (i : nat)
    (j : nat) (s : Locals * Branch) : result ((Locals * Branch) * flow) :=
  let '(l, f) := s in
  commands ← comprehension (eligible walkthrough i) (infos_admissible_commands (infos l));
  if decide (length commands = 0) then Ok (s, Break)
  else
    let '(cmd_, rng') := rng_choice (rng l) commands in
    '(env_', o) ← env_step (env_ f) cmd_;
    let l := observe (with_rng l rng') o in
    if done l then Ok ((l, {| env_ := env_'; facts_seen_ := facts_seen_ f |}), Break)
    else
      let last_facts_ := facts_seen_ f in
      let facts_seen_ := seen_after last_facts_ (infos l) cmd_ in
      Ok ((emit l (entry gamefile i j (obs l) cmd_ last_facts_ facts_seen_),
           {| env_ := env_'; facts_seen_ := facts_seen_ |}), Next).

(** Lines 100-101: the environment is stepped, except for ["restart"]. *)
Definition advance (i : nat) (cmd : string) (l : Locals) : result Locals :=
  if decide (0 < i) then
    '(env', o) ← env_step (env l) cmd;
    Ok (observe (with_env l env') o)
  else Ok l.

(** Lines 103-114: the seen facts are updated and the entry of the step is
    appended. *)
Definition record_step (gamefile : string) (i : nat) (cmd : string)
    (last_facts : gset Fact) (l : Locals) : Locals :=
  let facts_seen := seen_after last_facts (infos l) cmd in
  emit (with_facts_seen l facts_seen)
    (entry gamefile i 0 (obs l) cmd last_facts facts_seen).

(** Lines 120-121: [env_ = env.copy()] and [facts_seen_ = facts_seen]. *)
Definition fork (l : Locals) : Branch :=
  {| env_ := env l; facts_seen_ := facts_seen l |}.

(** The body of [for i, cmd in enumerate(walkthrough)] (lines 99-150). *)
Definition walk_body (gamefile : string) (walkthrough : list string)
    (branching_depth : Z) (ic : nat * string) (l : Locals) : result (Locals * flow) :=
  let '(i, cmd) := ic in
  let last_facts := facts_seen l in
  l ← advance i cmd l;
  let l := record_step gamefile i cmd last_facts l in
  if done l then Ok (l, Break)
  else
    s ← for_each (explore_body gamefile walkthrough i)
          (seq 1 (Z.to_nat branching_depth)) (l, fork l);
    Ok (s.1, Next).

(** The local variables when the walkthrough loop is entered (lines 84-97). *)
Definition initially (e : Env) (o : string) (i : Infos Game Action) (r : Rng) : Locals :=
  {| env := e; obs := o; infos := i; done := false; facts_seen := ∅; rng := r;
     dataset := [] |}.

Definition collect_data_from_game (gamefile : string) (seed : Z) (branching_depth : Z)
    : result (string * list DataRecord) :=
  rng ← RandomState seed;
  env ← textworld_start gamefile;
  '(env, (obs, infos)) ← env_reset env;
  walkthrough ← normalize_walkthrough (infos_walkthrough infos);
  l ← for_each (walk_body gamefile walkthrough branching_depth)
        (enumerate 0 walkthrough) (initially env obs infos rng);
  Ok (gamefile, dataset l).

(** [collect_data], for [args.nb_processes <= 1] (lines 160-167 and
    183-192).  The output file is the string written so far; it is returned
    next to the outcome, since what was written stays when a game raises.
    [json.dumps] belongs to the external writer. *)
Context (json_dumps : DataRecord → string).

Definition _assemble_results (outfile : string) (args : string * list DataRecord) : string :=
  outfile +:+ join ("," +:+ newline) (json_dumps <$> args.2) +:+ "," +:+ newline.

Fixpoint collect_games (gamefiles : list (nat * string)) (seed branching_depth : Z)
    (outfile : string) : string * result () :=
  match gamefiles with
  | [] => (outfile, Ok ())
  | (i, gamefile) :: gamefiles' =>
      match collect_data_from_game gamefile (seed + Z.of_nat i)%Z branching_depth with
      | Ok data => collect_games gamefiles' seed branching_depth (_assemble_results outfile data)
      | Raise e => (outfile, Raise e)
      end
  end.

Definition collect_data (gamefiles : list string) (seed branching_depth : Z)
    : string * result () :=
  let outfile := "[" +:+ newline in
  match collect_games (enumerate 0 gamefiles) seed branching_depth outfile with
  | (outfile, Ok _) => (overwrite_last2 outfile (newline +:+ "]"), Ok ())
  | (outfile, Raise e) => (outfile, Raise e)
  end.

End collect_data_from_game.
End CmdGen.

(** ** [playthroughs/collect_playthroughs.py] *)

Module Playthroughs.

(** One entry of the dataset. *)
Record DataRecord := {
  game : string;
  step : nat * nat;
  action : string;
  graph_local : list string;
  graph_seen : list string;
  graph_full : list string;
}.

Section collect_data_from_game.
Context `{TextWorld, !Generic, !ProcessFacts}.

(** The local variables that live across the iterations of the loops. *)
Record Locals := {
  env : Env;
  infos : Infos Game Action;
  done : bool;
  facts_seen : gset Fact;
  dataset : list DataRecord;
}.

(** [infos, _, done = e.step(cmd)], for the report [o] of the step. *)
Definition observe (l : Locals) (o : Observation Game Action) : Locals :=
  {| env := env l; infos := step_infos o; done := step_done o;
     facts_seen := facts_seen l; dataset := dataset l |}.

Definition with_env (l : Locals) (e : Env) : Locals :=
  {| env := e; infos := infos l; done := done l;
     facts_seen := facts_seen l; dataset := dataset l |}.

Definition with_facts_seen (l : Locals) (facts : gset Fact) : Locals :=
  {| env := env l; infos := infos l; done := done l;
     facts_seen := facts; dataset := dataset l |}.

(** [dataset += [entry]]. *)
Definition emit (l : Locals) (entry : DataRecord) : Locals :=
  {| env := env l; infos := infos l; done := done l;
     facts_seen := facts_seen l; dataset := dataset l ++ [entry] |}.

(** The dictionary appended to the dataset (lines 50-57 and 75-82). *)
Definition entry (gamefile : string) (i j : nat) (cmd : string)
    (facts_local facts_seen facts_full : gset Fact) : DataRecord :=
  {| game := basename gamefile;
     step := (i, j);
     action := lower cmd;
     graph_local := sorted (serialize_facts facts_local);
     graph_seen := sorted (serialize_facts facts_seen);
     graph_full := sorted (serialize_facts facts_full) |}.

(** The entry for the report held in [infos l], after command [cmd] taken
    with the seen facts [last_facts]. *)
Definition entry_of (gamefile : string) (i j : nat) (cmd : string)
    (last_facts : gset Fact) (l : Locals) : DataRecord :=
  let facts_local :=
    process_local_obs_facts (infos_game (infos l)) (infos_facts (infos l))
      (infos_last_action (infos l)) cmd in
  let facts_seen := seen_after last_facts (infos l) cmd in
  let facts_full :=
    process_fully_obs_facts (infos_game (infos l)) (infos_facts (infos l)) in
  entry gamefile i j cmd facts_local facts_seen facts_full.

(** The body of [for j, cmd_ in enumerate(commands, start=1)] (lines 68-82). *)
Definition branch_body (gamefile : string) (i : nat) (jc : nat * string) (l : Locals)
    : result (Locals * flow) :=
  let '(j, cmd_) := jc in
  let env_ := env l in
  '(env_, o) ← env_step env_ cmd_;
  let l := observe l o in
  Ok (emit l (entry_of gamefile i j cmd_ (facts_seen l) l), Next).

(** Lines 43-44: the environment is stepped, except for ["restart"]. *)
Definition advance (i : nat) (cmd : string) (l : Locals) : result Locals :=
  if decide (0 < i) then
    '(env', o) ← env_step (env l) cmd;
    Ok (observe (with_env l env') o)
  else Ok l.

(** Lines 46-57: the seen facts are updated and the entry of the step is
    appended. *)
Definition record_step (gamefile : string) (i : nat) (cmd : string)
    (last_facts : gset Fact) (l : Locals) : Locals :=
  let facts_seen := seen_after last_facts (infos l) cmd in
  emit (with_facts_seen l facts_seen) (entry_of gamefile i 0 cmd last_facts l).

(** The body of [for i, cmd in enumerate(walkthrough)] (lines 42-82). *)
Definition walk_body (gamefile : string) (walkthrough : list string)
    (ic : nat * string) (l : Locals) : result (Locals * flow) :=
  let '(i, cmd) := ic in
  let last_facts := facts_seen l in
  l ← advance i cmd l;
  let l := record_step gamefile i cmd last_facts l in
  if done l then Ok (l, Break)
  else
    commands ← comprehension (eligible walkthrough i) (infos_admissible_commands (infos l));
    l ← for_each (branch_body gamefile i) (enumerate 1 commands) l;
    Ok (l, Next).

(** The local variables when the walkthrough loop is entered (lines 27-40). *)
Definition initially (e : Env) (i : Infos Game Action) : Locals :=
  {| env := e; infos := i; done := false; facts_seen := ∅; dataset := [] |}.

Definition collect_data_from_game (gamefile : string) : result (string * list DataRecord) :=
  env ← textworld_start gamefile;
  '(env, (_, infos)) ← env_reset env;
  walkthrough ← normalize_walkthrough (infos_walkthrough infos);
  l ← for_each (walk_body gamefile walkthrough) (enumerate 0 walkthrough)
        (initially env infos);
  Ok (gamefile, dataset l).

(** [collect_data], for [args.nb_processes <= 1] (lines 92-99 and 114-122). *)
Context (json_dumps : DataRecord → string).

Definition _assemble_results (outfile : string) (args : string * list DataRecord) : string :=
  outfile +:+ join ("," +:+ newline) (json_dumps <$> args.2) +:+ "," +:+ newline.

Fixpoint collect_games (gamefiles : list (nat * string)) (outfile : string)
    : string * result () :=
  match gamefiles with
  | [] => (outfile, Ok ())
  | (i, gamefile) :: gamefiles' =>
      match collect_data_from_game gamefile with
      | Ok data => collect_games gamefiles' (_assemble_results outfile data)
      | Raise e => (outfile, Raise e)
      end
  end.

Definition collect_data (gamefiles : list string) : string * result () :=
  let outfile := "[" +:+ newline in
  match collect_games (enumerate 0 gamefiles) outfile with
  | (outfile, Ok _) => (overwrite_last2 outfile (newline +:+ "]"), Ok ())
  | (outfile, Raise e) => (outfile, Raise e)
  end.

End collect_data_from_game.
End Playthroughs.

(** ** Graph commands and their application *)

Inductive Operation := Add | Delete.

(** A [GraphCommand]: an operation and a canonical fact string. *)
Definition GraphCommand : Type := Operation * string.

Definition operation_name (op : Operation) : string :=
  match op with
  | Add => "add"
  | Delete => "delete"
  end.

(** The string ["<add|delete> <canonical-fact>"] of a command. *)
Definition command_string (c : GraphCommand) : string :=
  operation_name c.1 +:+ " " +:+ c.2.

Definition parse_command (s : string) : option GraphCommand :=
  match strip_prefix "add " s with
  | Some fact => Some (Add, fact)
  | None =>
      match strip_prefix "delete " s with
      | Some fact => Some (Delete, fact)
      | None => None
      end
  end.

(** The order of commands: by operation, [add] first, then by canonical
    fact string. *)
Definition operation_rank (op : Operation) : nat :=
  match op with
  | Add => 0
  | Delete => 1
  end.

Definition command_le (c1 c2 : GraphCommand) : Prop :=
  operation_rank c1.1 < operation_rank c2.1
  ∨ (c1.1 = c2.1 ∧ String.le c1.2 c2.2).

(** A serialized view is a sorted list of fact strings: [add] inserts a
    string at its place, [delete] removes one occurrence of it. *)
Fixpoint insert_sorted (x : string) (graph : list string) : list string :=
  match graph with
  | [] => [x]
  | y :: graph' =>
      if decide (String.le x y) then x :: graph else y :: insert_sorted x graph'
  end.

Fixpoint remove_first (x : string) (graph : list string) : list string :=
  match graph with
  | [] => []
  | y :: graph' => if decide (x = y) then graph' else y :: remove_first x graph'
  end.

Definition apply_command (graph : list string) (c : GraphCommand) : list string :=
  match c with
  | (Add, fact) => insert_sorted fact graph
  | (Delete, fact) => remove_first fact graph
  end.

(** Applying a list of command strings, in order; [None] when one of them
    is not a command. *)
Fixpoint apply_commands (commands : list string) (graph : list string)
    : option (list string) :=
  match commands with
  | [] => Some graph
  | s :: commands' =>
      match parse_command s with
      | Some c => apply_commands commands' (apply_command graph c)
      | None => None
      end
  end.

(** The added and removed facts between two snapshots (section 4.5). *)
Definition diff (previous current : gset Fact) : gset Fact * gset Fact :=
  (current ∖ previous, previous ∖ current).

(** No fact of the set is dropped by the symmetric-pair policy. *)
Definition uncollapsed `{Generic} (facts : gset Fact) : Prop :=
  ∀ fact, fact ∈ facts → ¬ implied_by_partner facts fact.

(** ** A small game

    Three rooms in a row, kitchen, hallway and garden; ["go north"] moves
    to the next room and the game is done in the garden.  From the hallway
    the kitchen is seen to the south, which the game reports as a pair of
    inverse facts.  The collectors are run on it below. *)

Module Example.

Definition player : Entity := {| ent_name := "player"; ent_type := "P" |}.
Definition kitchen : Entity := {| ent_name := "kitchen"; ent_type := "r" |}.
Definition hallway : Entity := {| ent_name := "hallway"; ent_type := "r" |}.
Definition garden : Entity := {| ent_name := "garden"; ent_type := "r" |}.

Definition at_ (who where_ : Entity) : Fact :=
  {| fact_name := "at"; fact_arguments := [who; where_] |}.
Definition north_of (a b : Entity) : Fact :=
  {| fact_name := "north_of"; fact_arguments := [a; b] |}.
Definition south_of (a b : Entity) : Fact :=
  {| fact_name := "south_of"; fact_arguments := [a; b] |}.

Record Room := { room : nat; walkthrough : list string }.

Definition facts_of (n : nat) : list Fact :=
  match n with
  | 0 => [at_ player kitchen]
  | 1 => [at_ player hallway; north_of hallway kitchen; south_of kitchen hallway]
  | _ => [at_ player garden]
  end.

Definition report (e : Room) : Infos () () :=
  {| infos_game := ();
     infos_facts := facts_of (room e);
     infos_last_action := Some ();
     infos_admissible_commands :=
       ["look"; "inventory"; "examine cookbook"; "go north"; "wait"];
     infos_walkthrough := walkthrough e |}.

Definition move (e : Room) (cmd : string) : Room :=
  if decide (cmd = "go north")
  then {| room := S (room e); walkthrough := walkthrough e |}
  else e.

(** ["games/missing.z8"] cannot be started and ["games/empty.z8"] has an
    empty walkthrough; every other file is the three-room game. *)
Global Instance world : TextWorld := {|
  Game := ();
  Action := ();
  Env := Room;
  textworld_start gamefile :=
    if decide (gamefile = "games/missing.z8") then Raise (EnvError "cannot load game")
    else if decide (gamefile = "games/empty.z8") then Ok {| room := 0; walkthrough := [] |}
    else Ok {| room := 0; walkthrough := ["go north"; "go north"] |};
  env_reset e := Ok (e, ("You are in the kitchen.", report e));
  env_step e cmd :=
    let e' := move e cmd in
    Ok (e', {| step_obs := "You did: " +:+ cmd;
               step_done := bool_decide (2 ≤ room e');
               step_infos := report e' |});
|}.

Global Instance generic : Generic := {|
  preproc obs := lower obs;
  process_local_obs_facts _ facts _ _ := list_to_set facts;
  process_fully_obs_facts _ facts := list_to_set facts;
  paired_inverse fact :=
    match fact_arguments fact with
    | [a; b] =>
        if decide (fact_name fact = "north_of") then Some (south_of b a)
        else if decide (fact_name fact = "south_of") then Some (north_of b a)
        else None
    | _ => None
    end;
|}.

(** The seen view of the specification, with every reported fact
    perceivable. *)
Definition remembering : ProcessFacts :=
  process_facts_spec (λ _ facts _ _, list_to_set facts) (λ _ facts _ _, list_to_set facts).

(** A seen view that keeps the reported facts only. *)
Definition forgetful : ProcessFacts :=
  {| process_facts _ _ facts _ _ := list_to_set facts |}.

(** A generator that walks through the candidates in turn. *)
Global Instance counter : Numpy := {|
  Rng := nat;
  rng_init seed := Z.to_nat seed;
  rng_choice r commands := (nth (r `mod` length commands) commands EmptyString, S r);
|}.

(** A writer that keeps the action and the commands of an entry. *)
Definition dumps (r : CmdGen.DataRecord) : string :=
  CmdGen.previous_action r +:+ ": " +:+ join "; " (CmdGen.target_commands r).

Definition playthrough_dumps (r : Playthroughs.DataRecord) : string :=
  Playthroughs.action r +:+ ": " +:+ join "; " (Playthroughs.graph_seen r).

End Example.

(** ** Vocabulary of the statements *)

(** The dataset of [l'] is the dataset of [l] followed by entries that
    satisfy [P]. *)
Definition appends {L R : Type} (dataset : L → list R) (P : R → Prop) (l l' : L) : Prop :=
  ∃ entries, dataset l' = dataset l ++ entries ∧ Forall P entries.

Section vocabulary.
Context `{TextWorld, !Generic, !ProcessFacts, Numpy}.

(** An entry of the walkthrough: step [(i, 0)] for the [i]-th command. *)
Definition walk_entry (gamefile : string) (walkthrough : list string)
    (r : CmdGen.DataRecord) : Prop :=
  ∃ i cmd obs last_facts infos,
    walkthrough !! i = Some cmd
    ∧ r = CmdGen.entry gamefile i 0 obs cmd last_facts (seen_after last_facts infos cmd).

(** An entry of the exploratory branch forked at step [i]: step [(i, j)]
    with [1 ≤ j]. *)
Definition explore_entry (gamefile : string) (i : nat) (r : CmdGen.DataRecord) : Prop :=
  ∃ j cmd_ obs last_facts infos,
    1 ≤ j
    ∧ r = CmdGen.entry gamefile i j obs cmd_ last_facts (seen_after last_facts infos cmd_).

(** An entry that the collector of [gamefile] can emit along
    [walkthrough]. *)
Definition produced (gamefile : string) (walkthrough : list string)
    (r : CmdGen.DataRecord) : Prop :=
  walk_entry gamefile walkthrough r ∨ ∃ i, explore_entry gamefile i r.

End vocabulary.

Section vocabulary_playthroughs.
Context `{TextWorld, !Generic, !ProcessFacts}.

(** An entry of the walkthrough of the playthrough collector. *)
Definition playthrough_walk_entry (gamefile : string) (walkthrough : list string)
    (r : Playthroughs.DataRecord) : Prop :=
  ∃ i cmd last_facts l,
    walkthrough !! i = Some cmd
    ∧ r = Playthroughs.entry_of gamefile i 0 cmd last_facts l.

(** An entry of a branch tried at step [i]: step [(i, j)] with [1 ≤ j]. *)
Definition playthrough_branch_entry (gamefile : string) (i : nat)
    (r : Playthroughs.DataRecord) : Prop :=
  ∃ j cmd_ last_facts l,
    1 ≤ j ∧ r = Playthroughs.entry_of gamefile i j cmd_ last_facts l.

Definition playthrough_produced (gamefile : string) (walkthrough : list string)
    (r : Playthroughs.DataRecord) : Prop :=
  playthrough_walk_entry gamefile walkthrough r
  ∨ ∃ i, playthrough_branch_entry gamefile i r.

(** The entry of the branch that tries [cmd_] as its [j]-th command from
    the locals [l] of the walkthrough. *)
Definition branch_entry_from (gamefile : string) (i : nat) (l : Playthroughs.Locals)
    (jc : nat * string) (r : Playthroughs.DataRecord) : Prop :=
  ∃ env_ o,
    env_step (Playthroughs.env l) jc.2 = Ok (env_, o)
    ∧ r = Playthroughs.entry_of gamefile i jc.1 jc.2 (Playthroughs.facts_seen l)
            (Playthroughs.observe l o).

End vocabulary_playthroughs.

Section vocabulary_isolation.
Context `{TextWorld, !Generic, !ProcessFacts, Numpy}.

(** The entries of the walkthrough in a dataset: those at steps [(i, 0)]. *)
Definition walkthrough_entries (ds : list CmdGen.DataRecord) : list CmdGen.DataRecord :=
  filter (λ r, (CmdGen.step r).2 = 0) ds.

(** [l0] holds the walkthrough of [l]: the same environment and seen facts,
    and the entries of the walkthrough only. *)
Definition walkthrough_of (l l0 : CmdGen.Locals) : Prop :=
  CmdGen.env l = CmdGen.env l0
  ∧ CmdGen.facts_seen l = CmdGen.facts_seen l0
  ∧ CmdGen.dataset l0 = walkthrough_entries (CmdGen.dataset l).

(** [l] and [l0] hold the same report of the environment. *)
Definition same_report (l l0 : CmdGen.Locals) : Prop :=
  CmdGen.obs l = CmdGen.obs l0
  ∧ CmdGen.infos l = CmdGen.infos l0
  ∧ CmdGen.done l = CmdGen.done l0.

End vocabulary_isolation.

(** Every admissible command of the report has a first word, so that
    [c.split()[0]] is defined. *)
Definition worded {Game Action} (infos : Infos Game Action) : Prop :=
  Forall (λ c, split c ≠ []) (infos_admissible_commands infos).

(** An environment whose steps never raise and always report admissible
    commands with a first word. *)
Definition steady `{TextWorld} : Prop :=
  ∀ e cmd, ∃ e' o, env_step e cmd = Ok (e', o) ∧ worded (step_infos o).

(** ** Vocabulary of the further properties *)

(** The order of the steps [(i, j)]: by walkthrough position, then by
    depth in the exploration. *)
Definition step_lt (s1 s2 : nat * nat) : Prop :=
  s1.1 < s2.1 ∨ (s1.1 = s2.1 ∧ s1.2 < s2.2).

(** The steps are in increasing order and all below [bound]. *)
Definition ordered_below (bound : nat * nat) (steps : list (nat * nat)) : Prop :=
  StronglySorted step_lt steps ∧ Forall (λ s, step_lt s bound) steps.

(** Every entry of [ds] that satisfies [P] takes up the view of the entry
    before it: its previous seen view is the seen view of that entry. *)
Definition chained (P : CmdGen.DataRecord → Prop) (ds : list CmdGen.DataRecord) : Prop :=
  ∀ k r1 r2,
    ds !! k = Some r1 → ds !! S k = Some r2 → P r2 →
    CmdGen.previous_graph_seen r2 = CmdGen.graph_seen r1.

(** The commands that the exploration may try at walkthrough position
    [i]: not the ignored ones, except ["examine cookbook"], not at the last
    position, and not the next command of the walkthrough. *)
Definition explorable (walkthrough : list string) (i : nat) (c : string) : bool :=
  (bool_decide (c = "examine cookbook")
   || match split c !! 0 with
      | Some first => bool_decide (first ∉ commands_to_ignore)
      | None => false
      end)
  && bool_decide (i + 1 ≠ length walkthrough)
  && bool_decide (walkthrough !! (i + 1) ≠ Some c).

(** A string of whitespace only, or empty. *)
Fixpoint blank (c : string) : bool :=
  match c with
  | EmptyString => true
  | String a c' => isspace a && blank c'
  end.

(** ** A game with a blank command

    One room; the environment offers ["wait"] and a command of two
    spaces. *)

Module Blank.

Definition report : Infos () () :=
  {| infos_game := ();
     infos_facts := [];
     infos_last_action := None;
     infos_admissible_commands := ["wait"; "  "];
     infos_walkthrough := ["wait"] |}.

Definition world : TextWorld := {|
  Game := ();
  Action := ();
  Env := ();
  textworld_start _ := Ok ();
  env_reset e := Ok (e, ("A room.", report));
  env_step e _ :=
    Ok (e, {| step_obs := "Time passes."; step_done := false; step_infos := report |});
|}.

Definition generic : @Generic world := {|
  preproc obs := obs;
  process_local_obs_facts _ facts _ _ := list_to_set facts;
  process_fully_obs_facts _ facts := list_to_set facts;
  paired_inverse _ := None;
|}.

Definition keeping : @ProcessFacts world :=
  {| process_facts prev_facts _ _ _ _ := prev_facts |}.

End Blank.

(** ** Files: [extract_games] and the game files of [main]

    Paths are the strings that the scripts build; the file system maps
    each path string to the content of the file and holds the set of the
    directories.  Two strings are two paths: the scripts build every path
    of a file in one way, with [os.path.join].  A path is a file, a
    directory or absent.  What [os.makedirs] makes and raises is left to
    the operating system, a parameter here. *)

(** [s.endswith(suffix)]. *)
Fixpoint endswith (s suffix : string) : bool :=
  bool_decide (s = suffix)
  || match s with
     | EmptyString => false
     | String _ s' => endswith s' suffix
     end.

(** [os.path.join(a, b)]. *)
Definition pjoin (a b : string) : string :=
  if bool_decide (is_Some (strip_prefix "/" b)) then b
  else if bool_decide (a = EmptyString) || endswith a "/" then a +:+ b
  else a +:+ "/" +:+ b.

(** [p[:p.rfind('/') + 1]]: [head] is the path up to the last slash met and
    [tail] what follows it. *)
Fixpoint head_from (head tail : string) (p : string) : string :=
  match p with
  | EmptyString => head
  | String a p' =>
      if decide (a = "/"%char) then head_from (head +:+ tail +:+ "/") EmptyString p'
      else head_from head (tail +:+ String a EmptyString) p'
  end.

(** [s.rstrip('/')]. *)
Fixpoint rstrip_slashes (s : string) : string :=
  match s with
  | EmptyString => EmptyString
  | String a s' =>
      let stripped := rstrip_slashes s' in
      if decide (a = "/"%char ∧ stripped = EmptyString) then EmptyString
      else String a stripped
  end.

(** [os.path.dirname(p)]: the head, without its trailing slashes unless it
    is made of slashes only. *)
Definition dirname (p : string) : string :=
  let head := head_from EmptyString EmptyString p in
  let stripped := rstrip_slashes head in
  if decide (stripped = EmptyString) then head else stripped.

Inductive os_error :=
| KeyError (key : string)
| FileExistsError (path : string)
| NotADirectoryError (path : string)
| IsADirectoryError (path : string)
| OSError (strerror path : string).

Inductive outcome (A : Type) :=
| Returns (a : A)
| Raises (e : os_error).
Global Arguments Returns {A} a.
Global Arguments Raises {A} e.

(** A zip archive: its members in order, each with its data. *)
Definition ZipFile : Type := list (string * string).

Definition namelist (zipped_file : ZipFile) : list string := zipped_file.*1.

(** [zipped_file.read(name)]: the data of the last member of that name. *)
Fixpoint zip_read (zipped_file : ZipFile) (name : string) : option string :=
  match zipped_file with
  | [] => None
  | (n, data) :: zipped_file' =>
      match zip_read zipped_file' name with
      | Some later => Some later
      | None => if decide (n = name) then Some data else None
      end
  end.

Record FileSystem := {
  files : gmap string string;
  dirs : gset string;
}.

Definition isfile (fs : FileSystem) (path : string) : bool :=
  bool_decide (is_Some (files fs !! path)).

Definition isdir (fs : FileSystem) (path : string) : bool :=
  bool_decide (path ∈ dirs fs).

(** The operating system behind [os.makedirs(d)]: the directories that the
    call makes on the way to [d], and the exception that it raises, if
    any. *)
Class OS := {
  os_makedirs : FileSystem → string → gset string * option os_error;
}.

(** [os.makedirs(d)]: it makes directories only, the parents of [d] that
    are missing and, unless it raises, [d] itself, and it removes
    nothing. *)
Definition makedirs `{OS} (fs : FileSystem) (d : string) : FileSystem * outcome () :=
  let '(made, raised) := os_makedirs fs d in
  match raised with
  | Some e => ({| files := files fs; dirs := dirs fs ∪ made |}, Raises e)
  | None => ({| files := files fs; dirs := dirs fs ∪ made ∪ {[d]} |}, Returns ())
  end.

(** [with open(out_file, "wb") as f: f.write(data)], for an [out_file] in
    a directory that exists. *)
Definition write_file (fs : FileSystem) (out_file data : string) : FileSystem * outcome () :=
  if isdir fs out_file then (fs, Raises (IsADirectoryError out_file))
  else ({| files := <[out_file := data]> (files fs); dirs := dirs fs |}, Returns ()).

(** [d[key]] on a dictionary given by its items. *)
Fixpoint dict_get (d : list (string * string)) (key : string) : outcome string :=
  match d with
  | [] => Raises (KeyError key)
  | (k, v) :: d' => if decide (k = key) then Returns v else dict_get d' key
  end.

Module CmdGenFiles.

(** The dictionary [subdirs] of [extract_games] (lines 47-51). *)
Definition subdirs (dst : string) : list (string * string) :=
  [("train", pjoin dst "train"); ("valid", pjoin dst "valid"); ("test", pjoin dst "test")].

Section extraction.
Context `{OS}.

(** [for d in subdirs.values(): if not os.path.isdir(d): os.makedirs(d)]
    (lines 52-54). *)
Fixpoint make_subdirs (ds : list string) (fs : FileSystem) : FileSystem * outcome () :=
  match ds with
  | [] => (fs, Returns ())
  | d :: ds' =>
      if isdir fs d then make_subdirs ds' fs
      else
        match makedirs fs d with
        | (fs, Returns _) => make_subdirs ds' fs
        | (fs, Raises e) => (fs, Raises e)
        end
  end.

(** [for filename in filenames_to_extract] (lines 58-67). *)
Fixpoint extract_loop (zipped_file : ZipFile) (subdirs : list (string * string))
    (filenames : list string) (fs : FileSystem) (extracted_files : list string)
    : FileSystem * outcome (list string) :=
  match filenames with
  | [] => (fs, Returns extracted_files)
  | filename :: filenames' =>
      match dict_get subdirs (basename (dirname filename)) with
      | Raises e => (fs, Raises e)
      | Returns subdir =>
          let out_file := pjoin subdir (basename filename) in
          let extracted_files := extracted_files ++ [out_file] in
          if isfile fs out_file
          then extract_loop zipped_file subdirs filenames' fs extracted_files
          else
            match zip_read zipped_file filename with
            | None => (fs, Raises (KeyError filename))
            | Some data =>
                match write_file fs out_file data with
                | (fs, Returns _) =>
                    extract_loop zipped_file subdirs filenames' fs extracted_files
                | (fs, Raises e) => (fs, Raises e)
                end
            end
      end
  end.

(** The members that [extract_games] selects (line 45). *)
Definition filenames_to_extract (zipped_file : ZipFile) : list string :=
  filter (λ f, endswith f ".z8" || endswith f ".json") (namelist zipped_file).

(** [extract_games(zip_filename, dst)], for the archive [zipped_file] that
    [zip_filename] holds (lines 43-69). *)
Definition extract_games (zipped_file : ZipFile) (dst : string) (fs : FileSystem)
    : FileSystem * outcome (list string) :=
  let subdirs := subdirs dst in
  match make_subdirs subdirs.*2 fs with
  | (fs, Raises e) => (fs, Raises e)
  | (fs, Returns _) =>
      extract_loop zipped_file subdirs (filenames_to_extract zipped_file) fs []
  end.

End extraction.

(** The game files of [main] when the games were extracted (line 228). *)
Definition extracted_gamefiles (extracted_files : list string) : list string :=
  filter (λ f, endswith f ".z8") extracted_files.

(** The game files of [main] when [games_dir] exists (line 230), for the
    names [listing] that [os.listdir(games_dir)] gives. *)
Definition listed_gamefiles (games_dir : string) (listing : list string) : list string :=
  (λ f, games_dir +:+ f) <$> filter (λ f, endswith f ".z8") listing.

End CmdGenFiles.

Module PlaythroughsFiles.

(** The game files of [main] (lines 151-158), for the tests
    [os.path.isdir] and the listings [os.listdir] of the file system. *)
Fixpoint main_gamefiles (is_dir : string → bool) (listdir : string → list string)
    (games : list string) : list string :=
  match games with
  | [] => []
  | e :: games' =>
      (if is_dir e then (λ f, pjoin e f) <$> filter (λ f, endswith f ".json") (listdir e)
       else if endswith e ".json" then [e]
       else [])
      ++ main_gamefiles is_dir listdir games'
  end.

End PlaythroughsFiles.

(** A name without a slash, as [os.listdir] and [os.path.basename] give. *)
Fixpoint no_slash (s : string) : bool :=
  match s with
  | EmptyString => true
  | String a s' => bool_decide (a ≠ "/"%char) && no_slash s'
  end.

(** The keys of [subdirs]. *)
Definition splits : list string := ["train"; "valid"; "test"].

(** The archive member [filename] lies in the directory of a split and
    [out_file] is the file of its name in that split under [dst]. *)
Definition extracted_to (dst filename out_file : string) : Prop :=
  ∃ split, split ∈ splits ∧ basename (dirname filename) = split
    ∧ out_file = pjoin (pjoin dst split) (basename filename).

(** An archive with a game and its description in [train], a game in
    [test], a member that is no game and a second entry for the first
    game; [stray] has one more game, outside the three splits.  On [disk]
    the game of [test] is already there; on [blocked] the name [games] is
    taken by a file.  The operating system [os] makes the missing parents
    of a directory from the outermost on, and fails below a file and on a
    file. *)
Module Archive.

Definition zipped_file : ZipFile :=
  [("ftwp/train/a.z8", "A"); ("ftwp/train/a.json", "J"); ("ftwp/README", "R");
   ("ftwp/test/b.z8", "B"); ("ftwp/train/a.z8", "A2")].

Definition stray : ZipFile := ("ftwp/extra/c.z8", "C") :: zipped_file.

Definition disk : FileSystem :=
  {| files := {[ "games/test/b.z8" := "old" ]}; dirs := {[ "games"; "games/test" ]} |}.


(** The paths on the way to [p]: its prefixes that end before a slash,
    from the outermost on, and [p] itself. *)
Fixpoint chain_from (prefix p : string) : list string :=
  match p with
  | EmptyString => [prefix]
  | String a p' =>
      (if decide (a = "/"%char ∧ prefix ≠ EmptyString) then [prefix] else [])
      ++ chain_from (prefix +:+ String a EmptyString) p'
  end.

Fixpoint mkdir_chain (fs : FileSystem) (chain : list string) (made : gset string)
    : gset string * option os_error :=
  match chain with
  | [] => (made, None)
  | p :: chain' =>
      match chain' with
      | [] => if isfile fs p then (made, Some (FileExistsError p)) else (made, None)
      | child :: _ =>
          if isfile fs p then (made, Some (NotADirectoryError child))
          else mkdir_chain fs chain' (if isdir fs p then made else made ∪ {[p]})
      end
  end.

Global Instance os : OS :=
  {| os_makedirs fs d := mkdir_chain fs (chain_from EmptyString d) ∅ |}.

End Archive.

(** ** The two collectors on one game *)

Section vocabulary_agreement.
Context `{TextWorld, !Generic, !ProcessFacts, Numpy}.

(** The entries of the walkthrough in a dataset of the playthrough
    collector: those at steps [(i, 0)]. *)
Definition playthrough_walkthrough_entries (ds : list Playthroughs.DataRecord)
    : list Playthroughs.DataRecord :=
  filter (λ r, (Playthroughs.step r).2 = 0) ds.

(** What the entries of the two datasets have in common: the game, the
    step, the command and the graph of the seen facts. *)
Definition walked (r : CmdGen.DataRecord) : string * (nat * nat) * string * list string :=
  (CmdGen.game r, CmdGen.step r, CmdGen.previous_action r, CmdGen.graph_seen r).

Definition playthrough_walked (r : Playthroughs.DataRecord)
    : string * (nat * nat) * string * list string :=
  (Playthroughs.game r, Playthroughs.step r, Playthroughs.action r, Playthroughs.graph_seen r).

(** The two collectors are at the same point of the walkthrough. *)
Definition agree (l : CmdGen.Locals) (p : Playthroughs.Locals) : Prop :=
  CmdGen.env l = Playthroughs.env p
  ∧ CmdGen.facts_seen l = Playthroughs.facts_seen p
  ∧ walked <$> walkthrough_entries (CmdGen.dataset l)
    = playthrough_walked <$> playthrough_walkthrough_entries (Playthroughs.dataset p).

End vocabulary_agreement.

(** The steps [(i, 0), ..., (i, n)] for each walkthrough position [i], in
    order, where [n] is the [i]-th of [counts]. *)
Definition numbered (counts : list nat) : list (nat * nat) :=
  concat (imap (λ i n, (λ j, (i, j)) <$> seq 0 (S n)) counts).

(** * Properties *)

(** ** Loops *)

Section for_each.
Context {X S : Type} (body : X → S → result (S * flow)).

Lemma for_each_next x xs s s' :
  body x s = Ok (s', Next) → for_each body (x :: xs) s = for_each body xs s'.
Proof. intros E. simpl. by rewrite E. Qed.

Lemma for_each_break x xs s s' :
  body x s = Ok (s', Break) → for_each body (x :: xs) s = Ok s'.
Proof. intros E. simpl. by rewrite E. Qed.

Lemma for_each_raise x xs s e :
  body x s = Raise e → for_each body (x :: xs) s = Raise e.
Proof. intros E. simpl. by rewrite E. Qed.

(** What every iteration preserves holds when the loop is left. *)
Lemma for_each_invariant (I : S → Prop) xs s s' :
  (∀ x s s' fl, x ∈ xs → I s → body x s = Ok (s', fl) → I s') →
  I s → for_each body xs s = Ok s' → I s'.
Proof.
  revert s. induction xs as [|x xs IH]; intros s Hbody Hs E; simpl in E.
  - by simplify_eq.
  - destruct (body x s) as [[s1 []]|] eqn:Ex; simplify_eq.
    + apply (IH s1); [|by eapply Hbody; [left|..]|done].
      intros y t t' fl Hy. apply Hbody. by right.
    + eapply Hbody; [left|..]; done.
Qed.

(** A preorder that every iteration respects relates the states before and
    after the loop. *)
Lemma for_each_preorder (R : relation S) `{!PreOrder R} xs s s' :
  (∀ x s s' fl, x ∈ xs → body x s = Ok (s', fl) → R s s') →
  for_each body xs s = Ok s' → R s s'.
Proof.
  intros Hbody. apply (for_each_invariant (R s)); [|done].
  intros x t t' fl Hx Ht E. etrans; [done|]. by eapply Hbody.
Qed.

End for_each.

(** ** Sorting *)

Lemma sorted_nil : sorted [] = [].
Proof. reflexivity. Qed.

Lemma sorted_StronglySorted l : StronglySorted String.le (sorted l).
Proof. apply StronglySorted_merge_sort; apply _. Qed.

Lemma sorted_Permutation l : sorted l ≡ₚ l.
Proof. apply merge_sort_Permutation. Qed.

Lemma elem_of_sorted x l : x ∈ sorted l ↔ x ∈ l.
Proof. by rewrite sorted_Permutation. Qed.

(** A list of strings has one sorted arrangement. *)
Lemma sorted_unique l1 l2 :
  StronglySorted String.le l1 → StronglySorted String.le l2 → l1 ≡ₚ l2 → l1 = l2.
Proof. apply StronglySorted_unique, _. Qed.

(** [sorted] does not depend on the order in which a set was listed. *)
Lemma sorted_proper l1 l2 : l1 ≡ₚ l2 → sorted l1 = sorted l2.
Proof.
  intros E. apply sorted_unique; try apply sorted_StronglySorted.
  by rewrite !sorted_Permutation.
Qed.

Lemma sorted_app l1 l2 :
  (∀ x y, x ∈ l1 → y ∈ l2 → String.le x y) →
  sorted (l1 ++ l2) = sorted l1 ++ sorted l2.
Proof.
  intros Hle. apply sorted_unique.
  - apply sorted_StronglySorted.
  - apply StronglySorted_app_2; try apply sorted_StronglySorted.
    intros x y. rewrite !elem_of_sorted. apply Hle.
  - by rewrite !sorted_Permutation.
Qed.

Lemma sorted_id l : StronglySorted String.le l → sorted l = l.
Proof.
  intros Hl. apply sorted_unique; [apply sorted_StronglySorted|done|].
  apply sorted_Permutation.
Qed.

(** ** Serialized views under insertion and removal *)

Lemma insert_sorted_Permutation x graph : insert_sorted x graph ≡ₚ x :: graph.
Proof.
  induction graph as [|y graph IH]; simpl; [done|].
  case_decide; [done|]. rewrite IH. apply Permutation_swap.
Qed.

Lemma insert_sorted_StronglySorted x graph :
  StronglySorted String.le graph → StronglySorted String.le (insert_sorted x graph).
Proof.
  induction 1 as [|y graph Hs IH Hy]; simpl.
  - repeat constructor.
  - case_decide as Hxy.
    + constructor; [by constructor|]. constructor; [done|].
      eapply Forall_impl; [done|]. intros z Hz. by etrans.
    + constructor; [done|]. rewrite insert_sorted_Permutation.
      constructor; [|done]. by destruct (total String.le x y).
Qed.

Lemma remove_first_Permutation x graph :
  x ∈ graph → x :: remove_first x graph ≡ₚ graph.
Proof.
  induction graph as [|y graph IH]; simpl; [by intros ?%elem_of_nil|].
  intros Hx. case_decide as E; [by subst|].
  apply elem_of_cons in Hx as [?|Hx]; [done|].
  rewrite Permutation_swap. by rewrite IH.
Qed.

Lemma remove_first_subseteq x graph : remove_first x graph ⊆ graph.
Proof.
  induction graph as [|y graph IH]; simpl; [done|].
  case_decide; [by apply list_subseteq_cons|].
  intros z [->|Hz]%elem_of_cons; [left|right; auto].
Qed.

Lemma remove_first_StronglySorted x graph :
  StronglySorted String.le graph → StronglySorted String.le (remove_first x graph).
Proof.
  induction 1 as [|y graph Hs IH Hy]; simpl; [constructor|].
  case_decide; [done|]. constructor; [done|].
  rewrite Forall_forall in Hy. apply Forall_forall. intros z Hz.
  by apply Hy, (remove_first_subseteq x).
Qed.

(** ** Command strings *)

Lemma parse_command_string c : parse_command (command_string c) = Some c.
Proof. by destruct c as [[] fact]. Qed.

Lemma command_string_inj c1 c2 : command_string c1 = command_string c2 → c1 = c2.
Proof.
  intros E. apply (inj Some). by rewrite <-!parse_command_string, E.
Qed.

Lemma String_le_cons a s1 s2 : String.le (String a s1) (String a s2) ↔ String.le s1 s2.
Proof.
  unfold String.le, String.leb. simpl.
  replace (Ascii.compare a a) with Eq; [done|].
  unfold Ascii.compare. by rewrite N.compare_refl.
Qed.

(** Python compares the command strings; this is the order of the pairs
    (operation, canonical fact string). *)
Lemma command_string_le c1 c2 :
  String.le (command_string c1) (command_string c2) ↔ command_le c1 c2.
Proof.
  destruct c1 as [[] x1], c2 as [[] x2]; unfold command_le, command_string; simpl.
  - change ("add" +:+ " " +:+ ?x) with (String "a" (String "d" (String "d" (String " " x)))).
    rewrite !String_le_cons. split; [by right|]. intros [?|[_ ?]]; [lia|done].
  - split; [intros _; left; lia|]. by intros _.
  - split; [by intros []|]. intros [?|[? _]]; [lia|done].
  - change ("delete" +:+ " " +:+ ?x) with
      (String "d" (String "e" (String "l" (String "e" (String "t" (String "e" (String " " x))))))).
    rewrite !String_le_cons. split; [by right|]. intros [?|[_ ?]]; [lia|done].
Qed.

Lemma sorted_command_strings op xs :
  sorted ((λ x, command_string (op, x)) <$> xs)
  = (λ x, command_string (op, x)) <$> sorted xs.
Proof.
  apply sorted_unique.
  - apply sorted_StronglySorted.
  - eapply StronglySorted_fmap; [|apply sorted_StronglySorted].
    intros x y Hxy. apply command_string_le. by right.
  - by rewrite !sorted_Permutation.
Qed.

Lemma apply_commands_app commands1 commands2 graph :
  apply_commands (commands1 ++ commands2) graph
  = apply_commands commands1 graph ≫= apply_commands commands2.
Proof.
  revert graph. induction commands1 as [|s commands1 IH]; intros graph; simpl; [done|].
  destruct (parse_command s); [apply IH|done].
Qed.

(** Adding the strings [xs] to a sorted view gives the sorted view with
    these strings inserted. *)
Lemma apply_commands_add xs graph :
  ∃ graph', apply_commands ((λ x, command_string (Add, x)) <$> xs) graph = Some graph'
    ∧ graph' ≡ₚ xs ++ graph
    ∧ (StronglySorted String.le graph → StronglySorted String.le graph').
Proof.
  revert graph. induction xs as [|x xs IH]; intros graph.
  - by exists graph.
  - rewrite fmap_cons. cbn [apply_commands]. rewrite parse_command_string. simpl.
    destruct (IH (insert_sorted x graph)) as (graph' & -> & Hperm & Hsorted).
    exists graph'. split_and!; [done| |].
    + by rewrite Hperm, insert_sorted_Permutation, Permutation_middle.
    + intros ?. by apply Hsorted, insert_sorted_StronglySorted.
Qed.

(** Deleting strings that are in the view removes them and nothing else. *)
Lemma apply_commands_delete xs graph rest :
  graph ≡ₚ xs ++ rest →
  ∃ graph', apply_commands ((λ x, command_string (Delete, x)) <$> xs) graph = Some graph'
    ∧ graph' ≡ₚ rest
    ∧ (StronglySorted String.le graph → StronglySorted String.le graph').
Proof.
  revert graph. induction xs as [|x xs IH]; intros graph Hperm.
  - by exists graph.
  - rewrite fmap_cons. cbn [apply_commands]. rewrite parse_command_string. simpl.
    destruct (IH (remove_first x graph)) as (graph' & -> & Hperm' & Hsorted).
    { apply (inj (x ::.)). rewrite remove_first_Permutation; [done|].
      rewrite Hperm. left. }
    exists graph'. split_and!; [done..|].
    intros ?. by apply Hsorted, remove_first_StronglySorted.
Qed.

(** ** One transition: the commands between two seen views *)

(** The serialized views of two fact sets differ by the serialized
    differences of the sets. *)
Lemma serialize_facts_difference (previous current : gset Fact) :
  serialize_facts (current ∖ previous) ++ serialize_facts previous
  ≡ₚ serialize_facts (previous ∖ current) ++ serialize_facts current.
Proof.
  unfold serialize_facts. rewrite <-!fmap_app. apply fmap_Permutation.
  rewrite <-!elements_disj_union
    by (apply elem_of_disjoint; intros fact; rewrite elem_of_difference; tauto).
  assert (current ∖ previous ∪ previous = previous ∖ current ∪ current) as ->; [|done].
  apply set_eq. intros fact. rewrite !elem_of_union, !elem_of_difference.
  destruct (decide (fact ∈ previous)), (decide (fact ∈ current)); tauto.
Qed.

Section transition.
Context `{TextWorld, !Generic}.

Lemma gen_graph_commands_empty cmd : gen_graph_commands ∅ cmd = [].
Proof. unfold gen_graph_commands, collapse. by rewrite elements_empty. Qed.

Lemma gen_graph_commands_add facts :
  gen_graph_commands facts "add"
  = (λ x, command_string (Add, x)) <$> (serialize <$> collapse facts).
Proof. unfold gen_graph_commands. by rewrite <-list_fmap_compose. Qed.

Lemma gen_graph_commands_delete facts :
  gen_graph_commands facts "delete"
  = (λ x, command_string (Delete, x)) <$> (serialize <$> collapse facts).
Proof. unfold gen_graph_commands. by rewrite <-list_fmap_compose. Qed.

Lemma elem_of_collapse fact facts : fact ∈ collapse facts → fact ∈ facts.
Proof. unfold collapse. rewrite list_elem_of_filter, elem_of_elements. by intros []. Qed.

Lemma collapse_uncollapsed facts : uncollapsed facts → collapse facts = elements facts.
Proof.
  intros Hfacts. unfold collapse.
  assert (Forall (λ fact, fact ∈ facts) (elements facts)) as Hall.
  { apply Forall_forall. intros fact. by rewrite elem_of_elements. }
  induction Hall as [|fact l Hfact _ IH]; [done|].
  rewrite filter_cons_True by by apply Hfacts. by rewrite IH.
Qed.

(** The sorted command list is the sorted [add] commands followed by the
    sorted [delete] commands. *)
Lemma commands_of_split last_facts facts_seen :
  CmdGen.commands_of last_facts facts_seen
  = ((λ x, command_string (Add, x))
       <$> sorted (serialize <$> collapse (facts_seen ∖ last_facts)))
    ++ ((λ x, command_string (Delete, x))
       <$> sorted (serialize <$> collapse (last_facts ∖ facts_seen))).
Proof.
  unfold CmdGen.commands_of.
  rewrite gen_graph_commands_add, gen_graph_commands_delete, sorted_app.
  - by rewrite !sorted_command_strings.
  - intros s1 s2 (x1 & -> & _)%list_elem_of_fmap (x2 & -> & _)%list_elem_of_fmap.
    apply command_string_le. left. simpl. lia.
Qed.

(** The round trip of one transition in which the symmetric-pair policy
    drops no command. *)
Lemma round_trip_transition last_facts facts_seen :
  uncollapsed (facts_seen ∖ last_facts) →
  uncollapsed (last_facts ∖ facts_seen) →
  apply_commands (CmdGen.commands_of last_facts facts_seen)
    (sorted (serialize_facts last_facts))
  = Some (sorted (serialize_facts facts_seen)).
Proof.
  intros Hadd Hdel. rewrite commands_of_split, apply_commands_app.
  rewrite !collapse_uncollapsed by done.
  destruct (apply_commands_add
    (sorted (serialize <$> elements (facts_seen ∖ last_facts)))
    (sorted (serialize_facts last_facts))) as (graph1 & -> & Hperm1 & Hsorted1).
  simpl.
  destruct (apply_commands_delete
    (sorted (serialize <$> elements (last_facts ∖ facts_seen)))
    graph1 (serialize_facts facts_seen)) as (graph2 & -> & Hperm2 & Hsorted2).
  { rewrite Hperm1, !sorted_Permutation. apply serialize_facts_difference. }
  f_equal. apply sorted_unique.
  - apply Hsorted2, Hsorted1, sorted_StronglySorted.
  - apply sorted_StronglySorted.
  - by rewrite Hperm2, sorted_Permutation.
Qed.

End transition.

(** ** Enumerations *)

Lemma enumerate_cons {A} k (x : A) l : enumerate k (x :: l) = (k, x) :: enumerate (S k) l.
Proof. done. Qed.

Lemma elem_of_enumerate {A} k (l : list A) i x :
  (i, x) ∈ enumerate k l ↔ k ≤ i ∧ l !! (i - k) = Some x.
Proof.
  revert k. induction l as [|y l IH]; intros k.
  - unfold enumerate. simpl. rewrite elem_of_nil. split; [done|]. by intros [_ ?].
  - rewrite enumerate_cons, elem_of_cons, IH. split.
    + intros [[= -> ->]|[Hk Hl]].
      * by rewrite Nat.sub_diag.
      * split; [lia|]. by replace (i - k) with (S (i - S k)) by lia.
    + intros [Hk Hl]. destruct (decide (i = k)) as [->|].
      * rewrite Nat.sub_diag in Hl. left. by simplify_eq/=.
      * right. split; [lia|]. by replace (i - k) with (S (i - S k)) in Hl by lia.
Qed.

Lemma elem_of_enumerate_0 {A} (l : list A) i x : (i, x) ∈ enumerate 0 l ↔ l !! i = Some x.
Proof. rewrite elem_of_enumerate, Nat.sub_0_r. split; [by intros []|]. split; [lia|done]. Qed.

(** ** Growing datasets *)

Global Instance appends_preorder {L R} (dataset : L → list R) P : PreOrder (appends dataset P).
Proof.
  split.
  - intros l. exists []. by rewrite app_nil_r.
  - intros l1 l2 l3 (e1 & E1 & H1) (e2 & E2 & H2). exists (e1 ++ e2).
    rewrite E2, E1, (assoc_L (++)). split; [done|]. by apply Forall_app.
Qed.

Lemma appends_impl {L R} (dataset : L → list R) (P Q : R → Prop) l l' :
  (∀ r, P r → Q r) → appends dataset P l l' → appends dataset Q l l'.
Proof. intros HPQ (e & E & He). exists e. split; [done|]. by eapply Forall_impl. Qed.

(** ** The command-generation collector *)

Section cmd_gen.
Context `{TextWorld, !Generic, !ProcessFacts, Numpy}.

(** *** The exploratory loop *)

(** An iteration of the exploratory loop leaves the environment and the
    seen facts of the walkthrough as they are. *)
Lemma explore_body_frame gf w i j l f l' f' fl :
  CmdGen.explore_body gf w i j (l, f) = Ok ((l', f'), fl) →
  CmdGen.env l' = CmdGen.env l ∧ CmdGen.facts_seen l' = CmdGen.facts_seen l.
Proof.
  unfold CmdGen.explore_body. intros E.
  destruct (comprehension _ _) as [commands|] eqn:Ec; simplify_eq/=.
  case_decide; simplify_eq/=; [done|].
  destruct (rng_choice _ _) as [cmd_ rng'].
  destruct (env_step _ _) as [[env_' o]|] eqn:Es; simplify_eq/=.
  destruct (step_done o); simplify_eq/=; done.
Qed.

Lemma explore_body_appends gf w i j l f l' f' fl :
  1 ≤ j →
  CmdGen.explore_body gf w i j (l, f) = Ok ((l', f'), fl) →
  appends CmdGen.dataset (explore_entry gf i) l l'.
Proof.
  unfold CmdGen.explore_body. intros Hj E.
  destruct (comprehension _ _) as [commands|] eqn:Ec; simplify_eq/=.
  case_decide; simplify_eq/=; [done|].
  destruct (rng_choice _ _) as [cmd_ rng'].
  destruct (env_step _ _) as [[env_' o]|] eqn:Es; simplify_eq/=.
  destruct (step_done o); simplify_eq/=.
  - exists []. by rewrite app_nil_r.
  - eexists [_]. split; [done|]. apply Forall_singleton. by repeat eexists.
Qed.

Lemma explore_frame gf w i js l f l' f' :
  for_each (CmdGen.explore_body gf w i) js (l, f) = Ok (l', f') →
  CmdGen.env l' = CmdGen.env l ∧ CmdGen.facts_seen l' = CmdGen.facts_seen l.
Proof.
  apply (for_each_invariant _
    (λ s, CmdGen.env s.1 = CmdGen.env l ∧ CmdGen.facts_seen s.1 = CmdGen.facts_seen l));
    [|done].
  intros j [l1 f1] [l2 f2] fl _ [<- <-]. apply explore_body_frame.
Qed.

Lemma explore_appends gf w i d l f l' f' :
  for_each (CmdGen.explore_body gf w i) (seq 1 d) (l, f) = Ok (l', f') →
  appends CmdGen.dataset (explore_entry gf i) l l'.
Proof.
  apply (for_each_invariant _ (λ s, appends CmdGen.dataset (explore_entry gf i) l s.1)); [|done].
  intros j [l1 f1] [l2 f2] fl Hj%elem_of_seq Hl1 E. etrans; [done|].
  eapply explore_body_appends; [|done]. lia.
Qed.

(** *** The walkthrough loop *)

Lemma advance_dataset i cmd l l' :
  CmdGen.advance i cmd l = Ok l' →
  CmdGen.dataset l' = CmdGen.dataset l ∧ CmdGen.facts_seen l' = CmdGen.facts_seen l.
Proof.
  unfold CmdGen.advance. intros E. case_decide; simplify_eq/=; [|done].
  destruct (env_step _ _) as [[env' o]|]; by simplify_eq/=.
Qed.

(** What an iteration of the walkthrough loop does when it does not raise:
    it advances, appends the entry of the step and, unless the game is
    done, runs the exploratory loop on a fork. *)
Lemma walk_body_Ok gf w d i cmd l l' fl :
  CmdGen.walk_body gf w d (i, cmd) l = Ok (l', fl) →
  ∃ l1, CmdGen.advance i cmd l = Ok l1
    ∧ let l2 := CmdGen.record_step gf i cmd (CmdGen.facts_seen l) l1 in
      if CmdGen.done l1 then l' = l2 ∧ fl = Break
      else fl = Next ∧ ∃ f', for_each (CmdGen.explore_body gf w i)
                               (seq 1 (Z.to_nat d)) (l2, CmdGen.fork l2) = Ok (l', f').
Proof.
  unfold CmdGen.walk_body. intros E.
  destruct (CmdGen.advance i cmd l) as [l1|] eqn:E1; simplify_eq/=.
  exists l1. split; [done|].
  destruct (CmdGen.done l1); simplify_eq/=; [done|].
  destruct (for_each _ _ _) as [[l3 f3]|] eqn:E3; simplify_eq/=. eauto.
Qed.

Lemma walk_body_appends gf w d i cmd l l' fl :
  w !! i = Some cmd →
  CmdGen.walk_body gf w d (i, cmd) l = Ok (l', fl) →
  appends CmdGen.dataset (produced gf w) l l'.
Proof.
  intros Hi (l1 & E1 & E)%walk_body_Ok. simpl in E.
  apply advance_dataset in E1 as [Hd Hf].
  assert (appends CmdGen.dataset (produced gf w) l (CmdGen.record_step gf i cmd (CmdGen.facts_seen l) l1))
    as Hstep.
  { eexists [_]. split; [simpl; by rewrite Hd|]. apply Forall_singleton.
    left. by repeat eexists. }
  destruct (CmdGen.done l1).
  - by destruct E as [-> _].
  - destruct E as [_ [f' E]]. etrans; [done|].
    eapply appends_impl, explore_appends; [|done]. intros r Hr. right. eauto.
Qed.

Lemma walk_appends gf w d l l' :
  for_each (CmdGen.walk_body gf w d) (enumerate 0 w) l = Ok l' →
  appends CmdGen.dataset (produced gf w) l l'.
Proof.
  apply (for_each_preorder _ (appends CmdGen.dataset (produced gf w))).
  intros [i cmd] l1 l2 fl Hi%elem_of_enumerate_0. by apply walk_body_appends.
Qed.

(** *** The collector *)

Lemma collect_data_from_game_Ok gamefile seed d gf ds :
  CmdGen.collect_data_from_game gamefile seed d = Ok (gf, ds) →
  gf = gamefile ∧
  ∃ r e0 e o infos w l,
    RandomState seed = Ok r
    ∧ textworld_start gamefile = Ok e0
    ∧ env_reset e0 = Ok (e, (o, infos))
    ∧ normalize_walkthrough (infos_walkthrough infos) = Ok w
    ∧ for_each (CmdGen.walk_body gamefile w d) (enumerate 0 w)
        (CmdGen.initially e o infos r) = Ok l
    ∧ ds = CmdGen.dataset l.
Proof.
  unfold CmdGen.collect_data_from_game. intros E.
  destruct (RandomState seed) as [r|] eqn:Er; simplify_eq/=.
  destruct (textworld_start gamefile) as [e0|] eqn:E0; simplify_eq/=.
  destruct (env_reset e0) as [[e [o infos]]|] eqn:Ee; simplify_eq/=.
  destruct (normalize_walkthrough _) as [w|] eqn:Ew; simplify_eq/=.
  destruct (for_each _ _ _) as [l|] eqn:El; simplify_eq/=.
  split; [done|]. by repeat eexists.
Qed.

(** Every entry of a collected dataset is an entry of the walkthrough or
    of an exploratory branch. *)
Lemma collect_data_from_game_produced gamefile seed d gf ds :
  CmdGen.collect_data_from_game gamefile seed d = Ok (gf, ds) →
  ∃ w, Forall (produced gamefile w) ds.
Proof.
  intros (-> & r & e0 & e & o & infos & w & l & _ & _ & _ & _ & El & ->)%
    collect_data_from_game_Ok.
  exists w. apply walk_appends in El as (entries & -> & Hentries). done.
Qed.

End cmd_gen.

(** ** The start of a playthrough *)

Lemma for_each_cons_Ok {X S} (body : X → S → result (S * flow)) x xs s s' :
  for_each body (x :: xs) s = Ok s' →
  ∃ s1 fl, body x s = Ok (s1, fl)
    ∧ match fl with
      | Next => for_each body xs s1 = Ok s'
      | Break => s' = s1
      end.
Proof.
  simpl. destruct (body x s) as [[s1 []]|]; intros E; simplify_eq.
  - by exists s1, Next.
  - by exists s', Break.
Qed.

(** The processed walkthrough begins with ["restart"] and ["inventory"]. *)
Lemma normalize_walkthrough_Ok walkthrough w :
  normalize_walkthrough walkthrough = Ok w →
  ∃ first rest,
    walkthrough = first :: rest
    ∧ w = "restart" :: (if decide (first ≠ "inventory")
                        then "inventory" :: walkthrough else walkthrough)
    ∧ ∃ rest', w = "restart" :: "inventory" :: rest'.
Proof.
  unfold normalize_walkthrough, index. destruct walkthrough as [|first rest]; [done|].
  simpl. intros [= <-]. exists first, rest. split_and!; [done..|].
  case_decide as E; [by eexists|]. rewrite E. by eexists.
Qed.

Section cmd_gen_start.
Context `{TextWorld, !Generic, !ProcessFacts, Numpy}.

Lemma walk_appends_sub gf w d xs l l' :
  (∀ i cmd, (i, cmd) ∈ xs → w !! i = Some cmd) →
  for_each (CmdGen.walk_body gf w d) xs l = Ok l' →
  appends CmdGen.dataset (produced gf w) l l'.
Proof.
  intros Hxs. apply (for_each_preorder _ (appends CmdGen.dataset (produced gf w))).
  intros [i cmd] l1 l2 fl Hi%Hxs. by apply walk_body_appends.
Qed.

(** An iteration of the walkthrough loop appends the entry of its step,
    before any entry of the exploration. *)
Lemma walk_body_entry gf w d i cmd l l' fl :
  CmdGen.walk_body gf w d (i, cmd) l = Ok (l', fl) →
  ∃ l1 entries,
    CmdGen.advance i cmd l = Ok l1
    ∧ CmdGen.dataset l'
      = CmdGen.dataset l
        ++ CmdGen.entry gf i 0 (CmdGen.obs l1) cmd (CmdGen.facts_seen l)
             (seen_after (CmdGen.facts_seen l) (CmdGen.infos l1) cmd) :: entries
    ∧ Forall (explore_entry gf i) entries.
Proof.
  intros (l1 & E1 & E)%walk_body_Ok. simpl in E. exists l1.
  pose proof (advance_dataset _ _ _ _ E1) as [Hd _].
  destruct (CmdGen.done l1).
  - destruct E as [-> _]. exists []. simpl. by rewrite Hd.
  - destruct E as [_ [f' (entries & -> & Hentries)%explore_appends]].
    exists entries. simpl. by rewrite Hd, <-(assoc_L (++)).
Qed.

(** The walkthrough loop on a processed walkthrough: the dataset begins
    with the entry of ["restart"], computed from what [env.reset()]
    returned, and holds an entry for ["inventory"] at step [(1, 0)]. *)
Lemma walk_start gf rest d e o infos r l :
  let w := "restart" :: "inventory" :: rest in
  for_each (CmdGen.walk_body gf w d) (enumerate 0 w) (CmdGen.initially e o infos r) = Ok l →
  ∃ entries,
    CmdGen.dataset l
    = CmdGen.entry gf 0 0 o "restart" ∅ (seen_after ∅ infos "restart") :: entries
    ∧ ∃ obs1 last_facts1 infos1,
        CmdGen.entry gf 1 0 obs1 "inventory" last_facts1
          (seen_after last_facts1 infos1 "inventory") ∈ entries.
Proof.
  intros w E. unfold w in E at 2. rewrite !enumerate_cons in E.
  apply for_each_cons_Ok in E as (l1 & fl1 & E0 & E).
  apply walk_body_Ok in E0 as (l0 & [= <-] & E0). simpl in E0.
  destruct E0 as [-> [f' E0]]. apply explore_appends in E0 as (entries0 & E0 & _).
  simpl in E0.
  apply for_each_cons_Ok in E as (l2 & fl2 & E1 & E).
  apply walk_body_entry in E1 as (l1' & entries1 & _ & E1 & _).
  assert (appends CmdGen.dataset (produced gf w) l2 l) as (entries2 & E2 & _).
  { destruct fl2; [|by subst].
    eapply walk_appends_sub; [|done]. intros i cmd Hi. apply elem_of_enumerate_0.
    unfold w. rewrite !enumerate_cons. by do 2 right. }
  eexists. split.
  - rewrite E2, E1, E0. simpl. done.
  - eexists _, _, _. rewrite !elem_of_app, elem_of_cons. left. right. by left.
Qed.

End cmd_gen_start.

(** ** The playthrough collector *)

Section playthroughs.
Context `{TextWorld, !Generic, !ProcessFacts}.

Lemma entry_of_infos gf i j cmd last_facts l l' :
  Playthroughs.infos l = Playthroughs.infos l' →
  Playthroughs.entry_of gf i j cmd last_facts l
  = Playthroughs.entry_of gf i j cmd last_facts l'.
Proof. unfold Playthroughs.entry_of. by intros ->. Qed.

(** *** The loop over the admissible commands *)

Lemma branch_body_Ok gf i jc l l' fl :
  Playthroughs.branch_body gf i jc l = Ok (l', fl) →
  fl = Next ∧
  ∃ env_ o,
    env_step (Playthroughs.env l) jc.2 = Ok (env_, o)
    ∧ l' = Playthroughs.emit (Playthroughs.observe l o)
             (Playthroughs.entry_of gf i jc.1 jc.2 (Playthroughs.facts_seen l)
                (Playthroughs.observe l o)).
Proof.
  unfold Playthroughs.branch_body. destruct jc as [j cmd_]. intros E.
  destruct (env_step _ _) as [[env_ o]|] eqn:Es; simplify_eq/=. eauto.
Qed.

(** The branches tried at one step all start from the environment and the
    seen facts of the walkthrough, which they leave as they are. *)
Lemma branches_Ok gf i jcs l l' :
  for_each (Playthroughs.branch_body gf i) jcs l = Ok l' →
  Playthroughs.env l' = Playthroughs.env l
  ∧ Playthroughs.facts_seen l' = Playthroughs.facts_seen l
  ∧ ∃ entries,
      Playthroughs.dataset l' = Playthroughs.dataset l ++ entries
      ∧ Forall2 (branch_entry_from gf i l) jcs entries.
Proof.
  revert l. induction jcs as [|jc jcs IH]; intros l E.
  - simpl in E. simplify_eq. split_and!; [done..|]. exists []. by rewrite app_nil_r.
  - apply for_each_cons_Ok in E as (l1 & fl & (-> & env_ & o & Es & ->)%branch_body_Ok & E).
    apply IH in E as (Henv & Hseen & entries & Hd & Hentries).
    split_and!; [done..|]. eexists (_ :: entries). split.
    + rewrite Hd. simpl. by rewrite <-(assoc_L (++)).
    + constructor; [by exists env_, o|].
      eapply Forall2_impl; [done|]. intros jc' r (env_' & o' & Es' & ->).
      exists env_', o'. split; [done|]. by apply entry_of_infos.
Qed.

Lemma branch_entries_from gf i l jcs entries :
  Forall (λ jc : nat * string, 1 ≤ jc.1) jcs →
  Forall2 (branch_entry_from gf i l) jcs entries →
  Forall (playthrough_branch_entry gf i) entries.
Proof.
  intros Hjs Hentries. revert Hjs.
  induction Hentries as [|jc r jcs entries (env_ & o & _ & ->) _ IH]; intros Hjs; [done|].
  apply Forall_cons in Hjs as [Hj Hjs]. constructor; [|by apply IH]. by repeat eexists.
Qed.

Lemma branches_appends gf i commands l l' :
  for_each (Playthroughs.branch_body gf i) (enumerate 1 commands) l = Ok l' →
  appends Playthroughs.dataset (playthrough_branch_entry gf i) l l'.
Proof.
  intros (_ & _ & entries & Hd & Hentries)%branches_Ok. exists entries. split; [done|].
  eapply branch_entries_from; [|done].
  apply Forall_forall. intros [j c] [Hj _]%elem_of_enumerate. done.
Qed.

(** *** The walkthrough loop *)

Lemma playthrough_advance_dataset i cmd l l' :
  Playthroughs.advance i cmd l = Ok l' →
  Playthroughs.dataset l' = Playthroughs.dataset l
  ∧ Playthroughs.facts_seen l' = Playthroughs.facts_seen l.
Proof.
  unfold Playthroughs.advance. intros E. case_decide; simplify_eq/=; [|done].
  destruct (env_step _ _) as [[env' o]|]; by simplify_eq/=.
Qed.

Lemma playthrough_walk_body_Ok gf w i cmd l l' fl :
  Playthroughs.walk_body gf w (i, cmd) l = Ok (l', fl) →
  ∃ l1, Playthroughs.advance i cmd l = Ok l1
    ∧ let l2 := Playthroughs.record_step gf i cmd (Playthroughs.facts_seen l) l1 in
      if Playthroughs.done l1 then l' = l2 ∧ fl = Break
      else fl = Next
        ∧ ∃ commands,
            comprehension (eligible w i)
              (infos_admissible_commands (Playthroughs.infos l1)) = Ok commands
            ∧ for_each (Playthroughs.branch_body gf i) (enumerate 1 commands) l2 = Ok l'.
Proof.
  unfold Playthroughs.walk_body. intros E.
  destruct (Playthroughs.advance i cmd l) as [l1|] eqn:E1; simplify_eq/=.
  exists l1. split; [done|].
  destruct (Playthroughs.done l1); simplify_eq/=; [done|].
  destruct (comprehension _ _) as [commands|] eqn:Ec; simplify_eq/=.
  destruct (for_each _ _ _) as [l3|] eqn:E3; simplify_eq/=. eauto.
Qed.

Lemma playthrough_walk_body_entry gf w i cmd l l' fl :
  Playthroughs.walk_body gf w (i, cmd) l = Ok (l', fl) →
  ∃ l1 entries,
    Playthroughs.advance i cmd l = Ok l1
    ∧ Playthroughs.dataset l'
      = Playthroughs.dataset l
        ++ Playthroughs.entry_of gf i 0 cmd (Playthroughs.facts_seen l) l1 :: entries
    ∧ Forall (playthrough_branch_entry gf i) entries.
Proof.
  intros (l1 & E1 & E)%playthrough_walk_body_Ok. simpl in E. exists l1.
  pose proof (playthrough_advance_dataset _ _ _ _ E1) as [Hd _].
  destruct (Playthroughs.done l1).
  - destruct E as [-> _]. exists []. simpl. by rewrite Hd.
  - destruct E as [_ (commands & _ & (entries & -> & Hentries)%branches_appends)].
    exists entries. simpl. by rewrite Hd, <-(assoc_L (++)).
Qed.

Lemma playthrough_walk_body_appends gf w i cmd l l' fl :
  w !! i = Some cmd →
  Playthroughs.walk_body gf w (i, cmd) l = Ok (l', fl) →
  appends Playthroughs.dataset (playthrough_produced gf w) l l'.
Proof.
  intros Hi (l1 & entries & _ & Hd & Hentries)%playthrough_walk_body_entry.
  eexists. split; [done|]. constructor.
  - left. by repeat eexists.
  - eapply Forall_impl; [done|]. intros r Hr. right. eauto.
Qed.

Lemma playthrough_walk_appends gf w xs l l' :
  (∀ i cmd, (i, cmd) ∈ xs → w !! i = Some cmd) →
  for_each (Playthroughs.walk_body gf w) xs l = Ok l' →
  appends Playthroughs.dataset (playthrough_produced gf w) l l'.
Proof.
  intros Hxs.
  apply (for_each_preorder _ (appends Playthroughs.dataset (playthrough_produced gf w))).
  intros [i cmd] l1 l2 fl Hi%Hxs. by apply playthrough_walk_body_appends.
Qed.

Lemma playthrough_collect_Ok gamefile gf ds :
  Playthroughs.collect_data_from_game gamefile = Ok (gf, ds) →
  gf = gamefile ∧
  ∃ e0 e o infos w l,
    textworld_start gamefile = Ok e0
    ∧ env_reset e0 = Ok (e, (o, infos))
    ∧ normalize_walkthrough (infos_walkthrough infos) = Ok w
    ∧ for_each (Playthroughs.walk_body gamefile w) (enumerate 0 w)
        (Playthroughs.initially e infos) = Ok l
    ∧ ds = Playthroughs.dataset l.
Proof.
  unfold Playthroughs.collect_data_from_game. intros E.
  destruct (textworld_start gamefile) as [e0|] eqn:E0; simplify_eq/=.
  destruct (env_reset e0) as [[e [o infos]]|] eqn:Ee; simplify_eq/=.
  destruct (normalize_walkthrough _) as [w|] eqn:Ew; simplify_eq/=.
  destruct (for_each _ _ _) as [l|] eqn:El; simplify_eq/=.
  split; [done|]. by repeat eexists.
Qed.

Lemma playthrough_walk_start gf rest e infos l :
  let w := "restart" :: "inventory" :: rest in
  for_each (Playthroughs.walk_body gf w) (enumerate 0 w) (Playthroughs.initially e infos)
  = Ok l →
  ∃ entries,
    Playthroughs.dataset l
    = Playthroughs.entry_of gf 0 0 "restart" ∅ (Playthroughs.initially e infos) :: entries
    ∧ ∃ last_facts1 l1,
        Playthroughs.entry_of gf 1 0 "inventory" last_facts1 l1 ∈ entries.
Proof.
  intros w E. unfold w in E at 2. rewrite !enumerate_cons in E.
  apply for_each_cons_Ok in E as (l1 & fl1 & E0 & E).
  apply playthrough_walk_body_Ok in E0 as (l0 & [= <-] & E0). simpl in E0.
  destruct E0 as [-> (commands & _ & (entries0 & E0 & _)%branches_appends)].
  simpl in E0.
  apply for_each_cons_Ok in E as (l2 & fl2 & E1 & E).
  apply playthrough_walk_body_entry in E1 as (l1' & entries1 & _ & E1 & _).
  assert (appends Playthroughs.dataset (playthrough_produced gf w) l2 l)
    as (entries2 & E2 & _).
  { destruct fl2; [|by subst].
    eapply playthrough_walk_appends; [|done]. intros i cmd Hi. apply elem_of_enumerate_0.
    unfold w. rewrite !enumerate_cons. by do 2 right. }
  eexists. split.
  - rewrite E2, E1, E0. simpl. done.
  - eexists _, _. rewrite !elem_of_app, elem_of_cons. left. right. by left.
Qed.

End playthroughs.

(** ** Collection returns *)

Lemma bind_Ok {A B} (f : A → result B) a : Ok a ≫= f = f a.
Proof. done. Qed.

Lemma eligible_total walkthrough i c :
  i < length walkthrough → split c ≠ [] → ∃ b, eligible walkthrough i c = Ok b.
Proof.
  intros Hi Hc. unfold eligible.
  assert (∃ wanted,
    (if decide (c = "examine cookbook") then Ok true
     else w ← index (split c) 0; Ok (bool_decide (w ∉ commands_to_ignore))) = Ok wanted)
    as [wanted ->].
  { case_decide; [by eexists|]. unfold index. destruct (split c); [done|]. by eexists. }
  simpl. destruct wanted; [|by eexists]. case_decide as Hlen; [|by eexists].
  unfold index. destruct (lookup_lt_is_Some_2 walkthrough (i + 1)) as [next ->]; [lia|].
  by eexists.
Qed.

Lemma comprehension_total {A} (p : A → result bool) l :
  Forall (λ c, ∃ b, p c = Ok b) l → ∃ r, comprehension p l = Ok r.
Proof.
  induction 1 as [|c l [b Hb] _ [r IH]]; simpl; [by eexists|].
  rewrite Hb. simpl. rewrite IH. simpl. by eexists.
Qed.

Section totality.
Context `{TextWorld, !Generic, !ProcessFacts, Numpy}.
Context (Hsteady : steady).

Lemma eligible_commands_total w i (infos : Infos Game Action) :
  i < length w → worded infos →
  ∃ commands, comprehension (eligible w i) (infos_admissible_commands infos) = Ok commands.
Proof.
  intros Hi Hinfos. apply comprehension_total.
  eapply Forall_impl; [exact Hinfos|]. intros c Hc. by apply eligible_total.
Qed.

Lemma explore_total gf w i js l f :
  i < length w → worded (CmdGen.infos l) →
  ∃ s, for_each (CmdGen.explore_body gf w i) js (l, f) = Ok s ∧ worded (CmdGen.infos s.1).
Proof.
  intros Hi. revert l f. induction js as [|j js IH]; intros l f Hl; [by eexists|].
  destruct (eligible_commands_total w i _ Hi Hl) as [commands Ec].
  simpl. unfold CmdGen.explore_body at 1. rewrite Ec. simpl.
  case_decide; [by eexists|].
  destruct (rng_choice _ _) as [cmd_ rng'].
  destruct (Hsteady (CmdGen.env_ f) cmd_) as (env_' & o & -> & Ho). simpl.
  destruct (step_done o); [by eexists|]. by apply IH.
Qed.

Lemma advance_total i cmd l :
  worded (CmdGen.infos l) →
  ∃ l1, CmdGen.advance i cmd l = Ok l1 ∧ worded (CmdGen.infos l1).
Proof.
  intros Hl. unfold CmdGen.advance. case_decide; [|by eexists].
  destruct (Hsteady (CmdGen.env l) cmd) as (env' & o & -> & Ho). simpl. by eexists.
Qed.

Lemma walk_total gf w d steps l :
  Forall (λ ic : nat * string, ic.1 < length w) steps →
  worded (CmdGen.infos l) →
  ∃ l', for_each (CmdGen.walk_body gf w d) steps l = Ok l'.
Proof.
  intros Hsteps. revert l.
  induction Hsteps as [|[i cmd] steps Hi _ IH]; intros l Hl; [by eexists|].
  destruct (advance_total i cmd l Hl) as (l1 & E1 & Hl1).
  simpl. unfold CmdGen.walk_body at 1. rewrite E1. simpl.
  destruct (CmdGen.done l1); [by eexists|].
  edestruct (explore_total gf w i) as ([l2 f2] & -> & Hl2); [done|exact Hl1|]. simpl.
  by apply IH.
Qed.

(** On a steady environment the collection of a game that starts, with a
    walkthrough that is not empty and a seed that numpy accepts, returns a
    dataset. *)
Lemma collect_data_from_game_total gamefile seed d e0 e o infos :
  (0 ≤ seed < 2 ^ 32)%Z →
  textworld_start gamefile = Ok e0 →
  env_reset e0 = Ok (e, (o, infos)) →
  infos_walkthrough infos ≠ [] →
  worded infos →
  ∃ ds, CmdGen.collect_data_from_game gamefile seed d = Ok (gamefile, ds).
Proof.
  intros Hseed E0 Ee Hw Hinfos.
  assert (∃ w, normalize_walkthrough (infos_walkthrough infos) = Ok w) as [w Ew].
  { unfold normalize_walkthrough, index.
    destruct (infos_walkthrough infos); [done|]. by eexists. }
  destruct (walk_total gamefile w d (enumerate 0 w)
              (CmdGen.initially e o infos (rng_init seed))) as [l El]; [|done|].
  { apply Forall_forall. intros [i c] [_ Hi]%elem_of_enumerate. simpl.
    rewrite Nat.sub_0_r in Hi. by eapply lookup_lt_Some. }
  exists (CmdGen.dataset l). unfold CmdGen.collect_data_from_game, RandomState.
  rewrite bool_decide_true by done.
  rewrite bind_Ok, E0, bind_Ok, Ee, bind_Ok. cbv beta iota.
  by rewrite Ew, bind_Ok, El, bind_Ok.
Qed.

End totality.

(** ** The commands of the collected entries *)

(** C2. The added facts are the current facts that were not in the previous
    set and the removed facts are the previous facts that are not in the
    current set; the commands of a transition are synthesized from these two
    sets; the two sets are disjoint; between equal sets both are empty and
    the command list is empty. *)
Theorem diff_definition `{TextWorld, !Generic} (previous current : gset Fact) :
  (∀ fact, fact ∈ (diff previous current).1 ↔ fact ∈ current ∧ fact ∉ previous)
  ∧ (∀ fact, fact ∈ (diff previous current).2 ↔ fact ∈ previous ∧ fact ∉ current)
  ∧ (diff previous current).1 ## (diff previous current).2
  ∧ CmdGen.commands_of previous current
    = sorted (gen_graph_commands (diff previous current).1 "add"
              ++ gen_graph_commands (diff previous current).2 "delete")
  ∧ diff current current = (∅, ∅)
  ∧ CmdGen.commands_of current current = [].
Proof.
  split_and!.
  - intros fact. apply elem_of_difference.
  - intros fact. apply elem_of_difference.
  - apply elem_of_disjoint. intros fact. simpl. rewrite !elem_of_difference. tauto.
  - done.
  - unfold diff. by rewrite difference_diag_L.
  - unfold CmdGen.commands_of.
    by rewrite difference_diag_L, gen_graph_commands_empty.
Qed.

Section commands.
Context `{TextWorld, !Generic, !ProcessFacts, Numpy}.

(** C1, amended.  For every entry of a collected dataset whose transition
    loses no command to the symmetric-pair policy, applying the target
    commands to the previous serialized seen view gives the current
    serialized seen view. *)
Theorem round_trip_uncollapsed gamefile seed branching_depth gf ds :
  CmdGen.collect_data_from_game gamefile seed branching_depth = Ok (gf, ds) →
  ∀ r, r ∈ ds →
    ∃ i j obs cmd last_facts facts_seen,
      r = CmdGen.entry gamefile i j obs cmd last_facts facts_seen
      ∧ (uncollapsed (facts_seen ∖ last_facts) →
         uncollapsed (last_facts ∖ facts_seen) →
         apply_commands (CmdGen.target_commands r) (CmdGen.previous_graph_seen r)
         = Some (CmdGen.graph_seen r)).
Proof.
  intros [w Hds]%collect_data_from_game_produced r Hr.
  rewrite Forall_forall in Hds. destruct (Hds r Hr) as
    [(i & cmd & o & last_facts & infos & _ & ->)
    |(i & j & cmd & o & last_facts & infos & _ & ->)].
  - eexists i, 0, o, cmd, last_facts, _. split; [done|]. apply round_trip_transition.
  - eexists i, j, o, cmd, last_facts, _. split; [done|]. apply round_trip_transition.
Qed.

(** C5. In every entry of a collected dataset the target commands are the
    strings of [add] commands followed by the strings of [delete] commands,
    each group in the order of its canonical fact strings, which is the
    order of the pairs (operation, canonical fact string); every command is
    about the canonical string of a fact. *)
Theorem target_commands_sorted gamefile seed branching_depth gf ds :
  CmdGen.collect_data_from_game gamefile seed branching_depth = Ok (gf, ds) →
  ∀ r, r ∈ ds →
    ∃ added removed : list string,
      let commands := ((Add,.) <$> added) ++ ((Delete,.) <$> removed) in
      CmdGen.target_commands r = command_string <$> commands
      ∧ StronglySorted command_le commands
      ∧ StronglySorted String.le added
      ∧ StronglySorted String.le removed
      ∧ Forall (λ c, ∃ fact, c.2 = serialize fact) commands
      ∧ StronglySorted String.le (CmdGen.target_commands r).
Proof.
  intros [w Hds]%collect_data_from_game_produced r Hr.
  rewrite Forall_forall in Hds.
  assert (∃ last_facts facts_seen,
    CmdGen.target_commands r = CmdGen.commands_of last_facts facts_seen)
    as (last_facts & facts_seen & Er).
  { destruct (Hds r Hr) as
      [(i & cmd & o & last_facts & infos & _ & ->)
      |(i & j & cmd & o & last_facts & infos & _ & ->)]; by eexists _, _. }
  exists (sorted (serialize <$> collapse (facts_seen ∖ last_facts))),
    (sorted (serialize <$> collapse (last_facts ∖ facts_seen))).
  simpl. split_and!.
  - by rewrite Er, commands_of_split, fmap_app, <-!list_fmap_compose.
  - apply StronglySorted_app_2.
    + intros c1 c2 (x1 & -> & _)%list_elem_of_fmap (x2 & -> & _)%list_elem_of_fmap.
      left. simpl. lia.
    + eapply StronglySorted_fmap; [|apply sorted_StronglySorted].
      intros x y ?. by right.
    + eapply StronglySorted_fmap; [|apply sorted_StronglySorted].
      intros x y ?. by right.
  - apply sorted_StronglySorted.
  - apply sorted_StronglySorted.
  - apply Forall_app. split; apply Forall_fmap, Forall_forall; intros x;
      rewrite elem_of_sorted; intros (fact & -> & _)%list_elem_of_fmap; by exists fact.
  - rewrite Er. apply sorted_StronglySorted.
Qed.

End commands.

(** C1 fails as stated: on the walkthrough of the three-room game the step
    into the hallway adds a pair of inverse facts, of which only one gets a
    command, so the commands do not rebuild the current view. *)
Lemma round_trip_counterexample :
  ∃ gf ds r,
    @CmdGen.collect_data_from_game Example.world Example.generic Example.remembering
      Example.counter "games/tw.z8" 0 0 = Ok (gf, ds)
    ∧ r ∈ ds
    ∧ apply_commands (CmdGen.target_commands r) (CmdGen.previous_graph_seen r)
      ≠ Some (CmdGen.graph_seen r).
Proof.
  eexists _, _, _. split; [vm_compute; reflexivity|].
  split; [apply list_elem_of_lookup; by exists 2|].
  vm_compute. discriminate.
Qed.

Lemma round_trip_uncollapsed_witness :
  ∃ ds,
    @CmdGen.collect_data_from_game Example.world Example.generic Example.forgetful
      Example.counter "games/tw.z8" 1 2 = Ok ("games/tw.z8", ds)
    ∧ ∀ r, r ∈ ds →
        ∃ i j obs cmd last_facts facts_seen,
          r = CmdGen.entry "games/tw.z8" i j obs cmd last_facts facts_seen
          ∧ (uncollapsed (facts_seen ∖ last_facts) →
             uncollapsed (last_facts ∖ facts_seen) →
             apply_commands (CmdGen.target_commands r) (CmdGen.previous_graph_seen r)
             = Some (CmdGen.graph_seen r)).
Proof.
  eexists. split; [vm_compute; reflexivity|].
  apply (@round_trip_uncollapsed Example.world Example.generic Example.forgetful
           Example.counter "games/tw.z8" 1 2 "games/tw.z8").
  vm_compute. reflexivity.
Defined.

Lemma target_commands_sorted_witness :
  ∃ ds,
    @CmdGen.collect_data_from_game Example.world Example.generic Example.forgetful
      Example.counter "games/tw.z8" 1 2 = Ok ("games/tw.z8", ds)
    ∧ ∀ r, r ∈ ds → StronglySorted String.le (CmdGen.target_commands r).
Proof.
  eexists. split; [vm_compute; reflexivity|]. intros r Hr.
  edestruct (@target_commands_sorted Example.world Example.generic Example.forgetful
               Example.counter "games/tw.z8" 1 2 "games/tw.z8")
    as (added & removed & H); [vm_compute; reflexivity|exact Hr|]. apply H.
Defined.

(** ** The first entries of a playthrough *)

Section start.
Context `{TextWorld, !Generic, !ProcessFacts, Numpy}.

Lemma commands_of_empty facts_seen :
  Forall (λ c, ∃ fact, c = command_string (Add, serialize fact))
    (CmdGen.commands_of ∅ facts_seen).
Proof.
  rewrite commands_of_split, empty_difference_L.
  unfold collapse at 2. rewrite elements_empty. simpl. rewrite app_nil_r.
  apply Forall_fmap, Forall_forall. intros x.
  rewrite elem_of_sorted. intros (fact & -> & _)%list_elem_of_fmap. by exists fact.
Qed.

(** C6. A collected dataset begins with the entry of the ["restart"]
    pseudo-action at step (0, 0).  This entry is made of what [env.reset()]
    returned, with no step of the environment; its previous seen view is
    empty and all its commands are [add] commands.  The playthrough
    collector starts in the same way. *)
Theorem restart_seeds_empty gamefile :
  (∀ seed branching_depth gf ds,
     CmdGen.collect_data_from_game gamefile seed branching_depth = Ok (gf, ds) →
     ∃ e0 e obs infos entries,
       textworld_start gamefile = Ok e0
       ∧ env_reset e0 = Ok (e, (obs, infos))
       ∧ let first := CmdGen.entry gamefile 0 0 obs "restart" ∅
                        (seen_after ∅ infos "restart") in
         ds = first :: entries
         ∧ CmdGen.step first = (0, 0)
         ∧ CmdGen.previous_action first = "restart"
         ∧ CmdGen.previous_graph_seen first = []
         ∧ Forall (λ c, ∃ fact, c = command_string (Add, serialize fact))
             (CmdGen.target_commands first))
  ∧ (∀ gf ds,
       Playthroughs.collect_data_from_game gamefile = Ok (gf, ds) →
       ∃ e0 e obs infos entries,
         textworld_start gamefile = Ok e0
         ∧ env_reset e0 = Ok (e, (obs, infos))
         ∧ let first := Playthroughs.entry_of gamefile 0 0 "restart" ∅
                          (Playthroughs.initially e infos) in
           ds = first :: entries
           ∧ Playthroughs.step first = (0, 0)
           ∧ Playthroughs.action first = "restart"
           ∧ Playthroughs.graph_seen first
             = sorted (serialize_facts (seen_after ∅ infos "restart"))).
Proof.
  split.
  - intros seed d gf ds
      (-> & r & e0 & e & o & infos & w & l & _ & E0 & Ee & Ew & El & ->)%
      collect_data_from_game_Ok.
    apply normalize_walkthrough_Ok in Ew as (_ & _ & _ & _ & rest & ->).
    apply walk_start in El as (entries & El & _).
    exists e0, e, o, infos, entries. split_and!; [done..|]. simpl.
    split_and!; [done..|]. apply commands_of_empty.
  - intros gf ds (-> & e0 & e & o & infos & w & l & E0 & Ee & Ew & El & ->)%
      playthrough_collect_Ok.
    apply normalize_walkthrough_Ok in Ew as (_ & _ & _ & _ & rest & ->).
    apply playthrough_walk_start in El as (entries & El & _).
    exists e0, e, o, infos, entries. by split_and!.
Qed.

(** C10. The processed command sequence is ["restart"], then
    ["inventory"], then the walkthrough of the environment without its
    leading ["inventory"]; a collected dataset has entries at steps (0, 0)
    and (1, 0), and every entry at these steps has the action ["restart"],
    respectively ["inventory"]. *)
Theorem walkthrough_normalized gamefile :
  (∀ seed branching_depth gf ds,
     CmdGen.collect_data_from_game gamefile seed branching_depth = Ok (gf, ds) →
     ∃ e0 e obs infos first rest w,
       textworld_start gamefile = Ok e0
       ∧ env_reset e0 = Ok (e, (obs, infos))
       ∧ infos_walkthrough infos = first :: rest
       ∧ normalize_walkthrough (infos_walkthrough infos) = Ok w
       ∧ w = "restart" :: "inventory"
               :: (if decide (first = "inventory") then rest else first :: rest)
       ∧ (∃ r, r ∈ ds ∧ CmdGen.step r = (0, 0))
       ∧ (∃ r, r ∈ ds ∧ CmdGen.step r = (1, 0))
       ∧ ∀ r, r ∈ ds →
           (CmdGen.step r = (0, 0) → CmdGen.previous_action r = "restart")
           ∧ (CmdGen.step r = (1, 0) → CmdGen.previous_action r = "inventory"))
  ∧ (∀ gf ds,
       Playthroughs.collect_data_from_game gamefile = Ok (gf, ds) →
       ∃ e0 e obs infos first rest w,
         textworld_start gamefile = Ok e0
         ∧ env_reset e0 = Ok (e, (obs, infos))
         ∧ infos_walkthrough infos = first :: rest
         ∧ normalize_walkthrough (infos_walkthrough infos) = Ok w
         ∧ w = "restart" :: "inventory"
                 :: (if decide (first = "inventory") then rest else first :: rest)
         ∧ (∃ r, r ∈ ds ∧ Playthroughs.step r = (0, 0))
         ∧ (∃ r, r ∈ ds ∧ Playthroughs.step r = (1, 0))
         ∧ ∀ r, r ∈ ds →
             (Playthroughs.step r = (0, 0) → Playthroughs.action r = "restart")
             ∧ (Playthroughs.step r = (1, 0) → Playthroughs.action r = "inventory")).
Proof.
  split.
  - intros seed d gf ds
      (-> & r & e0 & e & o & infos & w & l & _ & E0 & Ee & Ew & El & ->)%
      collect_data_from_game_Ok.
    pose proof Ew as (first & rest & Ei & Ew' & rest' & Ew'')%normalize_walkthrough_Ok.
    exists e0, e, o, infos, first, rest, w. split_and!; [done..| | | |].
    + rewrite Ew', Ei. repeat case_decide; by simplify_eq.
    + rewrite Ew'' in El. apply walk_start in El as (entries & -> & _).
      eexists. split; [left|done].
    + rewrite Ew'' in El. apply walk_start in El as (entries & -> & o1 & l1 & i1 & Hin).
      eexists. split; [right; exact Hin|done].
    + apply walk_appends in El as (entries & El & Hentries). simpl in El. subst entries.
      rewrite Forall_forall in Hentries. intros r0 Hr0. rewrite Ew'' in Hentries.
      destruct (Hentries r0 Hr0) as
        [(i & cmd & o1 & last & infos1 & Hi & ->)|(i & j & cmd & o1 & last & infos1 & Hj & ->)];
        simpl; split; intros ?; simplify_eq/=; done || lia.
  - intros gf ds (-> & e0 & e & o & infos & w & l & E0 & Ee & Ew & El & ->)%
      playthrough_collect_Ok.
    pose proof Ew as (first & rest & Ei & Ew' & rest' & Ew'')%normalize_walkthrough_Ok.
    exists e0, e, o, infos, first, rest, w. split_and!; [done..| | | |].
    + rewrite Ew', Ei. repeat case_decide; by simplify_eq.
    + rewrite Ew'' in El. apply playthrough_walk_start in El as (entries & -> & _).
      eexists. split; [left|done].
    + rewrite Ew'' in El.
      apply playthrough_walk_start in El as (entries & -> & l1 & i1 & Hin).
      eexists. split; [right; exact Hin|done].
    + apply playthrough_walk_appends in El as (entries & El & Hentries);
        [|by intros i cmd ?%elem_of_enumerate_0].
      simpl in El. subst entries.
      rewrite Forall_forall in Hentries. intros r0 Hr0. rewrite Ew'' in Hentries.
      destruct (Hentries r0 Hr0) as
        [(i & cmd & last & l1 & Hi & ->)|(i & j & cmd & last & l1 & Hj & ->)];
        simpl; split; intros ?; simplify_eq/=; done || lia.
Qed.

End start.

Lemma restart_seeds_empty_witness :
  ∃ ds first entries,
    @CmdGen.collect_data_from_game Example.world Example.generic Example.remembering
      Example.counter "games/tw.z8" 0 2 = Ok ("games/tw.z8", ds)
    ∧ ds = first :: entries
    ∧ CmdGen.previous_graph_seen first = [].
Proof.
  destruct (@restart_seeds_empty Example.world Example.generic Example.remembering
              Example.counter "games/tw.z8") as [Hcmd _].
  edestruct (Hcmd 0%Z 2%Z)
    as (e0 & e & o & infos & entries & _ & _ & Hds & _ & _ & Hprev & _);
    [vm_compute; reflexivity|].
  eexists _, _, _. split; [vm_compute; reflexivity|]. split; [exact Hds|exact Hprev].
Defined.

Lemma walkthrough_normalized_witness :
  ∃ ds,
    @CmdGen.collect_data_from_game Example.world Example.generic Example.remembering
      Example.counter "games/tw.z8" 0 2 = Ok ("games/tw.z8", ds)
    ∧ ∀ r, r ∈ ds →
        (CmdGen.step r = (0, 0) → CmdGen.previous_action r = "restart")
        ∧ (CmdGen.step r = (1, 0) → CmdGen.previous_action r = "inventory").
Proof.
  eexists. split; [vm_compute; reflexivity|].
  destruct (@walkthrough_normalized Example.world Example.generic Example.remembering
              Example.counter "games/tw.z8") as [Hcmd _].
  edestruct (Hcmd 0%Z 2%Z) as (e0 & e & o & infos & first & rest & w & H);
    [vm_compute; reflexivity|].
  apply H.
Defined.

(** ** The end of a branch *)

Section completion.
Context `{TextWorld, !Generic, !ProcessFacts, Numpy}.

(** When the step of the walkthrough reports that the game is done, the
    loop ends with the entry of this step as the last one, whatever
    commands remain. *)
Lemma walk_done gf w d i cmd rest l l1 :
  CmdGen.advance i cmd l = Ok l1 →
  CmdGen.done l1 = true →
  for_each (CmdGen.walk_body gf w d) ((i, cmd) :: rest) l
  = Ok (CmdGen.record_step gf i cmd (CmdGen.facts_seen l) l1).
Proof.
  intros E1 Hdone. apply for_each_break. unfold CmdGen.walk_body.
  rewrite E1. simpl. by rewrite Hdone.
Qed.

(** A branch without eligible commands ends as it is. *)
Lemma explore_exhausted gf w i j js l f :
  comprehension (eligible w i) (infos_admissible_commands (CmdGen.infos l)) = Ok [] →
  for_each (CmdGen.explore_body gf w i) (j :: js) (l, f) = Ok (l, f).
Proof.
  intros Ec. apply for_each_break. unfold CmdGen.explore_body. by rewrite Ec.
Qed.

(** A branch whose step reports that the game is done ends without a new
    entry. *)
Lemma explore_done gf w i j js l f commands env_' o :
  comprehension (eligible w i) (infos_admissible_commands (CmdGen.infos l)) = Ok commands →
  commands ≠ [] →
  env_step (CmdGen.env_ f) (rng_choice (CmdGen.rng l) commands).1 = Ok (env_', o) →
  step_done o = true →
  ∃ l' f',
    for_each (CmdGen.explore_body gf w i) (j :: js) (l, f) = Ok (l', f')
    ∧ CmdGen.dataset l' = CmdGen.dataset l.
Proof.
  intros Ec Hne Es Hdone.
  exists (CmdGen.observe (CmdGen.with_rng l (rng_choice (CmdGen.rng l) commands).2) o),
    {| CmdGen.env_ := env_'; CmdGen.facts_seen_ := CmdGen.facts_seen_ f |}.
  split; [|done].
  apply for_each_break. unfold CmdGen.explore_body. rewrite Ec. simpl.
  rewrite decide_False by by destruct commands.
  destruct (rng_choice _ _) as [cmd_ rng']. simpl in *. rewrite Es. simpl.
  by rewrite Hdone.
Qed.

Lemma playthrough_walk_done gf w i cmd rest l l1 :
  Playthroughs.advance i cmd l = Ok l1 →
  Playthroughs.done l1 = true →
  for_each (Playthroughs.walk_body gf w) ((i, cmd) :: rest) l
  = Ok (Playthroughs.record_step gf i cmd (Playthroughs.facts_seen l) l1).
Proof.
  intros E1 Hdone. apply for_each_break. unfold Playthroughs.walk_body.
  rewrite E1. simpl. by rewrite Hdone.
Qed.

(** C7. Once the environment reports that the game is done, or an
    exploratory branch has no eligible command, the loop of the branch is
    left and no later step of it appends an entry: the walkthrough of both
    collectors ends with the entry of the step that reported completion,
    and an exploratory branch ends with the dataset as it was. *)
Theorem done_is_terminal gf w :
  (∀ d i cmd rest l l1,
     CmdGen.advance i cmd l = Ok l1 →
     CmdGen.done l1 = true →
     for_each (CmdGen.walk_body gf w d) ((i, cmd) :: rest) l
     = Ok (CmdGen.record_step gf i cmd (CmdGen.facts_seen l) l1))
  ∧ (∀ i j js l f,
       comprehension (eligible w i) (infos_admissible_commands (CmdGen.infos l)) = Ok [] →
       for_each (CmdGen.explore_body gf w i) (j :: js) (l, f) = Ok (l, f))
  ∧ (∀ i j js l f commands env_' o,
       comprehension (eligible w i) (infos_admissible_commands (CmdGen.infos l))
       = Ok commands →
       commands ≠ [] →
       env_step (CmdGen.env_ f) (rng_choice (CmdGen.rng l) commands).1 = Ok (env_', o) →
       step_done o = true →
       ∃ l' f',
         for_each (CmdGen.explore_body gf w i) (j :: js) (l, f) = Ok (l', f')
         ∧ CmdGen.dataset l' = CmdGen.dataset l)
  ∧ (∀ i cmd rest l l1,
       Playthroughs.advance i cmd l = Ok l1 →
       Playthroughs.done l1 = true →
       for_each (Playthroughs.walk_body gf w) ((i, cmd) :: rest) l
       = Ok (Playthroughs.record_step gf i cmd (Playthroughs.facts_seen l) l1)).
Proof.
  split_and!.
  - intros. by apply walk_done.
  - intros. by apply explore_exhausted.
  - intros. by eapply explore_done.
  - intros. by apply playthrough_walk_done.
Qed.

End completion.

(** In the hallway of the three-room game, ["go north"] ends the game: the
    walkthrough loop stops there although a command remains. *)
Lemma done_is_terminal_witness :
  let l := @CmdGen.initially Example.world Example.counter
             {| Example.room := 1; Example.walkthrough := [] |} "You are in the hallway."
             (Example.report {| Example.room := 1; Example.walkthrough := [] |}) 0 in
  ∃ l', for_each (@CmdGen.walk_body Example.world Example.generic Example.remembering
                    Example.counter "games/tw.z8" ["restart"; "go north"; "look"] 2)
          [(1, "go north"); (2, "look")] l = Ok l'
        ∧ length (CmdGen.dataset l') = 1.
Proof.
  intros l. eexists. split.
  - apply (@done_is_terminal Example.world Example.generic Example.remembering
             Example.counter "games/tw.z8" ["restart"; "go north"; "look"]);
      vm_compute; reflexivity.
  - reflexivity.
Defined.

(** ** The seen view of the specification only grows *)

Section monotonicity.
Context `{TextWorld, !Generic, Numpy}.
Context (closure perceivable : Game → list Fact → option Action → string → gset Fact).

Local Instance seen_view : ProcessFacts := process_facts_spec closure perceivable.

Lemma seen_after_superset last_facts infos cmd :
  last_facts ⊆ seen_after last_facts infos cmd.
Proof. unfold seen_after. simpl. unfold seenView. apply union_subseteq_l. Qed.

Lemma serialize_facts_mono (facts1 facts2 : gset Fact) :
  facts1 ⊆ facts2 → sorted (serialize_facts facts1) ⊆ sorted (serialize_facts facts2).
Proof.
  intros Hsub x. rewrite !elem_of_sorted. unfold serialize_facts.
  rewrite !list_elem_of_fmap. intros (fact & -> & Hfact). exists fact. split; [done|].
  apply elem_of_elements, Hsub. by apply elem_of_elements.
Qed.

Lemma walk_body_monotone gf w d i cmd l l' fl :
  CmdGen.walk_body gf w d (i, cmd) l = Ok (l', fl) →
  CmdGen.facts_seen l ⊆ CmdGen.facts_seen l'.
Proof.
  intros (l1 & E1 & E)%walk_body_Ok. simpl in E.
  destruct (CmdGen.done l1).
  - destruct E as [-> _]. apply seen_after_superset.
  - destruct E as [_ [f' [_ ->]%explore_frame]]. apply seen_after_superset.
Qed.

Lemma explore_body_monotone gf w i j l f l' f' fl :
  CmdGen.explore_body gf w i j (l, f) = Ok ((l', f'), fl) →
  CmdGen.facts_seen_ f ⊆ CmdGen.facts_seen_ f'.
Proof.
  unfold CmdGen.explore_body. intros E.
  destruct (comprehension _ _) as [commands|] eqn:Ec; simplify_eq/=.
  case_decide; simplify_eq/=; [done|].
  destruct (rng_choice _ _) as [cmd_ rng'].
  destruct (env_step _ _) as [[env_' o]|] eqn:Es; simplify_eq/=.
  destruct (step_done o); simplify_eq/=; [done|]. apply seen_after_superset.
Qed.

Lemma playthrough_walk_body_monotone gf w i cmd l l' fl :
  Playthroughs.walk_body gf w (i, cmd) l = Ok (l', fl) →
  Playthroughs.facts_seen l ⊆ Playthroughs.facts_seen l'.
Proof.
  intros (l1 & E1 & E)%playthrough_walk_body_Ok. simpl in E.
  destruct (Playthroughs.done l1).
  - destruct E as [-> _]. apply seen_after_superset.
  - destruct E as [_ (commands & _ & (_ & -> & _)%branches_Ok)].
    apply seen_after_superset.
Qed.

(** C3. With the seen view of the specification, the seen facts after a
    step contain the seen facts before it: in every iteration of the
    walkthrough loop of both collectors and of the exploratory loop, hence
    from any step of a branch to any later one; a branch starts from the
    seen facts of the walkthrough; and in every entry of a collected
    dataset the previous seen view is contained in the current one. *)
Theorem seen_monotone gf w :
  (∀ last_facts infos cmd, last_facts ⊆ seen_after last_facts infos cmd)
  ∧ (∀ d i cmd l l' fl,
       CmdGen.walk_body gf w d (i, cmd) l = Ok (l', fl) →
       CmdGen.facts_seen l ⊆ CmdGen.facts_seen l')
  ∧ (∀ i j l f l' f' fl,
       CmdGen.explore_body gf w i j (l, f) = Ok ((l', f'), fl) →
       CmdGen.facts_seen_ f ⊆ CmdGen.facts_seen_ f')
  ∧ (∀ d steps l l',
       for_each (CmdGen.walk_body gf w d) steps l = Ok l' →
       CmdGen.facts_seen l ⊆ CmdGen.facts_seen l')
  ∧ (∀ i js l l' f',
       for_each (CmdGen.explore_body gf w i) js (l, CmdGen.fork l) = Ok (l', f') →
       CmdGen.facts_seen l ⊆ CmdGen.facts_seen_ f')
  ∧ (∀ i cmd l l' fl,
       Playthroughs.walk_body gf w (i, cmd) l = Ok (l', fl) →
       Playthroughs.facts_seen l ⊆ Playthroughs.facts_seen l')
  ∧ (∀ steps l l',
       for_each (Playthroughs.walk_body gf w) steps l = Ok l' →
       Playthroughs.facts_seen l ⊆ Playthroughs.facts_seen l')
  ∧ (∀ seed d gf' ds,
       CmdGen.collect_data_from_game gf seed d = Ok (gf', ds) →
       ∀ r, r ∈ ds → CmdGen.previous_graph_seen r ⊆ CmdGen.graph_seen r).
Proof.
  split_and!.
  - apply seen_after_superset.
  - apply walk_body_monotone.
  - apply explore_body_monotone.
  - intros d steps l l'.
    apply (for_each_invariant _ (λ s, CmdGen.facts_seen l ⊆ CmdGen.facts_seen s));
      [|done].
    intros [i cmd] l1 l2 fl _ Hl1 E. etrans; [done|]. by eapply walk_body_monotone.
  - intros i js l l' f'.
    apply (for_each_invariant _ (λ s, CmdGen.facts_seen l ⊆ CmdGen.facts_seen_ s.2));
      [|done].
    intros j [l1 f1] [l2 f2] fl _ Hl1 E. etrans; [done|].
    by eapply explore_body_monotone.
  - apply playthrough_walk_body_monotone.
  - intros steps l l'.
    apply (for_each_invariant _
      (λ s, Playthroughs.facts_seen l ⊆ Playthroughs.facts_seen s)); [|done].
    intros [i cmd] l1 l2 fl _ Hl1 E. etrans; [done|].
    by eapply playthrough_walk_body_monotone.
  - intros seed d gf' ds [w' Hds]%collect_data_from_game_produced r Hr.
    rewrite Forall_forall in Hds. destruct (Hds r Hr) as
      [(i & cmd & o & last_facts & infos & _ & ->)
      |(i & j & cmd & o & last_facts & infos & _ & ->)];
      apply serialize_facts_mono, seen_after_superset.
Qed.

End monotonicity.

Lemma seen_monotone_witness :
  ∃ ds,
    @CmdGen.collect_data_from_game Example.world Example.generic Example.remembering
      Example.counter "games/tw.z8" 0 2 = Ok ("games/tw.z8", ds)
    ∧ ∀ r, r ∈ ds → CmdGen.previous_graph_seen r ⊆ CmdGen.graph_seen r.
Proof.
  destruct (@seen_monotone Example.world Example.generic Example.counter
              (λ _ facts _ _, list_to_set facts) (λ _ facts _ _, list_to_set facts)
              "games/tw.z8" []) as (_ & _ & _ & _ & _ & _ & _ & Hds).
  eexists. split; [vm_compute; reflexivity|].
  apply (Hds 0%Z 2%Z "games/tw.z8"). vm_compute. reflexivity.
Defined.

(** ** Exploration does not reach the walkthrough *)

Section isolation.
Context `{TextWorld, !Generic, !ProcessFacts, Numpy}.

Lemma walkthrough_entries_app ds1 ds2 :
  walkthrough_entries (ds1 ++ ds2) = walkthrough_entries ds1 ++ walkthrough_entries ds2.
Proof. apply filter_app. Qed.

Lemma walkthrough_entries_explore gf i entries :
  Forall (explore_entry gf i) entries → walkthrough_entries entries = [].
Proof.
  unfold walkthrough_entries.
  induction 1 as [|r entries (j & cmd & o & last & infos & Hj & ->) _ IH]; [done|].
  rewrite filter_cons_False; [done|]. simpl. lia.
Qed.

Lemma advance_sim i cmd l l0 l1 :
  CmdGen.env l = CmdGen.env l0 →
  (i = 0 → same_report l l0) →
  CmdGen.advance i cmd l = Ok l1 →
  ∃ l1',
    CmdGen.advance i cmd l0 = Ok l1'
    ∧ CmdGen.env l1 = CmdGen.env l1'
    ∧ same_report l1 l1'
    ∧ CmdGen.facts_seen l1' = CmdGen.facts_seen l0
    ∧ CmdGen.dataset l1' = CmdGen.dataset l0.
Proof.
  unfold CmdGen.advance. intros Henv Hsame E. case_decide as Hi.
  - rewrite <-Henv. destruct (env_step _ _) as [[env' o]|]; simplify_eq/=.
    eexists. by split_and!.
  - simplify_eq. exists l0. split_and!; [done..| |done|done]. apply Hsame. lia.
Qed.

(** An iteration of the walkthrough loop with exploration and the same
    iteration without exploration do the same to the walkthrough. *)
Lemma walk_body_sim gf w d i cmd l l0 l' fl :
  walkthrough_of l l0 →
  (i = 0 → same_report l l0) →
  CmdGen.walk_body gf w d (i, cmd) l = Ok (l', fl) →
  ∃ l0', CmdGen.walk_body gf w 0 (i, cmd) l0 = Ok (l0', fl) ∧ walkthrough_of l' l0'.
Proof.
  intros (Henv & Hseen & Hds) Hsame (l1 & E1 & E)%walk_body_Ok. simpl in E.
  pose proof (advance_dataset _ _ _ _ E1) as [Hd1 Hs1].
  destruct (advance_sim _ _ _ _ _ Henv Hsame E1)
    as (l1' & E1' & Henv1 & (Hobs & Hinfos & Hdone) & Hs1' & Hd1').
  unfold CmdGen.walk_body. rewrite E1'. simpl. rewrite <-Hdone.
  assert (walkthrough_of (CmdGen.record_step gf i cmd (CmdGen.facts_seen l) l1)
            (CmdGen.record_step gf i cmd (CmdGen.facts_seen l0) l1')) as Hstep.
  { split_and!; simpl.
    - done.
    - by rewrite Hseen, Hinfos.
    - rewrite Hd1, Hd1', Hds, walkthrough_entries_app, Hseen, Hinfos, Hobs. done. }
  destruct (CmdGen.done l1).
  - destruct E as [-> ->]. eauto.
  - destruct E as [-> [f' E]]. eexists. split; [done|]. simpl.
    destruct (explore_frame _ _ _ _ _ _ _ _ E) as [Henv' Hseen'].
    apply explore_appends in E as (entries & Hd' & Hentries).
    destruct Hstep as (Henv2 & Hseen2 & Hds2). split_and!.
    + by rewrite Henv'.
    + by rewrite Hseen'.
    + rewrite Hd', walkthrough_entries_app, (walkthrough_entries_explore gf i entries),
        app_nil_r by done. done.
Qed.

Lemma walk_sim gf w d steps l l0 l' :
  Forall (λ ic : nat * string, 0 < ic.1) steps →
  walkthrough_of l l0 →
  for_each (CmdGen.walk_body gf w d) steps l = Ok l' →
  ∃ l0', for_each (CmdGen.walk_body gf w 0) steps l0 = Ok l0' ∧ walkthrough_of l' l0'.
Proof.
  intros Hsteps. revert l l0.
  induction Hsteps as [|[i cmd] steps Hi _ IH]; intros l l0 Hsim E.
  - simpl in *. simplify_eq. eauto.
  - apply for_each_cons_Ok in E as (l1 & fl & E1 & E).
    eapply walk_body_sim in E1 as (l1' & E1' & Hsim1); [|done|simpl in Hi; lia].
    destruct fl.
    + rewrite (for_each_next _ _ _ _ _ E1'). by eapply IH.
    + subst. rewrite (for_each_break _ _ _ _ _ E1'). eauto.
Qed.

(** The walkthrough loop from the start of a playthrough. *)
Lemma walk_sim_start gf w d e o infos r l' :
  for_each (CmdGen.walk_body gf w d) (enumerate 0 w) (CmdGen.initially e o infos r) = Ok l' →
  ∃ l0', for_each (CmdGen.walk_body gf w 0) (enumerate 0 w) (CmdGen.initially e o infos r)
         = Ok l0'
       ∧ walkthrough_of l' l0'.
Proof.
  assert (walkthrough_of (CmdGen.initially e o infos r) (CmdGen.initially e o infos r))
    as Hsim by done.
  destruct w as [|cmd w']; intros E.
  - simpl in *. simplify_eq. eauto.
  - rewrite enumerate_cons in *.
    apply for_each_cons_Ok in E as (l1 & fl & E1 & E).
    eapply walk_body_sim in E1 as (l1' & E1' & Hsim1); [|done|done].
    destruct fl.
    + rewrite (for_each_next _ _ _ _ _ E1'). eapply walk_sim; [|done..].
      apply Forall_forall. intros [i c] [Hi _]%elem_of_enumerate. simpl. lia.
    + subst. rewrite (for_each_break _ _ _ _ _ E1'). eauto.
Qed.

(** C4. The exploratory loop leaves the environment and the seen facts of
    the walkthrough as they are, so the walkthrough goes on from the seen
    facts it had at the fork; the entries of the walkthrough are those of a
    collection without exploration, whatever was explored; and in the
    playthrough collector every branch tried at a step starts from the
    environment and the seen facts of the walkthrough, which no branch
    changes. *)
Theorem branch_isolation gamefile :
  (∀ w i js l f l' f',
     for_each (CmdGen.explore_body gamefile w i) js (l, f) = Ok (l', f') →
     CmdGen.env l' = CmdGen.env l ∧ CmdGen.facts_seen l' = CmdGen.facts_seen l)
  ∧ (∀ seed branching_depth gf ds,
       CmdGen.collect_data_from_game gamefile seed branching_depth = Ok (gf, ds) →
       CmdGen.collect_data_from_game gamefile seed 0 = Ok (gf, walkthrough_entries ds))
  ∧ (∀ i jcs l l',
       for_each (Playthroughs.branch_body gamefile i) jcs l = Ok l' →
       Playthroughs.env l' = Playthroughs.env l
       ∧ Playthroughs.facts_seen l' = Playthroughs.facts_seen l
       ∧ ∃ entries,
           Playthroughs.dataset l' = Playthroughs.dataset l ++ entries
           ∧ Forall2 (branch_entry_from gamefile i l) jcs entries).
Proof.
  split_and!.
  - intros w i js l f l' f'. apply explore_frame.
  - intros seed d gf ds
      (-> & r & e0 & e & o & infos & w & l & Er & E0 & Ee & Ew & El & ->)%
      collect_data_from_game_Ok.
    apply walk_sim_start in El as (l0' & El0 & _ & _ & Hds).
    unfold CmdGen.collect_data_from_game.
    rewrite Er. simpl. rewrite E0. simpl. rewrite Ee. simpl. rewrite Ew. simpl.
    rewrite El0. simpl. by rewrite Hds.
  - intros i jcs l l'. apply branches_Ok.
Qed.

End isolation.

Lemma branch_isolation_witness :
  ∃ ds,
    @CmdGen.collect_data_from_game Example.world Example.generic Example.forgetful
      Example.counter "games/tw.z8" 1 2 = Ok ("games/tw.z8", ds)
    ∧ @CmdGen.collect_data_from_game Example.world Example.generic Example.forgetful
        Example.counter "games/tw.z8" 1 0 = Ok ("games/tw.z8", walkthrough_entries ds).
Proof.
  destruct (@branch_isolation Example.world Example.generic Example.forgetful
              Example.counter "games/tw.z8") as (_ & Hwalk & _).
  eexists. split; [vm_compute; reflexivity|].
  apply (Hwalk 1%Z 2%Z). vm_compute. reflexivity.
Defined.

(** ** Batches of games *)

Lemma enumerate_app {A} k (l1 l2 : list A) :
  enumerate k (l1 ++ l2) = enumerate k l1 ++ enumerate (k + length l1) l2.
Proof.
  revert k. induction l1 as [|x l1 IH]; intros k; simpl.
  - by rewrite Nat.add_0_r.
  - rewrite !enumerate_cons, IH. simpl. do 3 f_equal. lia.
Qed.

Section batches.
Context `{TextWorld, !Generic, !ProcessFacts, Numpy}.
Context (json_dumps : CmdGen.DataRecord → string).
Context (playthrough_json_dumps : Playthroughs.DataRecord → string).

Lemma collect_games_app games1 games2 seed d outfile :
  CmdGen.collect_games json_dumps (games1 ++ games2) seed d outfile
  = match CmdGen.collect_games json_dumps games1 seed d outfile with
    | (outfile', Ok _) => CmdGen.collect_games json_dumps games2 seed d outfile'
    | (outfile', Raise e) => (outfile', Raise e)
    end.
Proof.
  revert outfile. induction games1 as [|[i gamefile] games1 IH]; intros outfile; simpl.
  - done.
  - destruct (CmdGen.collect_data_from_game _ _ _); [apply IH|done].
Qed.

Lemma playthrough_collect_games_app games1 games2 outfile :
  Playthroughs.collect_games playthrough_json_dumps (games1 ++ games2) outfile
  = match Playthroughs.collect_games playthrough_json_dumps games1 outfile with
    | (outfile', Ok _) => Playthroughs.collect_games playthrough_json_dumps games2 outfile'
    | (outfile', Raise e) => (outfile', Raise e)
    end.
Proof.
  revert outfile. induction games1 as [|[i gamefile] games1 IH]; intros outfile; simpl.
  - done.
  - destruct (Playthroughs.collect_data_from_game _); [apply IH|done].
Qed.

(** C8, amended.  [collect_data] does not catch the failure of a game: when
    the games before it were collected and the collection of a game raises,
    [collect_data] raises the same exception; the output file holds what
    was written for the games before, without the closing bracket, and
    the games after are not processed.  This holds for both collectors,
    run with one process. *)
Theorem failure_aborts_batch before gamefile after e :
  (∀ seed branching_depth outfile,
     CmdGen.collect_games json_dumps (enumerate 0 before) seed branching_depth
       ("[" +:+ newline) = (outfile, Ok ()) →
     CmdGen.collect_data_from_game gamefile (seed + Z.of_nat (length before))%Z branching_depth
       = Raise e →
     CmdGen.collect_data json_dumps (before ++ gamefile :: after) seed branching_depth
       = (outfile, Raise e))
  ∧ (∀ outfile,
       Playthroughs.collect_games playthrough_json_dumps (enumerate 0 before)
         ("[" +:+ newline) = (outfile, Ok ()) →
       Playthroughs.collect_data_from_game gamefile = Raise e →
       Playthroughs.collect_data playthrough_json_dumps (before ++ gamefile :: after)
         = (outfile, Raise e)).
Proof.
  split.
  - intros seed d outfile Ebefore Egame. unfold CmdGen.collect_data.
    rewrite enumerate_app, collect_games_app, Ebefore, enumerate_cons.
    cbn [CmdGen.collect_games]. by rewrite Nat.add_0_l, Egame.
  - intros outfile Ebefore Egame. unfold Playthroughs.collect_data.
    rewrite enumerate_app, playthrough_collect_games_app, Ebefore, enumerate_cons.
    cbn [Playthroughs.collect_games]. by rewrite Egame.
Qed.

End batches.

(** C8 fails as stated: in a batch of two games of which the first cannot
    be loaded, [collect_data] raises and nothing is written for the second
    game, whose collection on its own succeeds. *)
Lemma failure_isolation_counterexample :
  @CmdGen.collect_data Example.world Example.generic Example.remembering Example.counter
    Example.dumps ["games/missing.z8"; "games/tw.z8"] 0 0
  = ("[" +:+ newline, Raise (EnvError "cannot load game"))
  ∧ ∃ ds,
      @CmdGen.collect_data_from_game Example.world Example.generic Example.remembering
        Example.counter "games/tw.z8" 1 0 = Ok ("games/tw.z8", ds)
      ∧ ds ≠ [].
Proof.
  split; [vm_compute; reflexivity|].
  eexists. split; [vm_compute; reflexivity|]. discriminate.
Qed.

Lemma failure_aborts_batch_witness :
  ∃ outfile,
    @CmdGen.collect_games Example.world Example.generic Example.remembering
      Example.counter Example.dumps (enumerate 0 ["games/tw.z8"]) 0 0 ("[" +:+ newline)
    = (outfile, Ok ())
    ∧ @CmdGen.collect_data Example.world Example.generic Example.remembering
        Example.counter Example.dumps
        (["games/tw.z8"] ++ "games/empty.z8" :: ["games/tw.z8"]) 0 0
      = (outfile, Raise IndexError).
Proof.
  destruct (@failure_aborts_batch Example.world Example.generic Example.remembering
              Example.counter Example.dumps Example.playthrough_dumps
              ["games/tw.z8"] "games/empty.z8" ["games/tw.z8"] IndexError)
    as [Hcmd _].
  eexists. split; [vm_compute; reflexivity|].
  apply Hcmd; vm_compute; reflexivity.
Defined.

(** * Further properties of the collectors *)

(** ** The order of the steps *)

Global Instance step_lt_transitive : Transitive step_lt.
Proof. intros [i1 j1] [i2 j2] [i3 j3]. unfold step_lt. simpl. lia. Qed.

Lemma step_lt_irrefl s : ¬ step_lt s s.
Proof. destruct s. unfold step_lt. simpl. lia. Qed.

Lemma ordered_below_nil bound : ordered_below bound [].
Proof. split; constructor. Qed.

Lemma ordered_below_weaken bound bound' steps :
  bound = bound' ∨ step_lt bound bound' →
  ordered_below bound steps → ordered_below bound' steps.
Proof.
  intros Hb [Hsorted Hbelow]. split; [done|].
  eapply Forall_impl; [done|]. intros s Hs. destruct Hb as [<-|Hb]; [done|by trans bound].
Qed.

Lemma ordered_below_snoc bound bound' s steps :
  bound = s ∨ step_lt bound s →
  step_lt s bound' →
  ordered_below bound steps → ordered_below bound' (steps ++ [s]).
Proof.
  intros Hs Hs' [Hsorted Hbelow]. split.
  - apply StronglySorted_app_2; [|done|repeat constructor].
    intros s1 s2 Hs1 ->%list_elem_of_singleton.
    rewrite Forall_forall in Hbelow. destruct Hs as [<-|Hs]; [by apply Hbelow|].
    trans bound; [by apply Hbelow|done].
  - apply Forall_app. split; [|by apply Forall_singleton].
    eapply Forall_impl; [done|]. intros s1 Hs1.
    destruct Hs as [<-|Hs]; [by trans bound|]. trans bound; [done|by trans s].
Qed.

Lemma StronglySorted_step_lt_NoDup steps : StronglySorted step_lt steps → NoDup steps.
Proof.
  induction 1 as [|s steps _ IH Hs]; constructor; [|done].
  intros Hin. rewrite Forall_forall in Hs. by apply (step_lt_irrefl s), Hs.
Qed.

Section step_order.
Context `{TextWorld, !Generic, !ProcessFacts, Numpy}.

(** What an iteration of the exploratory loop does to the dataset: nothing
    when it leaves the loop, one entry at its step otherwise. *)
Lemma explore_body_dataset gf w i j l f l' f' fl :
  CmdGen.explore_body gf w i j (l, f) = Ok ((l', f'), fl) →
  (fl = Break ∧ CmdGen.dataset l' = CmdGen.dataset l ∧ CmdGen.facts_seen_ f' = CmdGen.facts_seen_ f)
  ∨ (fl = Next
     ∧ ∃ obs cmd_ infos,
         CmdGen.facts_seen_ f' = seen_after (CmdGen.facts_seen_ f) infos cmd_
         ∧ CmdGen.dataset l'
           = CmdGen.dataset l
             ++ [CmdGen.entry gf i j obs cmd_ (CmdGen.facts_seen_ f)
                   (seen_after (CmdGen.facts_seen_ f) infos cmd_)]).
Proof.
  unfold CmdGen.explore_body. intros E.
  destruct (comprehension _ _) as [commands|] eqn:Ec; simplify_eq/=.
  case_decide; simplify_eq/=; [by left|].
  destruct (rng_choice _ _) as [cmd_ rng'].
  destruct (env_step _ _) as [[env_' o]|] eqn:Es; simplify_eq/=.
  destruct (step_done o); simplify_eq/=; [by left|]. right. split; [done|].
  by eexists _, _, _.
Qed.

Lemma explore_ordered gf w i n j l f l' f' :
  ordered_below (i, j) (CmdGen.step <$> CmdGen.dataset l) →
  for_each (CmdGen.explore_body gf w i) (seq j n) (l, f) = Ok (l', f') →
  ordered_below (i, j + n) (CmdGen.step <$> CmdGen.dataset l').
Proof.
  revert j l f. induction n as [|n IH]; intros j l f Hl E.
  - simpl in E. simplify_eq. by rewrite Nat.add_0_r.
  - rewrite <-cons_seq in E.
    apply for_each_cons_Ok in E as ([l1 f1] & fl & E1 & E).
    apply explore_body_dataset in E1 as [(-> & Hd & _)|(-> & o & c & infos & _ & Hd)].
    + simplify_eq. rewrite Hd. eapply ordered_below_weaken; [|done].
      right. right. simpl. lia.
    + replace (j + S n) with (S j + n) by lia. eapply IH; [|done].
      rewrite Hd, fmap_app. simpl.
      eapply ordered_below_snoc; [by left| |done]. right. simpl. lia.
Qed.

Lemma walk_ordered gf w d cmds k l l' :
  ordered_below (k, 0) (CmdGen.step <$> CmdGen.dataset l) →
  for_each (CmdGen.walk_body gf w d) (enumerate k cmds) l = Ok l' →
  ordered_below (k + length cmds, 0) (CmdGen.step <$> CmdGen.dataset l').
Proof.
  revert k l. induction cmds as [|cmd cmds IH]; intros k l Hl E.
  - simpl in E. simplify_eq. simpl. by rewrite Nat.add_0_r.
  - rewrite enumerate_cons in E.
    apply for_each_cons_Ok in E as (l1 & fl & E1 & E).
    apply walk_body_Ok in E1 as (l0 & E0 & E1). simpl in E1.
    apply advance_dataset in E0 as [Hd0 _].
    assert (ordered_below (k, 1)
      (CmdGen.step <$> CmdGen.dataset (CmdGen.record_step gf k cmd (CmdGen.facts_seen l) l0)))
      as Hstep.
    { simpl. rewrite Hd0, fmap_app. simpl.
      eapply ordered_below_snoc; [by left| |done]. right. simpl. lia. }
    destruct (CmdGen.done l0).
    + destruct E1 as [-> ->]. subst l'.
      eapply ordered_below_weaken; [|done]. right. left. simpl. lia.
    + destruct E1 as [-> [f' E1]]. apply explore_ordered in E1; [|done].
      simpl. replace (k + S (length cmds)) with (S k + length cmds) by lia.
      eapply IH; [|done]. eapply ordered_below_weaken; [|done].
      right. left. simpl. lia.
Qed.

Lemma explore_depth gf w i d l f l' f' :
  for_each (CmdGen.explore_body gf w i) (seq 1 d) (l, f) = Ok (l', f') →
  appends CmdGen.dataset (λ r, (CmdGen.step r).2 ≤ d) l l'.
Proof.
  apply (for_each_invariant _
    (λ s, appends CmdGen.dataset (λ r, (CmdGen.step r).2 ≤ d) l s.1)); [|done].
  intros j [l1 f1] [l2 f2] fl Hj%elem_of_seq Hl1 E. etrans; [done|].
  apply explore_body_dataset in E as [(_ & Hd & _)|(_ & o & c & infos & _ & Hd)].
  - exists []. by rewrite app_nil_r.
  - eexists [_]. split; [done|]. apply Forall_singleton. simpl. lia.
Qed.

Lemma walk_depth gf w d steps l l' :
  for_each (CmdGen.walk_body gf w d) steps l = Ok l' →
  appends CmdGen.dataset (λ r, (CmdGen.step r).2 ≤ Z.to_nat d) l l'.
Proof.
  apply (for_each_preorder _ (appends CmdGen.dataset (λ r, (CmdGen.step r).2 ≤ Z.to_nat d))).
  intros [i cmd] l1 l2 fl _ (l0 & E0 & E)%walk_body_Ok. simpl in E.
  apply advance_dataset in E0 as [Hd0 _].
  assert (appends CmdGen.dataset (λ r, (CmdGen.step r).2 ≤ Z.to_nat d) l1
            (CmdGen.record_step gf i cmd (CmdGen.facts_seen l1) l0)) as Hstep.
  { eexists [_]. split; [simpl; by rewrite Hd0|]. apply Forall_singleton. simpl. lia. }
  destruct (CmdGen.done l0).
  - by destruct E as [-> _].
  - destruct E as [_ [f' E]]. etrans; [done|]. by eapply explore_depth.
Qed.

End step_order.

(** ** The views along a branch *)

Lemma chained_snoc P ds e :
  chained P ds →
  (∀ r1, last ds = Some r1 → P e → CmdGen.previous_graph_seen e = CmdGen.graph_seen r1) →
  chained P (ds ++ [e]).
Proof.
  intros Hds He k r1 r2 H1 H2 HP.
  destruct (decide (S k < length ds)) as [Hk|Hk].
  - rewrite lookup_app_l in H1, H2 by lia. by eapply Hds.
  - assert (S k = length ds) as Hlen.
    { apply lookup_lt_Some in H2. rewrite length_app in H2. simpl in H2. lia. }
    rewrite lookup_app_l in H1 by lia.
    rewrite lookup_app_r, Hlen, Nat.sub_diag in H2 by lia. simpl in H2. simplify_eq.
    apply He; [|done]. rewrite last_lookup, <-Hlen. done.
Qed.

Section views.
Context `{TextWorld, !Generic, !ProcessFacts, Numpy}.

Lemma explore_chained gf w i js l f l' f' :
  chained (λ r, 1 ≤ (CmdGen.step r).2) (CmdGen.dataset l) →
  CmdGen.graph_seen <$> last (CmdGen.dataset l)
    = Some (sorted (serialize_facts (CmdGen.facts_seen_ f))) →
  for_each (CmdGen.explore_body gf w i) js (l, f) = Ok (l', f') →
  chained (λ r, 1 ≤ (CmdGen.step r).2) (CmdGen.dataset l').
Proof.
  intros Hl Hf E.
  eapply (for_each_invariant _
    (λ s, chained (λ r, 1 ≤ (CmdGen.step r).2) (CmdGen.dataset s.1)
          ∧ CmdGen.graph_seen <$> last (CmdGen.dataset s.1)
            = Some (sorted (serialize_facts (CmdGen.facts_seen_ s.2))))) in E;
    [by destruct E| |done].
  clear. intros j [l1 f1] [l2 f2] fl _ [Hl1 Hf1] E. simpl in *.
  apply explore_body_dataset in E as [(_ & -> & ->)|(_ & o & c & infos & -> & ->)];
    [done|].
  split.
  - apply chained_snoc; [done|]. intros r1 Hr1 _. rewrite Hr1 in Hf1. by simplify_eq/=.
  - by rewrite last_snoc.
Qed.

Lemma walk_chained gf w d steps l l' :
  let inv l :=
    chained (λ r, 1 ≤ (CmdGen.step r).2) (CmdGen.dataset l)
    ∧ chained (λ _, True) (walkthrough_entries (CmdGen.dataset l))
    ∧ ∀ r, last (walkthrough_entries (CmdGen.dataset l)) = Some r →
           CmdGen.graph_seen r = sorted (serialize_facts (CmdGen.facts_seen l)) in
  inv l → for_each (CmdGen.walk_body gf w d) steps l = Ok l' → inv l'.
Proof.
  intros inv. apply for_each_invariant.
  clear. intros [i cmd] l l' fl _ (Hb & Hw & Hlast) (l0 & E0 & E)%walk_body_Ok.
  simpl in E. apply advance_dataset in E0 as [Hd0 Hs0].
  set (l2 := CmdGen.record_step gf i cmd (CmdGen.facts_seen l) l0) in *.
  assert (CmdGen.dataset l2
          = CmdGen.dataset l ++ [CmdGen.entry gf i 0 (CmdGen.obs l0) cmd (CmdGen.facts_seen l)
                                   (CmdGen.facts_seen l2)]) as Hd2.
  { simpl. by rewrite Hd0. }
  assert (walkthrough_entries (CmdGen.dataset l2)
          = walkthrough_entries (CmdGen.dataset l)
            ++ [CmdGen.entry gf i 0 (CmdGen.obs l0) cmd (CmdGen.facts_seen l)
                  (CmdGen.facts_seen l2)]) as Hw2.
  { rewrite Hd2, walkthrough_entries_app. done. }
  assert (chained (λ r, 1 ≤ (CmdGen.step r).2) (CmdGen.dataset l2)
    ∧ chained (λ _, True) (walkthrough_entries (CmdGen.dataset l2))
    ∧ ∀ r, last (walkthrough_entries (CmdGen.dataset l2)) = Some r →
           CmdGen.graph_seen r = sorted (serialize_facts (CmdGen.facts_seen l2)))
    as (Hb2 & Hw2' & Hlast2).
  { split_and!.
    - rewrite Hd2. apply chained_snoc; [done|]. simpl. lia.
    - rewrite Hw2. apply chained_snoc; [done|]. intros r1 Hr1 _. simpl.
      by rewrite (Hlast r1).
    - rewrite Hw2, last_snoc. by intros r [= <-]. }
  destruct (CmdGen.done l0).
  - by destruct E as [-> _].
  - destruct E as [_ [f' E]].
    destruct (explore_frame _ _ _ _ _ _ _ _ E) as [_ Hseen'].
    pose proof (explore_appends _ _ _ _ _ _ _ _ E) as (entries & Hd' & Hentries).
    split_and!.
    + eapply explore_chained; [done| |done]. by rewrite Hd2, last_snoc.
    + by rewrite Hd', walkthrough_entries_app,
        (walkthrough_entries_explore gf i entries), app_nil_r.
    + rewrite Hd', walkthrough_entries_app,
        (walkthrough_entries_explore gf i entries), app_nil_r, Hseen' by done. done.
Qed.

(** X2. Along every branch the previous seen view of an entry is the seen
    view of the entry before it: an entry of the exploration (depth at
    least 1) follows the entry that precedes it in the dataset, and an
    entry of the walkthrough follows the previous entry of the
    walkthrough. *)
Theorem views_chained gamefile seed branching_depth gf ds :
  CmdGen.collect_data_from_game gamefile seed branching_depth = Ok (gf, ds) →
  (∀ k r1 r2,
     ds !! k = Some r1 → ds !! S k = Some r2 → 1 ≤ (CmdGen.step r2).2 →
     CmdGen.previous_graph_seen r2 = CmdGen.graph_seen r1)
  ∧ (∀ k r1 r2,
       walkthrough_entries ds !! k = Some r1 → walkthrough_entries ds !! S k = Some r2 →
       CmdGen.previous_graph_seen r2 = CmdGen.graph_seen r1).
Proof.
  intros (-> & r & e0 & e & o & infos & w & l & _ & _ & _ & _ & El & ->)%
    collect_data_from_game_Ok.
  eapply walk_chained in El as (Hb & Hw & _).
  - split; [exact Hb|]. intros k r1 r2 Hk1 Hk2. by eapply Hw.
  - split_and!.
    + intros k r1 r2 Hk. simpl in Hk. by rewrite lookup_nil in Hk.
    + intros k r1 r2 Hk. change (@nil CmdGen.DataRecord !! k = Some r1) in Hk.
      by rewrite lookup_nil in Hk.
    + by intros r0 Hr0.
Qed.

End views.

Lemma views_chained_witness :
  ∃ ds,
    @CmdGen.collect_data_from_game Example.world Example.generic Example.forgetful
      Example.counter "games/tw.z8" 1 2 = Ok ("games/tw.z8", ds)
    ∧ ∀ k r1 r2,
        ds !! k = Some r1 → ds !! S k = Some r2 → 1 ≤ (CmdGen.step r2).2 →
        CmdGen.previous_graph_seen r2 = CmdGen.graph_seen r1.
Proof.
  eexists. split; [vm_compute; reflexivity|].
  eapply (@views_chained Example.world Example.generic Example.forgetful
            Example.counter "games/tw.z8" 1 2 "games/tw.z8").
  vm_compute. reflexivity.
Defined.

(** ** The entries of the walkthrough *)

Section walkthrough_entries.
Context `{TextWorld, !Generic, !ProcessFacts, Numpy}.

Lemma walk_numbered gf w d cmds k l l' :
  let numbered k l :=
    CmdGen.step <$> walkthrough_entries (CmdGen.dataset l) = (λ i, (i, 0)) <$> seq 0 k
    ∧ CmdGen.previous_action <$> walkthrough_entries (CmdGen.dataset l)
      = lower <$> take k w in
  drop k w = cmds →
  numbered k l →
  for_each (CmdGen.walk_body gf w d) (enumerate k cmds) l = Ok l' →
  ∃ k', k ≤ k' ≤ length w ∧ (cmds ≠ [] → k < k') ∧ numbered k' l'.
Proof.
  intros numbered. revert k l. induction cmds as [|cmd cmds IH]; intros k l Hw Hl E.
  - simpl in E. simplify_eq. exists k.
    assert (k ≤ length w) as Hk.
    { destruct Hl as [Hsteps Hactions].
      apply (f_equal length) in Hsteps, Hactions.
      rewrite !length_fmap, length_seq in Hsteps.
      rewrite !length_fmap, length_take in Hactions. lia. }
    split_and!; [lia|done|done|done].
  - assert (w !! k = Some cmd) as Hk.
    { rewrite <-(Nat.add_0_r k), <-lookup_drop, Hw. done. }
    assert (drop (S k) w = cmds) as Hw'.
    { replace (S k) with (k + 1) by lia. by rewrite <-drop_drop, Hw. }
    rewrite enumerate_cons in E.
    apply for_each_cons_Ok in E as (l1 & fl & E1 & E).
    apply walk_body_Ok in E1 as (l0 & E0 & E1). simpl in E1.
    apply advance_dataset in E0 as [Hd0 _].
    set (l2 := CmdGen.record_step gf k cmd (CmdGen.facts_seen l) l0) in *.
    assert (numbered (S k) l2) as Hl2.
    { destruct Hl as [Hsteps Hactions]. unfold numbered.
      assert (CmdGen.dataset l2
              = CmdGen.dataset l
                ++ [CmdGen.entry gf k 0 (CmdGen.obs l0) cmd (CmdGen.facts_seen l)
                      (CmdGen.facts_seen l2)]) as -> by (simpl; by rewrite Hd0).
      rewrite walkthrough_entries_app, !fmap_app, Hsteps, Hactions.
      rewrite seq_S, (take_S_r _ _ cmd), !fmap_app by done. done. }
    pose proof (lookup_lt_Some _ _ _ Hk) as Hlt.
    destruct (CmdGen.done l0).
    + destruct E1 as [-> ->]. subst l'. exists (S k). split_and!; [lia..|done].
    + destruct E1 as [-> [f' E1]].
      apply explore_appends in E1 as (entries & Hd1 & Hentries).
      destruct (IH (S k) l1) as (k' & Hk' & _ & Hl'); [done| |done|].
      { unfold numbered.
        by rewrite Hd1, walkthrough_entries_app, (walkthrough_entries_explore gf k entries),
          app_nil_r. }
      exists k'. split_and!; [lia..|done].
Qed.

(** X3. The entries of the walkthrough are numbered (0, 0), (1, 0), ...
    without a gap, and the action of the [i]-th one is the [i]-th command
    of the processed walkthrough, in lower case; there is at least one and
    at most one per command. *)
Theorem walkthrough_entries_numbered gamefile seed branching_depth gf ds :
  CmdGen.collect_data_from_game gamefile seed branching_depth = Ok (gf, ds) →
  ∃ e0 e obs infos w k,
    textworld_start gamefile = Ok e0
    ∧ env_reset e0 = Ok (e, (obs, infos))
    ∧ normalize_walkthrough (infos_walkthrough infos) = Ok w
    ∧ 1 ≤ k ≤ length w
    ∧ CmdGen.step <$> walkthrough_entries ds = (λ i, (i, 0)) <$> seq 0 k
    ∧ CmdGen.previous_action <$> walkthrough_entries ds = lower <$> take k w.
Proof.
  intros (-> & r & e0 & e & o & infos & w & l & _ & E0 & Ee & Ew & El & ->)%
    collect_data_from_game_Ok.
  pose proof Ew as (_ & _ & _ & _ & rest & Hw)%normalize_walkthrough_Ok.
  eapply walk_numbered in El as (k & Hk & Hpos & Hsteps & Hactions); [|done|done].
  exists e0, e, o, infos, w, k. split_and!; [done..| |lia|done|done].
  rewrite Hw in Hpos. assert (0 < k); [by apply Hpos|lia].
Qed.

End walkthrough_entries.

Lemma walkthrough_entries_numbered_witness :
  ∃ ds k,
    @CmdGen.collect_data_from_game Example.world Example.generic Example.remembering
      Example.counter "games/tw.z8" 0 2 = Ok ("games/tw.z8", ds)
    ∧ CmdGen.step <$> walkthrough_entries ds = (λ i, (i, 0)) <$> seq 0 k.
Proof.
  edestruct (@walkthrough_entries_numbered Example.world Example.generic
               Example.remembering Example.counter "games/tw.z8" 0 2 "games/tw.z8")
    as (e0 & e & o & infos & w & k & _ & _ & _ & _ & Hsteps & _);
    [vm_compute; reflexivity|].
  eexists _, k. split; [vm_compute; reflexivity|exact Hsteps].
Defined.

(** ** The commands of the exploration *)

Lemma eligible_Ok w i c b : eligible w i c = Ok b → b = explorable w i c.
Proof.
  unfold eligible, explorable. intros E.
  assert (∀ wanted : bool,
    (if wanted then
       if decide (i + 1 ≠ length w) then
         next ← index w (i + 1); Ok (bool_decide (c ≠ next))
       else Ok false
     else Ok false) = Ok b →
    b = wanted && bool_decide (i + 1 ≠ length w) && bool_decide (w !! (i + 1) ≠ Some c))
    as Hrest.
  { intros [] E'; [|by simplify_eq]. simpl. case_decide as Hlen.
    - unfold index in E'. destruct (w !! (i + 1)) as [next|]; simplify_eq/=.
      rewrite (bool_decide_true (i + 1 ≠ length w)) by done. simpl.
      apply bool_decide_ext. split; [by intros ? [= ->]|by intros Hne ->].
    - simplify_eq.
      by rewrite (bool_decide_false (i + 1 ≠ length w)) by (intros Hne; by apply Hne). }
  destruct (decide (c = "examine cookbook")) as [->|Hc].
  - rewrite bind_Ok in E. by apply (Hrest true) in E.
  - rewrite (bool_decide_false (c = "examine cookbook")) by done. unfold index in E.
    destruct (split c !! 0) as [first|]; simplify_eq/=.
    by apply (Hrest (bool_decide (first ∉ commands_to_ignore))) in E.
Qed.

(** X4. When the comprehension that selects the exploratory commands
    returns, it has kept, in their order, the admissible commands that are
    explorable: none is the next command of the walkthrough, none begins
    with an ignored word unless it is ["examine cookbook"], and at the last
    position of the walkthrough none is kept. *)
Theorem exploratory_commands w i commands chosen :
  comprehension (eligible w i) commands = Ok chosen →
  chosen = filter (λ c, explorable w i c) commands
  ∧ Forall (λ c, w !! (i + 1) ≠ Some c) chosen
  ∧ Forall (λ c, c = "examine cookbook"
                 ∨ ∃ first, split c !! 0 = Some first ∧ first ∉ commands_to_ignore) chosen
  ∧ (i + 1 = length w → chosen = []).
Proof.
  intros E.
  assert (chosen = filter (λ c, explorable w i c) commands) as ->.
  { revert chosen E. induction commands as [|c commands IH]; intros chosen E; simpl in E.
    - by simplify_eq.
    - destruct (eligible w i c) as [b|] eqn:Ec; simplify_eq/=.
      destruct (comprehension _ commands) as [r|]; simplify_eq/=.
      apply eligible_Ok in Ec as ->. rewrite (IH r eq_refl), filter_cons.
      by destruct (explorable w i c). }
  split_and!; [done| | |].
  - apply Forall_forall. intros c [Hc _]%list_elem_of_filter.
    unfold explorable in Hc. apply andb_prop_elim in Hc as [_ Hc].
    by apply bool_decide_unpack in Hc.
  - apply Forall_forall. intros c [Hc _]%list_elem_of_filter.
    unfold explorable in Hc. apply andb_prop_elim in Hc as [Hc _].
    apply andb_prop_elim in Hc as [Hc _]. apply orb_prop_elim in Hc as [Hc|Hc].
    + left. by apply bool_decide_unpack in Hc.
    + right. destruct (split c !! 0) as [first|]; [|done].
      exists first. split; [done|]. by apply bool_decide_unpack in Hc.
  - intros Hlast. clear E. induction commands as [|c commands IH]; [done|].
    rewrite filter_cons, IH. unfold explorable.
    rewrite (bool_decide_false (i + 1 ≠ length w)) by (intros Hne; by apply Hne).
    by rewrite andb_false_r.
Qed.

Lemma exploratory_commands_witness :
  comprehension (eligible ["restart"; "inventory"; "go north"] 1)
    ["look"; "inventory"; "examine cookbook"; "go north"; "wait"]
  = Ok ["examine cookbook"; "wait"]
  ∧ Forall (λ c, ["restart"; "inventory"; "go north"] !! (1 + 1) ≠ Some c)
      ["examine cookbook"; "wait"].
Proof.
  split; [reflexivity|].
  apply (exploratory_commands ["restart"; "inventory"; "go north"] 1
           ["look"; "inventory"; "examine cookbook"; "go north"; "wait"]).
  reflexivity.
Defined.

(** ** Failures of a collection *)

Lemma split_from_blank word c :
  blank c → split_from word c = if decide (word = EmptyString) then [] else [word].
Proof.
  revert word. induction c as [|a c IH]; intros word Hc; simpl; [done|].
  simpl in Hc. apply andb_prop_elim in Hc as [Ha Hc].
  destruct (isspace a); [|done]. rewrite (IH EmptyString Hc). simpl.
  by rewrite app_nil_r.
Qed.

Lemma split_blank c : blank c → split c = [].
Proof. intros Hc. unfold split. by rewrite split_from_blank. Qed.

Lemma eligible_blank w i c : blank c → eligible w i c = Raise IndexError.
Proof.
  intros Hc. unfold eligible.
  destruct (decide (c = "examine cookbook")) as [->|Hne]; [done|].
  unfold index. by rewrite split_blank.
Qed.

Lemma eligible_raises w i c e : eligible w i c = Raise e → e = IndexError.
Proof.
  unfold eligible, index. intros E.
  repeat (case_match || case_decide; simplify_eq/=); done.
Qed.

Lemma comprehension_blank w i c commands :
  c ∈ commands → blank c → comprehension (eligible w i) commands = Raise IndexError.
Proof.
  intros Hin Hc. induction Hin as [c commands|c c' commands _ IH]; simpl.
  - by rewrite eligible_blank.
  - destruct (eligible w i c') as [b|e] eqn:Ec'; simpl.
    + by rewrite IH.
    + by apply eligible_raises in Ec' as ->.
Qed.

Section failures.
Context `{TextWorld, !Generic, !ProcessFacts, Numpy}.

(** X5. A game whose environment reports an empty walkthrough cannot be
    collected: both collectors raise [IndexError] at [walkthrough[0]],
    before any step of the environment. *)
Theorem empty_walkthrough_raises gamefile e0 e obs infos :
  textworld_start gamefile = Ok e0 →
  env_reset e0 = Ok (e, (obs, infos)) →
  infos_walkthrough infos = [] →
  (∀ seed branching_depth,
     (0 ≤ seed < 2 ^ 32)%Z →
     CmdGen.collect_data_from_game gamefile seed branching_depth = Raise IndexError)
  ∧ Playthroughs.collect_data_from_game gamefile = Raise IndexError.
Proof.
  intros E0 Ee Hw. split.
  - intros seed d Hseed. unfold CmdGen.collect_data_from_game, RandomState.
    rewrite bool_decide_true by done.
    rewrite bind_Ok, E0, bind_Ok, Ee, bind_Ok. cbv beta iota. by rewrite Hw.
  - unfold Playthroughs.collect_data_from_game.
    rewrite E0, bind_Ok, Ee, bind_Ok. cbv beta iota. by rewrite Hw.
Qed.

(** X6. An admissible command made of whitespace only has no first word:
    the comprehension that selects the exploratory commands raises
    [IndexError] on it.  So the playthrough collector raises [IndexError]
    on a game that offers such a command at the start, and the
    command-generation collector does when the branching depth is at
    least 1. *)
Theorem blank_command_raises gamefile e0 e obs infos c :
  c ∈ infos_admissible_commands infos →
  blank c →
  (∀ w i, comprehension (eligible w i) (infos_admissible_commands infos) = Raise IndexError)
  ∧ (textworld_start gamefile = Ok e0 →
     env_reset e0 = Ok (e, (obs, infos)) →
     infos_walkthrough infos ≠ [] →
     Playthroughs.collect_data_from_game gamefile = Raise IndexError
     ∧ ∀ seed branching_depth,
         (0 ≤ seed < 2 ^ 32)%Z → (1 ≤ branching_depth)%Z →
         CmdGen.collect_data_from_game gamefile seed branching_depth = Raise IndexError).
Proof.
  intros Hin Hc.
  assert (∀ w i, comprehension (eligible w i) (infos_admissible_commands infos)
                 = Raise IndexError) as Hraise.
  { intros w i. by eapply comprehension_blank. }
  split; [done|]. intros E0 Ee Hw.
  assert (∃ rest, normalize_walkthrough (infos_walkthrough infos) = Ok ("restart" :: rest))
    as [rest Ew].
  { unfold normalize_walkthrough, index.
    destruct (infos_walkthrough infos); [done|]. by eexists. }
  split.
  - unfold Playthroughs.collect_data_from_game.
    rewrite E0, bind_Ok, Ee, bind_Ok. cbv beta iota. rewrite Ew, bind_Ok, enumerate_cons.
    erewrite for_each_raise; [done|].
    unfold Playthroughs.walk_body, Playthroughs.advance. simpl. by rewrite Hraise.
  - intros seed d Hseed Hd. unfold CmdGen.collect_data_from_game, RandomState.
    rewrite bool_decide_true by done.
    rewrite bind_Ok, E0, bind_Ok, Ee, bind_Ok. cbv beta iota.
    rewrite Ew, bind_Ok, enumerate_cons.
    erewrite for_each_raise; [done|].
    unfold CmdGen.walk_body, CmdGen.advance. simpl.
    destruct (Z.to_nat d) as [|n] eqn:Hn; [lia|]. rewrite <-cons_seq.
    erewrite for_each_raise; [done|].
    unfold CmdGen.explore_body. simpl. by rewrite Hraise.
Qed.

End failures.

Lemma empty_walkthrough_raises_witness :
  @Playthroughs.collect_data_from_game Example.world Example.generic Example.remembering
    "games/empty.z8" = Raise IndexError.
Proof.
  eapply (@empty_walkthrough_raises Example.world Example.generic Example.remembering
            Example.counter "games/empty.z8"); reflexivity.
Defined.

Lemma blank_command_raises_witness :
  @Playthroughs.collect_data_from_game Blank.world Blank.generic Blank.keeping "games/room.z8"
  = Raise IndexError
  ∧ @CmdGen.collect_data_from_game Blank.world Blank.generic Blank.keeping Example.counter
      "games/room.z8" 7 1 = Raise IndexError.
Proof.
  destruct (@blank_command_raises Blank.world Blank.generic Blank.keeping Example.counter
              "games/room.z8" () () "A room." Blank.report "  ") as [_ Hraise];
    [by right; left|reflexivity|].
  destruct Hraise as [Hplay Hcmd]; [reflexivity..|done|].
  split; [exact Hplay|]. apply Hcmd; lia.
Defined.

(** ** Collection without exploration *)

Section no_exploration.
Context `{TextWorld, !Generic, !ProcessFacts, Numpy}.

Lemma advance_with_rng i cmd l r :
  CmdGen.advance i cmd (CmdGen.with_rng l r)
  = l' ← CmdGen.advance i cmd l; Ok (CmdGen.with_rng l' r).
Proof.
  unfold CmdGen.advance. case_decide; [|done]. simpl.
  by destruct (env_step _ _) as [[env' o]|].
Qed.

(** Without exploration an iteration of the walkthrough loop does not look
    at the generator. *)
Lemma walk_body_with_rng gf w d ic l r :
  Z.to_nat d = 0 →
  CmdGen.walk_body gf w d ic (CmdGen.with_rng l r)
  = s ← CmdGen.walk_body gf w d ic l; Ok (CmdGen.with_rng s.1 r, s.2).
Proof.
  intros Hd. destruct ic as [i cmd]. unfold CmdGen.walk_body.
  rewrite advance_with_rng, Hd. simpl.
  destruct (CmdGen.advance i cmd l) as [l0|]; [|done]. simpl.
  by destruct (CmdGen.done l0).
Qed.

Lemma walk_with_rng gf w d steps l r :
  Z.to_nat d = 0 →
  for_each (CmdGen.walk_body gf w d) steps (CmdGen.with_rng l r)
  = l' ← for_each (CmdGen.walk_body gf w d) steps l; Ok (CmdGen.with_rng l' r).
Proof.
  intros Hd. revert l. induction steps as [|ic steps IH]; intros l; [done|].
  simpl. rewrite walk_body_with_rng by done.
  destruct (CmdGen.walk_body gf w d ic l) as [[l1 []]|]; simpl; [apply IH|done..].
Qed.

(** X7. With a branching depth of zero or less nothing is explored and the
    seed has no effect: two seeds that numpy accepts give the same result,
    dataset or exception. *)
Theorem no_exploration_ignores_seed gamefile seed1 seed2 branching_depth :
  (branching_depth ≤ 0)%Z →
  (0 ≤ seed1 < 2 ^ 32)%Z →
  (0 ≤ seed2 < 2 ^ 32)%Z →
  CmdGen.collect_data_from_game gamefile seed1 branching_depth
  = CmdGen.collect_data_from_game gamefile seed2 branching_depth.
Proof.
  intros Hd Hseed1 Hseed2. unfold CmdGen.collect_data_from_game, RandomState.
  rewrite !bool_decide_true, !bind_Ok by done.
  destruct (textworld_start gamefile) as [e0|]; [|done]. rewrite !bind_Ok.
  destruct (env_reset e0) as [[e [o infos]]|]; [|done]. rewrite !bind_Ok.
  destruct (normalize_walkthrough _) as [w|]; [|done]. rewrite !bind_Ok.
  change (CmdGen.initially e o infos (rng_init seed2))
    with (CmdGen.with_rng (CmdGen.initially e o infos (rng_init seed1)) (rng_init seed2)).
  rewrite walk_with_rng by lia.
  by destruct (for_each _ _ (CmdGen.initially e o infos (rng_init seed1))).
Qed.

End no_exploration.

Lemma no_exploration_ignores_seed_witness :
  @CmdGen.collect_data_from_game Example.world Example.generic Example.remembering
    Example.counter "games/tw.z8" 3 0
  = @CmdGen.collect_data_from_game Example.world Example.generic Example.remembering
      Example.counter "games/tw.z8" 4 0.
Proof.
  apply (@no_exploration_ignores_seed Example.world Example.generic Example.remembering
           Example.counter "games/tw.z8" 3 4 0); lia.
Defined.

(** ** The output file *)

Lemma append_cons a s t : String a s +:+ t = String a (s +:+ t).
Proof. done. Qed.

Lemma append_nil_l s : EmptyString +:+ s = s.
Proof. done. Qed.

Lemma append_nil_r s : s +:+ EmptyString = s.
Proof. induction s as [|a s IH]; [done|]. by rewrite append_cons, IH. Qed.

Lemma append_assoc s1 s2 s3 : (s1 +:+ s2) +:+ s3 = s1 +:+ s2 +:+ s3.
Proof. induction s1 as [|a s1 IH]; [done|]. by rewrite !append_cons, IH. Qed.

Lemma length_append s1 s2 :
  String.length (s1 +:+ s2) = String.length s1 + String.length s2.
Proof. induction s1 as [|a s1 IH]; [done|]. rewrite append_cons. simpl. by rewrite IH. Qed.

Lemma substring_append s1 s2 : String.substring 0 (String.length s1) (s1 +:+ s2) = s1.
Proof.
  induction s1 as [|a s1 IH].
  - by destruct s2.
  - rewrite append_cons. simpl. by rewrite IH.
Qed.

(** Overwriting the last comma and newline. *)
Lemma overwrite_last2_comma s w : overwrite_last2 (s +:+ "," +:+ newline) w = s +:+ w.
Proof.
  unfold overwrite_last2. rewrite length_append.
  replace (String.length s + String.length ("," +:+ newline) - 2) with (String.length s)
    by (simpl; lia).
  by rewrite substring_append.
Qed.

Lemma join_cons sep s l : l ≠ [] → join sep (s :: l) = s +:+ sep +:+ join sep l.
Proof. by destruct l. Qed.

Lemma join_app sep l1 l2 :
  l1 ≠ [] → l2 ≠ [] → join sep (l1 ++ l2) = join sep l1 +:+ sep +:+ join sep l2.
Proof.
  intros H1 H2. induction l1 as [|s l1 IH]; [done|].
  destruct l1 as [|s' l1].
  - simpl app. by rewrite join_cons.
  - change (join sep ((s :: s' :: l1) ++ l2))
      with (s +:+ sep +:+ join sep ((s' :: l1) ++ l2)).
    change (join sep (s :: s' :: l1)) with (s +:+ sep +:+ join sep (s' :: l1)).
    rewrite IH by done. by rewrite !append_assoc.
Qed.

(** Writing the chunks of several games, each ended by the separator, is
    writing all their entries joined by the separator, and the separator. *)
Lemma chunks_join sep (chunks : list (list string)) outfile :
  chunks ≠ [] →
  Forall (λ chunk, chunk ≠ []) chunks →
  foldl (λ outfile chunk, outfile +:+ join sep chunk +:+ sep) outfile chunks
  = outfile +:+ join sep (concat chunks) +:+ sep.
Proof.
  intros Hne Hchunks. revert outfile.
  induction Hchunks as [|chunk chunks Hchunk Hchunks IH]; intros outfile; [done|].
  simpl. destruct chunks as [|chunk' chunks].
  - simpl. by rewrite app_nil_r.
  - rewrite IH by done. rewrite join_app, !append_assoc; [done..|].
    inv Hchunks. simpl. by destruct chunk'.
Qed.

Section output.
Context `{TextWorld, !Generic, !ProcessFacts, Numpy}.
Context (json_dumps : CmdGen.DataRecord → string).
Context (playthrough_json_dumps : Playthroughs.DataRecord → string).

Lemma collect_data_from_game_nonempty gamefile seed d data :
  CmdGen.collect_data_from_game gamefile seed d = Ok data → data.2 ≠ [].
Proof.
  destruct data as [gf ds].
  intros (-> & r & e0 & e & o & infos & w & l & _ & _ & _ & Ew & El & ->)%
    collect_data_from_game_Ok.
  apply normalize_walkthrough_Ok in Ew as (_ & _ & _ & _ & rest & ->).
  apply walk_start in El as (entries & El & _). simpl. by rewrite El.
Qed.

Lemma playthrough_collect_nonempty gamefile data :
  Playthroughs.collect_data_from_game gamefile = Ok data → data.2 ≠ [].
Proof.
  destruct data as [gf ds].
  intros (-> & e0 & e & o & infos & w & l & _ & _ & Ew & El & ->)%playthrough_collect_Ok.
  apply normalize_walkthrough_Ok in Ew as (_ & _ & _ & _ & rest & ->).
  apply playthrough_walk_start in El as (entries & El & _). simpl. by rewrite El.
Qed.

Lemma collect_games_Ok games seed d outfile
    (datas : list (string * list CmdGen.DataRecord)) :
  Forall2 (λ (ig : nat * string) data,
             CmdGen.collect_data_from_game ig.2 (seed + Z.of_nat ig.1) d = Ok data)
    games datas →
  CmdGen.collect_games json_dumps games seed d outfile
  = (foldl (λ outfile chunk, outfile +:+ join ("," +:+ newline) chunk +:+ "," +:+ newline)
       outfile ((λ data : string * list CmdGen.DataRecord, json_dumps <$> data.2) <$> datas), Ok ()).
Proof.
  intros Hgames. revert outfile.
  induction Hgames as [|[i gamefile] data games datas Hgame _ IH]; intros outfile; [done|].
  simpl in *. rewrite Hgame. apply IH.
Qed.

Lemma playthrough_collect_games_Ok games outfile
    (datas : list (string * list Playthroughs.DataRecord)) :
  Forall2 (λ (ig : nat * string) data,
             Playthroughs.collect_data_from_game ig.2 = Ok data) games datas →
  Playthroughs.collect_games playthrough_json_dumps games outfile
  = (foldl (λ outfile chunk, outfile +:+ join ("," +:+ newline) chunk +:+ "," +:+ newline)
       outfile ((λ data : string * list Playthroughs.DataRecord, playthrough_json_dumps <$> data.2)
          <$> datas), Ok ()).
Proof.
  intros Hgames. revert outfile.
  induction Hgames as [|[i gamefile] data games datas Hgame _ IH]; intros outfile; [done|].
  simpl in *. rewrite Hgame. apply IH.
Qed.

(** X8. When every game of a batch that is not empty is collected,
    [collect_data] returns with an output file that holds, between an
    opening and a closing bracket, the written forms of all entries of all
    games in the order of the batch, separated by a comma and a newline,
    with no comma after the last one.  This holds for both collectors, run
    with one process.  For the empty batch the file holds a newline and the
    closing bracket only. *)
Theorem output_file gamefiles :
  (∀ seed branching_depth (datas : list (string * list CmdGen.DataRecord)),
     gamefiles ≠ [] →
     Forall2 (λ (ig : nat * string) data,
                CmdGen.collect_data_from_game ig.2 (seed + Z.of_nat ig.1) branching_depth
                = Ok data)
       (enumerate 0 gamefiles) datas →
     CmdGen.collect_data json_dumps gamefiles seed branching_depth
     = ("[" +:+ newline
        +:+ join ("," +:+ newline) (json_dumps <$> concat (snd <$> datas))
        +:+ newline +:+ "]", Ok ()))
  ∧ (∀ datas : list (string * list Playthroughs.DataRecord),
       gamefiles ≠ [] →
       Forall2 (λ (ig : nat * string) data,
                  Playthroughs.collect_data_from_game ig.2 = Ok data)
         (enumerate 0 gamefiles) datas →
       Playthroughs.collect_data playthrough_json_dumps gamefiles
       = ("[" +:+ newline
          +:+ join ("," +:+ newline) (playthrough_json_dumps <$> concat (snd <$> datas))
          +:+ newline +:+ "]", Ok ()))
  ∧ (∀ seed branching_depth,
       CmdGen.collect_data json_dumps [] seed branching_depth = (newline +:+ "]", Ok ()))
  ∧ Playthroughs.collect_data playthrough_json_dumps [] = (newline +:+ "]", Ok ()).
Proof.
  assert (∀ (A B : Type) (f : B → string) (datas : list (A * list B)),
    concat ((λ data : A * list B, f <$> data.2) <$> datas) = f <$> concat (snd <$> datas))
    as Hconcat.
  { intros A B f datas. induction datas as [|data datas IH]; [done|].
    by rewrite !fmap_cons, !concat_cons, fmap_app, IH. }
  split_and!; [| |done..].
  - intros seed d datas Hne Hgames. unfold CmdGen.collect_data.
    rewrite (collect_games_Ok _ _ _ _ datas Hgames).
    assert (datas ≠ []) as Hdatas.
    { intros ->. apply Forall2_nil_inv_r in Hgames. by destruct gamefiles. }
    rewrite (chunks_join ("," +:+ newline)).
    + rewrite Hconcat, <-(append_assoc _ _ ("," +:+ newline)), overwrite_last2_comma.
      by rewrite !append_assoc.
    + by destruct datas.
    + apply Forall_fmap, Forall_forall. intros data Hdata. simpl.
      apply list_elem_of_lookup in Hdata as [k Hk].
      destruct (Forall2_lookup_r _ _ _ _ _ Hgames Hk) as (ig & _ & Hig).
      apply collect_data_from_game_nonempty in Hig. by destruct (data.2).
  - intros datas Hne Hgames. unfold Playthroughs.collect_data.
    rewrite (playthrough_collect_games_Ok _ _ datas Hgames).
    assert (datas ≠ []) as Hdatas.
    { intros ->. apply Forall2_nil_inv_r in Hgames. by destruct gamefiles. }
    rewrite (chunks_join ("," +:+ newline)).
    + rewrite Hconcat, <-(append_assoc _ _ ("," +:+ newline)), overwrite_last2_comma.
      by rewrite !append_assoc.
    + by destruct datas.
    + apply Forall_fmap, Forall_forall. intros data Hdata. simpl.
      apply list_elem_of_lookup in Hdata as [k Hk].
      destruct (Forall2_lookup_r _ _ _ _ _ Hgames Hk) as (ig & _ & Hig).
      apply playthrough_collect_nonempty in Hig. by destruct (data.2).
Qed.

End output.

Lemma output_file_witness :
  ∃ datas : list (string * list CmdGen.DataRecord),
    @CmdGen.collect_data Example.world Example.generic Example.remembering Example.counter
      Example.dumps ["games/tw.z8"; "games/tw.z8"] 0 0
    = ("[" +:+ newline
       +:+ join ("," +:+ newline) (Example.dumps <$> concat (snd <$> datas))
       +:+ newline +:+ "]", Ok ()).
Proof.
  destruct (@output_file Example.world Example.generic Example.remembering Example.counter
              Example.dumps Example.playthrough_dumps ["games/tw.z8"; "games/tw.z8"])
    as [Hcmd _].
  assert (∃ data0 data1,
    @CmdGen.collect_data_from_game Example.world Example.generic Example.remembering
      Example.counter "games/tw.z8" (0 + Z.of_nat 0) 0 = Ok data0
    ∧ @CmdGen.collect_data_from_game Example.world Example.generic Example.remembering
        Example.counter "games/tw.z8" (0 + Z.of_nat 1) 0 = Ok data1)
    as (data0 & data1 & E0 & E1).
  { eexists _, _. split; vm_compute; reflexivity. }
  exists [data0; data1]. apply Hcmd; [done|].
  apply Forall2_cons; split; [exact E0|]. apply Forall2_cons; split; [exact E1|].
  apply Forall2_nil_2.
Defined.

(** ** Paths *)

Lemma endswith_spec s suffix : endswith s suffix = true ↔ ∃ p, s = p +:+ suffix.
Proof.
  induction s as [|a s IH]; simpl.
  - rewrite orb_false_r, bool_decide_eq_true. split.
    + intros <-. by exists EmptyString.
    + intros [[|b p] E]; [done|]. by rewrite append_cons in E.
  - rewrite orb_true_iff, bool_decide_eq_true, IH. split.
    + intros [<-|[p ->]]; [by exists EmptyString|]. by exists (String a p).
    + intros [[|b p] E]; [by left|]. rewrite append_cons in E.
      injection E as -> ->. right. by exists p.
Qed.

Lemma endswith_append p s suffix : endswith s suffix = true → endswith (p +:+ s) suffix = true.
Proof.
  rewrite !endswith_spec. intros [q ->]. exists (p +:+ q). by rewrite append_assoc.
Qed.

Lemma endswith_pjoin a b suffix : endswith b suffix = true → endswith (pjoin a b) suffix = true.
Proof.
  intros H. unfold pjoin. repeat case_match; [done|by apply endswith_append|].
  by do 2 apply endswith_append.
Qed.

Lemma append_last_inj p q a b :
  p +:+ String a EmptyString = q +:+ String b EmptyString → a = b.
Proof.
  revert q. induction p as [|c p IH]; intros [|d q] E; rewrite ?append_cons, ?append_nil_l in E.
  - by injection E.
  - injection E as _ E. by destruct q.
  - injection E as _ E. by destruct p.
  - injection E as _ E. eauto.
Qed.

(** No name ends with both [.z8] and [.json]. *)
Lemma endswith_z8_json s : endswith s ".z8" = true → endswith s ".json" = false.
Proof.
  intros H1. apply not_true_is_false. intros H2.
  apply endswith_spec in H1 as [p ->]. apply endswith_spec in H2 as [q E].
  change ".z8" with (".z" +:+ "8") in E. change ".json" with (".jso" +:+ "n") in E.
  rewrite <-!append_assoc in E. by apply append_last_inj in E.
Qed.

Lemma basename_from_no_slash tail s :
  no_slash s = true → basename_from tail s = tail +:+ s.
Proof.
  revert tail. induction s as [|a s IH]; intros tail H; simpl in *.
  - by rewrite append_nil_r.
  - apply andb_true_iff in H as [Ha Hs]. apply bool_decide_eq_true in Ha.
    rewrite decide_False by done. rewrite IH by done. by rewrite append_assoc.
Qed.

Lemma basename_from_append tail p s :
  no_slash s = true → basename_from tail (p +:+ s) = basename_from tail p +:+ s.
Proof.
  intros Hs. revert tail. induction p as [|a p IH]; intros tail.
  - rewrite append_nil_l. by apply basename_from_no_slash.
  - rewrite append_cons. simpl. case_decide; apply IH.
Qed.

Lemma basename_append p s : no_slash s = true → basename (p +:+ s) = basename p +:+ s.
Proof. apply basename_from_append. Qed.

Lemma no_slash_append s t : no_slash (s +:+ t) = no_slash s && no_slash t.
Proof.
  induction s as [|a s IH]; [done|]. rewrite append_cons. simpl. by rewrite IH, andb_assoc.
Qed.

Lemma no_slash_basename_from tail p :
  no_slash tail = true → no_slash (basename_from tail p) = true.
Proof.
  revert tail. induction p as [|a p IH]; intros tail H; simpl; [done|].
  case_decide as Ha; apply IH; [done|].
  rewrite no_slash_append, H. simpl. by rewrite bool_decide_true.
Qed.

Lemma no_slash_basename p : no_slash (basename p) = true.
Proof. by apply no_slash_basename_from. Qed.

Lemma basename_no_slash s : no_slash s = true → basename s = s.
Proof. apply basename_from_no_slash. Qed.

Lemma basename_from_slash tail p s :
  basename_from tail (p +:+ String "/" s) = basename s.
Proof.
  revert tail. induction p as [|a p IH]; intros tail.
  - done.
  - rewrite append_cons. simpl. case_decide; apply IH.
Qed.

(** The base name of a path that ends with a slash is empty, and only
    of such a path or of the empty one. *)
Lemma basename_empty p :
  basename p = EmptyString ↔ p = EmptyString ∨ endswith p "/" = true.
Proof.
  split.
  - unfold basename. assert (∀ tail, basename_from tail p = EmptyString →
      (tail = EmptyString ∧ p = EmptyString) ∨ endswith p "/" = true) as H.
    { induction p as [|a p IH]; intros tail E; simpl in E; [by left|]. right.
      case_decide as Ha.
      - subst a. destruct (IH _ E) as [[_ ->]|H]; [done|].
        by apply (endswith_append (String "/" EmptyString)) in H.
      - destruct (IH _ E) as [[E' _]|H]; [by destruct tail|].
        by apply (endswith_append (String a EmptyString)) in H. }
    intros E. destruct (H _ E) as [[_ ->]|?]; auto.
  - intros [->|H]; [done|]. apply endswith_spec in H as [q ->].
    apply basename_from_slash.
Qed.

Lemma strip_prefix_slash s : is_Some (strip_prefix "/" s) → no_slash s = false.
Proof.
  destruct s as [|a s]; simpl; [by intros [? ?]|].
  case_decide as Ha; [|by intros [? ?]]. subst a. done.
Qed.

(** [os.path.join] puts a name without a slash in the directory. *)
Lemma basename_pjoin a b : no_slash b = true → basename (pjoin a b) = b.
Proof.
  intros Hb. unfold pjoin. case_bool_decide as Hs.
  { apply strip_prefix_slash in Hs. congruence. }
  destruct (bool_decide (a = EmptyString) || endswith a "/") eqn:E.
  - rewrite basename_append by done.
    replace (basename a) with EmptyString; [done|]. symmetry. apply basename_empty.
    apply orb_true_iff in E as [E|E]; [left; by apply bool_decide_eq_true in E|by right].
  - unfold basename. change ("/" +:+ b) with (String "/" b).
    rewrite basename_from_slash. by apply basename_no_slash.
Qed.

Lemma endswith_basename p suffix :
  no_slash suffix = true → endswith p suffix = true → endswith (basename p) suffix = true.
Proof.
  intros Hs H. apply endswith_spec in H as [q ->]. rewrite basename_append by done.
  apply endswith_spec. eauto.
Qed.

(** ** Extraction of the games *)

Lemma subdirs_get dst key :
  (key ∈ splits ∧ dict_get (CmdGenFiles.subdirs dst) key = Returns (pjoin dst key))
  ∨ ((key ∉ splits) ∧ dict_get (CmdGenFiles.subdirs dst) key = Raises (KeyError key)).
Proof.
  unfold CmdGenFiles.subdirs, splits. simpl.
  repeat case_decide; subst;
    try (left; split; [repeat (constructor; try done)|done]).
  right. split; [|done]. rewrite !elem_of_cons, elem_of_nil. intros [?|[?|[?|[]]]]; congruence.
Qed.

Lemma extracted_to_get dst filename out_file :
  extracted_to dst filename out_file ↔
  ∃ subdir, dict_get (CmdGenFiles.subdirs dst) (basename (dirname filename)) = Returns subdir
    ∧ out_file = pjoin subdir (basename filename).
Proof.
  unfold extracted_to. destruct (subdirs_get dst (basename (dirname filename))) as [[H E]|[H E]];
    rewrite E.
  - split.
    + intros (split & _ & <- & ->). eauto.
    + intros (subdir & [= <-] & ->). eauto.
  - split.
    + intros (split & Hs & <- & _). done.
    + by intros (subdir & [=] & _).
Qed.

Lemma extracted_to_inj dst filename out1 out2 :
  extracted_to dst filename out1 → extracted_to dst filename out2 → out1 = out2.
Proof. intros (s1 & _ & <- & ->) (s2 & _ & <- & ->). done. Qed.

Lemma zip_read_namelist zipped_file name :
  name ∈ namelist zipped_file → is_Some (zip_read zipped_file name).
Proof.
  unfold namelist. induction zipped_file as [|[n data] z IH]; simpl.
  - by intros ?%elem_of_nil.
  - intros [E|H]%elem_of_cons.
    + simpl in E. subst n. destruct (zip_read z name); [done|]. by rewrite decide_True.
    + destruct (IH H) as [d ->]. done.
Qed.

Lemma make_subdirs_spec {os : OS} ds fs fs' o :
  CmdGenFiles.make_subdirs ds fs = (fs', o) →
  files fs' = files fs
  ∧ dirs fs ⊆ dirs fs'
  ∧ match o with
    | Returns _ => ∀ d, d ∈ ds → d ∈ dirs fs'
    | Raises e =>
        ∃ d fs0, d ∈ ds ∧ files fs0 = files fs ∧ dirs fs ⊆ dirs fs0 ∧ (d ∉ dirs fs0)
          ∧ (os_makedirs fs0 d).2 = Some e
    end.
Proof.
  revert fs. induction ds as [|d ds IH]; intros fs E; simpl in E.
  - injection E as <- <-. split; [done|]. split; [done|]. by intros d ?%elem_of_nil.
  - destruct (isdir fs d) eqn:Hd.
    + apply bool_decide_eq_true in Hd.
      destruct (IH _ E) as (Hf & Hsub & Ho). split; [done|]. split; [done|].
      destruct o as [[]|e].
      * intros d' [->|H']%elem_of_cons; [by apply Hsub|by apply Ho].
      * destruct Ho as (d' & fs0 & H' & Ho). exists d', fs0. split; [|done].
        by apply list_elem_of_further.
    + apply bool_decide_eq_false in Hd. unfold makedirs in E.
      destruct (os_makedirs fs d) as [made [e'|]] eqn:Eos.
      * injection E as <- <-. simpl. split; [done|].
        split; [intros x Hx; apply elem_of_union; by left|].
        exists d, fs. rewrite Eos. split; [apply list_elem_of_here|done].
      * destruct (IH _ E) as (Hf & Hsub & Ho). simpl in *.
        assert (dirs fs ⊆ dirs fs ∪ made ∪ {[d]}) as Hgrow.
        { intros x Hx. apply elem_of_union. left. apply elem_of_union. by left. }
        split; [done|]. split; [by trans (dirs fs ∪ made ∪ {[d]})|].
        destruct o as [[]|e].
        -- intros d' [->|H']%elem_of_cons; [|by apply Ho].
           apply Hsub, elem_of_union. right. by apply elem_of_singleton.
        -- destruct Ho as (d' & fs0 & H' & Hfiles & Hdirs & Ho). exists d', fs0.
           split; [by apply list_elem_of_further|]. split; [done|].
           split; [by trans (dirs fs ∪ made ∪ {[d]})|done].
Qed.

Lemma extract_loop_spec zipped_file dst filenames fs extracted_files fs' o :
  CmdGenFiles.extract_loop zipped_file (CmdGenFiles.subdirs dst) filenames fs extracted_files
    = (fs', o) →
  (∀ f, f ∈ filenames → is_Some (zip_read zipped_file f)) →
  dirs fs' = dirs fs
  ∧ (∀ p d, files fs !! p = Some d → files fs' !! p = Some d)
  ∧ (∀ p d, files fs !! p = None → files fs' !! p = Some d →
       ∃ before f after, filenames = before ++ f :: after
         ∧ Forall (λ f', ¬ extracted_to dst f' p) before
         ∧ extracted_to dst f p ∧ zip_read zipped_file f = Some d)
  ∧ match o with
    | Returns extracted =>
        ∃ outs, extracted = extracted_files ++ outs
          ∧ Forall2 (extracted_to dst) filenames outs
          ∧ Forall (λ out, is_Some (files fs' !! out)) outs
    | Raises e =>
        (∃ f, f ∈ filenames ∧ (basename (dirname f) ∉ splits)
           ∧ e = KeyError (basename (dirname f)))
        ∨ (∃ f out, f ∈ filenames ∧ extracted_to dst f out ∧ out ∈ dirs fs
             ∧ files fs !! out = None ∧ e = IsADirectoryError out)
    end.
Proof.
  revert fs extracted_files. induction filenames as [|f filenames IH];
    intros fs acc H Hread; cbn [CmdGenFiles.extract_loop] in H.
  { injection H as <- <-. split; [done|]. split; [done|]. split; [congruence|].
    exists []. by rewrite app_nil_r. }
  assert (∀ f', f' ∈ filenames → is_Some (zip_read zipped_file f')) as Hread'.
  { intros f' H'. by apply Hread, list_elem_of_further. }
  destruct (subdirs_get dst (basename (dirname f))) as [[Hsplit E]|[Hsplit E]];
    rewrite E in H; cycle 1.
  { injection H as <- <-. split; [done|]. split; [done|]. split; [congruence|].
    left. exists f. split; [apply list_elem_of_here|done]. }
  set (out := pjoin (pjoin dst (basename (dirname f))) (basename f)) in *.
  assert (extracted_to dst f out) as Hout by (by exists (basename (dirname f))).
  destruct (isfile fs out) eqn:Hfile.
  - apply bool_decide_eq_true in Hfile.
    destruct (IH _ _ H Hread') as (Hd & Hkeep & Hnew & Ho).
    split; [done|]. split; [done|]. split.
    + intros p d Hn Hs. destruct (Hnew p d Hn Hs) as (before & f' & after & -> & Hb & Hx & Hz).
      exists (f :: before), f', after. split; [done|]. split; [|done].
      constructor; [|done]. intros Hp. rewrite (extracted_to_inj _ _ _ _ Hp Hout) in Hn.
      rewrite Hn in Hfile. by destruct Hfile.
    + destruct o as [extracted|e].
      * destruct Ho as (outs & -> & Hall & Hex). exists (out :: outs).
        split; [by rewrite <-app_assoc|]. split; [by constructor|].
        constructor; [|done]. destruct Hfile as [d Hfile]. by rewrite (Hkeep _ _ Hfile).
      * destruct Ho as [(f' & H' & Ho)|(f' & out' & H' & Ho)]; [left|right].
        -- exists f'. split; [by apply list_elem_of_further|done].
        -- exists f', out'. split; [by apply list_elem_of_further|done].
  - apply bool_decide_eq_false in Hfile.
    assert (files fs !! out = None) as Hnone.
    { destruct (files fs !! out) eqn:E'; [|done]. destruct Hfile. eauto. }
    destruct (Hread f) as [data Hdata]; [apply list_elem_of_here|]. rewrite Hdata in H.
    unfold write_file in H. destruct (isdir fs out) eqn:Hdir.
    { injection H as <- <-. apply bool_decide_eq_true in Hdir.
      split; [done|]. split; [done|]. split; [congruence|].
      right. exists f, out. split; [apply list_elem_of_here|done]. }
    destruct (IH _ _ H Hread') as (Hd & Hkeep & Hnew & Ho). simpl in *.
    assert (∀ p, <[out:=data]> (files fs) !! p = None → files fs !! p = None) as Hback.
    { intros p. destruct (decide (p = out)) as [->|Hne]; [by rewrite lookup_insert_eq|].
      by rewrite lookup_insert_ne. }
    split; [done|]. split.
    { intros p d Hp. apply Hkeep. rewrite lookup_insert_ne; [done|]. congruence. }
    split.
    + intros p d Hn Hs. destruct (decide (p = out)) as [->|Hne].
      * exists [], f, filenames. split; [done|]. split; [done|]. split; [done|].
        rewrite (Hkeep out data) in Hs by apply lookup_insert_eq. congruence.
      * destruct (Hnew p d) as (before & f' & after & -> & Hb & Hx & Hz);
          [by rewrite lookup_insert_ne|done|].
        exists (f :: before), f', after. split; [done|]. split; [|done].
        constructor; [|done]. intros Hp. by rewrite (extracted_to_inj _ _ _ _ Hp Hout) in Hne.
    + destruct o as [extracted|e].
      * destruct Ho as (outs & -> & Hall & Hex). exists (out :: outs).
        split; [by rewrite <-app_assoc|]. split; [by constructor|].
        constructor; [|done]. rewrite (Hkeep out data); [done|apply lookup_insert_eq].
      * destruct Ho as [(f' & H' & Ho)|(f' & out' & H' & Hx & Hin & Hn & ->)]; [left|right].
        -- exists f'. split; [by apply list_elem_of_further|done].
        -- exists f', out'. split; [by apply list_elem_of_further|]. auto.
Qed.

Lemma filenames_to_extract_suffix zipped_file f :
  f ∈ CmdGenFiles.filenames_to_extract zipped_file →
  f ∈ namelist zipped_file ∧ (endswith f ".z8" = true ∨ endswith f ".json" = true).
Proof.
  unfold CmdGenFiles.filenames_to_extract. rewrite list_elem_of_filter.
  intros [H ?]. split; [done|]. by apply orb_true_iff, Is_true_true.
Qed.

Lemma extract_games_unfold {os : OS} zipped_file dst fs fs' o :
  CmdGenFiles.extract_games zipped_file dst fs = (fs', o) →
  ∃ fs1 o1, CmdGenFiles.make_subdirs (CmdGenFiles.subdirs dst).*2 fs = (fs1, o1)
    ∧ match o1 with
      | Raises e => fs' = fs1 ∧ o = Raises e
      | Returns _ =>
          CmdGenFiles.extract_loop zipped_file (CmdGenFiles.subdirs dst)
            (CmdGenFiles.filenames_to_extract zipped_file) fs1 [] = (fs', o)
      end.
Proof.
  unfold CmdGenFiles.extract_games.
  destruct (CmdGenFiles.make_subdirs _ fs) as [fs1 [[]|e]]; intros H; eexists _, _;
    (split; [done|]); [done|]. by injection H as <- <-.
Qed.

Lemma elem_of_subdirs dst d :
  d ∈ (CmdGenFiles.subdirs dst).*2 ↔ ∃ split, split ∈ splits ∧ d = pjoin dst split.
Proof.
  unfold CmdGenFiles.subdirs, splits. simpl. rewrite !elem_of_cons, !elem_of_nil. split.
  - intros [->|[->|[->|[]]]]; eexists; (split; [|done]); rewrite !elem_of_cons; auto.
  - intros (split & Hs & ->). rewrite !elem_of_cons, elem_of_nil in Hs.
    destruct Hs as [->|[->|[->|[]]]]; auto.
Qed.


Section extract_games.
Context `{OS}.
Context (zipped_file : ZipFile) (dst : string) (fs fs' : FileSystem).

(** X9. When [extract_games] returns, it returns one path for each member
    of the archive whose name ends with [.z8] or [.json], in the order of
    the archive: the file of the member's base name in the [train], [valid]
    or [test] directory under [dst], after the directory that holds the
    member.  Each of these paths is then a file and the three directories
    exist. *)
Theorem extract_games_paths extracted_files :
  CmdGenFiles.extract_games zipped_file dst fs = (fs', Returns extracted_files) →
  Forall2 (extracted_to dst) (CmdGenFiles.filenames_to_extract zipped_file) extracted_files
  ∧ Forall (λ out_file, is_Some (files fs' !! out_file)) extracted_files
  ∧ Forall (λ split, pjoin dst split ∈ dirs fs') splits.
Proof.
  intros (fs1 & o1 & Hmk & E)%extract_games_unfold.
  destruct (make_subdirs_spec _ _ _ _ Hmk) as (Hfiles & Hsub & Ho1).
  destruct o1 as [[]|e1]; [|by destruct E].
  apply extract_loop_spec in E as (Hdirs & _ & _ & outs & -> & Hall & Hex);
    [|intros f [Hf _]%filenames_to_extract_suffix; by apply zip_read_namelist].
  split; [done|]. split; [done|]. apply Forall_forall. intros split Hs.
  rewrite Hdirs. apply Ho1, elem_of_subdirs. eauto.
Qed.

(** X10. The game files that [main] passes on after an extraction are the
    extracted paths of the members whose name ends with [.z8], in the
    order of the archive, and each has the base name of its member. *)
Theorem extracted_gamefiles_members extracted_files :
  CmdGenFiles.extract_games zipped_file dst fs = (fs', Returns extracted_files) →
  Forall2 (λ f gamefile, extracted_to dst f gamefile ∧ basename gamefile = basename f)
    (filter (λ f, endswith f ".z8") (namelist zipped_file))
    (CmdGenFiles.extracted_gamefiles extracted_files).
Proof.
  intros (fs1 & o1 & Hmk & E)%extract_games_unfold.
  destruct o1 as [[]|e1]; [|by destruct E].
  apply extract_loop_spec in E as (_ & _ & _ & outs & -> & Hall & _);
    [|intros f [Hf _]%filenames_to_extract_suffix; by apply zip_read_namelist].
  rewrite app_nil_l. unfold CmdGenFiles.extracted_gamefiles.
  set (selected := CmdGenFiles.filenames_to_extract zipped_file) in *.
  assert (Forall (λ f, endswith f ".z8" = true ∨ endswith f ".json" = true) selected) as Hsel.
  { apply Forall_forall. intros f Hf. by apply filenames_to_extract_suffix in Hf as [_ ?]. }
  replace (filter (λ f, endswith f ".z8") (namelist zipped_file))
    with (filter (λ f, endswith f ".z8") selected).
  2:{ unfold selected, CmdGenFiles.filenames_to_extract. clear.
      induction (namelist zipped_file) as [|f l IH]; [done|].
      rewrite (filter_cons (λ f, endswith f ".z8" || endswith f ".json") f l).
      rewrite (filter_cons (λ f, endswith f ".z8") f l).
      destruct (endswith f ".z8") eqn:Ez; simpl.
      - rewrite filter_cons, Ez. simpl. by rewrite IH.
      - destruct (endswith f ".json"); simpl; [|done]. rewrite filter_cons, Ez. done. }
  induction Hall as [|f out fns outs Hx Hall IH]; [constructor|].
  apply Forall_cons in Hsel as [Hf Hsel]. specialize (IH Hsel).
  rewrite (filter_cons _ f), (filter_cons _ out).
  assert (basename out = basename f) as Hb.
  { destruct Hx as (s & _ & _ & ->). apply basename_pjoin, no_slash_basename. }
  assert (endswith out ".z8" = endswith f ".z8") as ->.
  { destruct Hx as (s & _ & _ & ->). destruct (endswith f ".z8") eqn:Ez.
    - by apply endswith_pjoin, endswith_basename.
    - destruct Hf as [|Hf]; [done|].
      apply not_true_is_false. intros Hz%endswith_z8_json.
      rewrite endswith_pjoin in Hz; [done|]. by apply endswith_basename. }
  destruct (decide (endswith f ".z8")); [|done]. by constructor.
Qed.

(** X11. Whatever its outcome, [extract_games] overwrites no file and
    removes neither a file nor a directory.  A file that it adds holds the
    data that the archive gives for the first selected member extracted to
    this path: the members that come later for the same path are skipped. *)
Theorem extract_games_keeps_files o :
  CmdGenFiles.extract_games zipped_file dst fs = (fs', o) →
  (∀ path data, files fs !! path = Some data → files fs' !! path = Some data)
  ∧ dirs fs ⊆ dirs fs'
  ∧ (∀ path data, files fs !! path = None → files fs' !! path = Some data →
       ∃ before f after,
         CmdGenFiles.filenames_to_extract zipped_file = before ++ f :: after
         ∧ Forall (λ f', ¬ extracted_to dst f' path) before
         ∧ extracted_to dst f path ∧ zip_read zipped_file f = Some data).
Proof.
  intros (fs1 & o1 & Hmk & E)%extract_games_unfold.
  destruct (make_subdirs_spec _ _ _ _ Hmk) as (Hfiles & Hsub & Ho1).
  destruct o1 as [[]|e1].
  - apply extract_loop_spec in E as (Hdirs & Hkeep & Hadd & _);
      [|intros f [Hf _]%filenames_to_extract_suffix; by apply zip_read_namelist].
    rewrite Hfiles in Hkeep, Hadd. rewrite Hdirs. done.
  - destruct E as [-> _]. rewrite Hfiles. repeat split; try done. congruence.
Qed.



End extract_games.

Lemma extract_games_paths_witness :
  ∃ fs' extracted_files,
    CmdGenFiles.extract_games Archive.zipped_file "games" Archive.disk
      = (fs', Returns extracted_files)
    ∧ Forall2 (extracted_to "games") (CmdGenFiles.filenames_to_extract Archive.zipped_file)
        extracted_files
    ∧ Forall (λ out_file, is_Some (files fs' !! out_file)) extracted_files
    ∧ Forall (λ split, pjoin "games" split ∈ dirs fs') splits.
Proof.
  eexists _, _. split; [vm_compute; reflexivity|].
  apply (extract_games_paths Archive.zipped_file "games" Archive.disk).
  vm_compute. reflexivity.
Defined.

Lemma extracted_gamefiles_members_witness :
  ∃ fs' extracted_files,
    CmdGenFiles.extract_games Archive.zipped_file "games" Archive.disk
      = (fs', Returns extracted_files)
    ∧ Forall2 (λ f gamefile, extracted_to "games" f gamefile ∧ basename gamefile = basename f)
        (filter (λ f, endswith f ".z8") (namelist Archive.zipped_file))
        (CmdGenFiles.extracted_gamefiles extracted_files).
Proof.
  eexists _, _. split; [vm_compute; reflexivity|].
  eapply (extracted_gamefiles_members Archive.zipped_file "games" Archive.disk).
  vm_compute. reflexivity.
Defined.

Lemma extract_games_keeps_files_witness :
  ∃ fs' o,
    CmdGenFiles.extract_games Archive.stray "games" Archive.disk = (fs', o)
    ∧ (∀ path data, files Archive.disk !! path = Some data → files fs' !! path = Some data)
    ∧ dirs Archive.disk ⊆ dirs fs'
    ∧ (∀ path data, files Archive.disk !! path = None → files fs' !! path = Some data →
         ∃ before f after,
           CmdGenFiles.filenames_to_extract Archive.stray = before ++ f :: after
           ∧ Forall (λ f', ¬ extracted_to "games" f' path) before
           ∧ extracted_to "games" f path ∧ zip_read Archive.stray f = Some data).
Proof.
  exists (CmdGenFiles.extract_games Archive.stray "games" Archive.disk).1,
    (CmdGenFiles.extract_games Archive.stray "games" Archive.disk).2.
  split; [vm_compute; reflexivity|].
  apply (extract_games_keeps_files Archive.stray "games" Archive.disk _
           (CmdGenFiles.extract_games Archive.stray "games" Archive.disk).2).
  vm_compute. reflexivity.
Defined.



(** ** The game files of [main] *)

Lemma append_inj_l p s t : p +:+ s = p +:+ t → s = t.
Proof. induction p as [|a p IH]; [done|]. rewrite !append_cons. intros [=]. auto. Qed.

(** X14. When [games_dir] exists, the game files of [main] are the listed
    names that end with [.z8], each appended to [games_dir] as it is
    given.  The base name of a game file is so the base name of
    [games_dir] followed by the listed name: the game files are the files
    of [games_dir] when [games_dir] is empty or ends with a slash, and
    otherwise none of them is the path of a listed name in [games_dir]. *)
Theorem listed_gamefiles_names games_dir listing :
  Forall (λ f, no_slash f = true) listing →
  basename <$> CmdGenFiles.listed_gamefiles games_dir listing
    = (λ f, basename games_dir +:+ f) <$> filter (λ f, endswith f ".z8") listing
  ∧ (games_dir = EmptyString ∨ endswith games_dir "/" = true →
     CmdGenFiles.listed_gamefiles games_dir listing
       = pjoin games_dir <$> filter (λ f, endswith f ".z8") listing)
  ∧ (games_dir ≠ EmptyString → endswith games_dir "/" = false →
     Forall (λ gamefile, gamefile ∉ pjoin games_dir <$> listing)
       (CmdGenFiles.listed_gamefiles games_dir listing)).
Proof.
  intros Hl. unfold CmdGenFiles.listed_gamefiles.
  assert (Forall (λ f, no_slash f = true) (filter (λ f, endswith f ".z8") listing)) as Hl'.
  { apply Forall_forall. intros f [_ Hf]%list_elem_of_filter.
    by apply (proj1 (Forall_forall _ _) Hl). }
  split; [|split].
  - rewrite <-list_fmap_compose. apply Forall_fmap_ext_1.
    eapply Forall_impl; [exact Hl'|]. intros f Hf. simpl. by apply basename_append.
  - intros Hd. apply Forall_fmap_ext_1. eapply Forall_impl; [exact Hl'|].
    intros f Hf. unfold pjoin. case_bool_decide as Hs.
    { apply strip_prefix_slash in Hs. congruence. }
    replace (bool_decide (games_dir = EmptyString) || endswith games_dir "/") with true; [done|].
    symmetry. apply orb_true_iff. destruct Hd as [->|?]; [by left|by right].
  - intros Hne Hd. apply Forall_fmap, Forall_forall. intros f Hf. simpl.
    intros (f' & E & Hf')%list_elem_of_fmap.
    apply (proj1 (Forall_forall _ _) Hl) in Hf'. apply (proj1 (Forall_forall _ _) Hl') in Hf.
    unfold pjoin in E. case_bool_decide as Hs.
    { apply strip_prefix_slash in Hs. congruence. }
    rewrite bool_decide_false, Hd in E by done. simpl in E.
    apply append_inj_l in E. by rewrite E in Hf.
Qed.

Lemma listed_gamefiles_names_witness :
  basename <$> CmdGenFiles.listed_gamefiles "games" ["a.z8"; "a.json"; "b.z8"]
    = ["gamesa.z8"; "gamesb.z8"]
  ∧ CmdGenFiles.listed_gamefiles "./games/" ["a.z8"; "a.json"; "b.z8"]
    = ["./games/a.z8"; "./games/b.z8"].
Proof.
  split.
  - apply (listed_gamefiles_names "games" ["a.z8"; "a.json"; "b.z8"]).
    apply (bool_decide_unpack _). vm_compute. reflexivity.
  - apply (listed_gamefiles_names "./games/" ["a.z8"; "a.json"; "b.z8"]).
    + apply (bool_decide_unpack _). vm_compute. reflexivity.
    + right. vm_compute. reflexivity.
Defined.

(** X15. The game files of the playthrough collector all end with
    [.json].  They are the arguments that are no directory and end with
    [.json], taken as they are, and the files whose name ends with [.json]
    in the arguments that are directories; an argument that is a directory
    is listed whatever its name. *)
Theorem playthrough_gamefiles is_dir listdir games :
  Forall (λ gamefile, endswith gamefile ".json" = true)
    (PlaythroughsFiles.main_gamefiles is_dir listdir games)
  ∧ ∀ gamefile,
      gamefile ∈ PlaythroughsFiles.main_gamefiles is_dir listdir games ↔
      ∃ e, e ∈ games
        ∧ ((is_dir e = true
            ∧ ∃ f, f ∈ listdir e ∧ endswith f ".json" = true ∧ gamefile = pjoin e f)
           ∨ (is_dir e = false ∧ endswith e ".json" = true ∧ gamefile = e)).
Proof.
  assert (∀ gamefile,
      gamefile ∈ PlaythroughsFiles.main_gamefiles is_dir listdir games ↔
      ∃ e, e ∈ games
        ∧ ((is_dir e = true
            ∧ ∃ f, f ∈ listdir e ∧ endswith f ".json" = true ∧ gamefile = pjoin e f)
           ∨ (is_dir e = false ∧ endswith e ".json" = true ∧ gamefile = e))) as H.
  { intros g. induction games as [|e games IH]; simpl.
    - rewrite elem_of_nil. split; [done|]. by intros (e & ?%elem_of_nil & _).
    - rewrite elem_of_app, IH. clear IH. split.
      + intros [Hg|(e' & He' & H)].
        * exists e. split; [apply list_elem_of_here|]. destruct (is_dir e).
          -- left. split; [done|]. apply list_elem_of_fmap in Hg as (f & -> & Hf).
             apply list_elem_of_filter in Hf as [Hj Hf]. exists f. by apply Is_true_true in Hj.
          -- right. destruct (endswith e ".json"); [|by apply elem_of_nil in Hg].
             by apply list_elem_of_singleton in Hg.
        * exists e'. split; [by apply list_elem_of_further|done].
      + intros (e' & [->|He']%elem_of_cons & H); [left|right; eauto].
        destruct H as [(-> & f & Hf & Hj & ->)|(-> & -> & ->)].
        * apply list_elem_of_fmap. exists f. split; [done|]. apply list_elem_of_filter.
          by rewrite Hj.
        * apply list_elem_of_here. }
  split; [|done]. apply Forall_forall. intros g Hg.
  apply H in Hg as (e & _ & [(_ & f & _ & Hj & ->)|(_ & Hj & ->)]); [|done].
  by apply endswith_pjoin.
Qed.

(** ** The two collectors on one game *)

Section agreement.
Context `{TextWorld, !Generic, !ProcessFacts, Numpy}.

Lemma playthrough_walkthrough_entries_app ds1 ds2 :
  playthrough_walkthrough_entries (ds1 ++ ds2)
  = playthrough_walkthrough_entries ds1 ++ playthrough_walkthrough_entries ds2.
Proof. apply filter_app. Qed.

Lemma playthrough_walkthrough_entries_branch gf i entries :
  Forall (playthrough_branch_entry gf i) entries →
  playthrough_walkthrough_entries entries = [].
Proof.
  unfold playthrough_walkthrough_entries.
  induction 1 as [|r entries (j & cmd & last & l & Hj & ->) _ IH]; [done|].
  rewrite filter_cons_False; [done|]. simpl. lia.
Qed.

Lemma advance_agree i cmd l p l1 p1 :
  CmdGen.env l = Playthroughs.env p →
  (i = 0 → CmdGen.infos l = Playthroughs.infos p ∧ CmdGen.done l = Playthroughs.done p) →
  CmdGen.advance i cmd l = Ok l1 →
  Playthroughs.advance i cmd p = Ok p1 →
  CmdGen.env l1 = Playthroughs.env p1
  ∧ CmdGen.infos l1 = Playthroughs.infos p1
  ∧ CmdGen.done l1 = Playthroughs.done p1.
Proof.
  unfold CmdGen.advance, Playthroughs.advance. intros Henv Hstart E E'.
  case_decide as Hi.
  - rewrite <-Henv in E'. destruct (env_step _ _) as [[env' o]|]; by simplify_eq/=.
  - simplify_eq. split; [done|]. apply Hstart. lia.
Qed.

(** One iteration of the walkthrough loop of each collector, from the
    same point of the walkthrough. *)
Lemma walk_body_agree gf w d i cmd l p l' p' fl fl' :
  agree l p →
  (i = 0 → CmdGen.infos l = Playthroughs.infos p ∧ CmdGen.done l = Playthroughs.done p) →
  CmdGen.walk_body gf w d (i, cmd) l = Ok (l', fl) →
  Playthroughs.walk_body gf w (i, cmd) p = Ok (p', fl') →
  fl = fl' ∧ agree l' p'.
Proof.
  intros (Henv & Hseen & Hds) Hstart (l1 & E1 & E)%walk_body_Ok
    (p1 & E1' & E')%playthrough_walk_body_Ok. simpl in E, E'.
  destruct (advance_agree _ _ _ _ _ _ Henv Hstart E1 E1') as (Henv1 & Hinfos1 & Hdone1).
  pose proof (advance_dataset _ _ _ _ E1) as [Hd1 Hs1].
  pose proof (playthrough_advance_dataset _ _ _ _ E1') as [Hd1' Hs1'].
  assert (agree (CmdGen.record_step gf i cmd (CmdGen.facts_seen l) l1)
            (Playthroughs.record_step gf i cmd (Playthroughs.facts_seen p) p1)) as Hstep.
  { split_and!; simpl.
    - done.
    - by rewrite Hseen, Hinfos1.
    - rewrite Hd1, Hd1', walkthrough_entries_app, playthrough_walkthrough_entries_app,
        !fmap_app, Hds, Hseen, Hinfos1. done. }
  rewrite <-Hdone1 in E'. destruct (CmdGen.done l1).
  - destruct E as [-> ->], E' as [-> ->]. done.
  - destruct E as [-> [f' E]], E' as [-> (commands & _ & E')]. split; [done|].
    destruct (explore_frame _ _ _ _ _ _ _ _ E) as [Henv' Hseen'].
    apply explore_appends in E as (entries & Hd' & Hentries).
    destruct (branches_Ok _ _ _ _ _ E') as (Henv'' & Hseen'' & _).
    apply branches_appends in E' as (entries' & Hd'' & Hentries').
    destruct Hstep as (Henv2 & Hseen2 & Hds2). split_and!.
    + by rewrite Henv', Henv''.
    + by rewrite Hseen', Hseen''.
    + rewrite Hd', Hd'', walkthrough_entries_app, playthrough_walkthrough_entries_app,
        (walkthrough_entries_explore gf i entries),
        (playthrough_walkthrough_entries_branch gf i entries'), !app_nil_r by done. done.
Qed.

Lemma walk_agree gf w d steps l p l' p' :
  Forall (λ ic : nat * string, 0 < ic.1) steps →
  agree l p →
  for_each (CmdGen.walk_body gf w d) steps l = Ok l' →
  for_each (Playthroughs.walk_body gf w) steps p = Ok p' →
  agree l' p'.
Proof.
  intros Hsteps. revert l p.
  induction Hsteps as [|[i cmd] steps Hi _ IH]; intros l p Hagree E E'.
  - simpl in *. by simplify_eq.
  - apply for_each_cons_Ok in E as (l1 & fl & E1 & E).
    apply for_each_cons_Ok in E' as (p1 & fl' & E1' & E').
    assert (i = 0 → CmdGen.infos l = Playthroughs.infos p
                    ∧ CmdGen.done l = Playthroughs.done p) as Hstart
      by (simpl in Hi; lia).
    destruct (walk_body_agree _ _ _ _ _ _ _ _ _ _ _ Hagree Hstart E1 E1') as [<- Hagree1].
    destruct fl; [by eapply IH|by subst].
Qed.

(** X16. On one game the two collectors record the same walkthrough: the
    entries at the steps [(i, 0)] of the command generation dataset,
    whatever the seed and the depth of its exploration, and those of the
    playthrough dataset are as many, in the same order, with the same game,
    step, command and graph of the seen facts. *)
Theorem collectors_agree gamefile seed branching_depth gf ds gf' ps :
  CmdGen.collect_data_from_game gamefile seed branching_depth = Ok (gf, ds) →
  Playthroughs.collect_data_from_game gamefile = Ok (gf', ps) →
  walked <$> walkthrough_entries ds
  = playthrough_walked <$> playthrough_walkthrough_entries ps.
Proof.
  intros (-> & r & e0 & e & o & infos & w & l & _ & E0 & Ee & Ew & El & ->)%
    collect_data_from_game_Ok
    (-> & e0' & e' & o' & infos' & w' & p & E0' & Ee' & Ew' & Ep & ->)%playthrough_collect_Ok.
  rewrite E0 in E0'. injection E0' as <-.
  rewrite Ee in Ee'. injection Ee' as <- <- <-.
  rewrite Ew in Ew'. injection Ew' as <-.
  assert (agree (CmdGen.initially e o infos r) (Playthroughs.initially e infos)) as Hagree
    by done.
  enough (agree l p) as (_ & _ & Hds) by done.
  destruct w as [|cmd rest]; [simpl in El, Ep; by simplify_eq|].
  rewrite enumerate_cons in El, Ep.
  apply for_each_cons_Ok in El as (l1 & fl & E1 & El).
  apply for_each_cons_Ok in Ep as (p1 & fl' & E1' & Ep).
  assert (0 = 0 → CmdGen.infos (CmdGen.initially e o infos r)
                    = Playthroughs.infos (Playthroughs.initially e infos)
                  ∧ CmdGen.done (CmdGen.initially e o infos r)
                    = Playthroughs.done (Playthroughs.initially e infos)) as Hstart by done.
  destruct (walk_body_agree _ _ _ _ _ _ _ _ _ _ _ Hagree Hstart E1 E1') as [<- Hagree1].
  destruct fl; [|by subst].
  eapply walk_agree; [|done..].
  apply Forall_forall. intros [i c] [Hi _]%elem_of_enumerate. simpl. lia.
Qed.

End agreement.

Lemma collectors_agree_witness :
  ∃ ds ps,
    @CmdGen.collect_data_from_game Example.world Example.generic Example.remembering
      Example.counter "games/tw.z8" 1 2 = Ok ("games/tw.z8", ds)
    ∧ @Playthroughs.collect_data_from_game Example.world Example.generic Example.remembering
        "games/tw.z8" = Ok ("games/tw.z8", ps)
    ∧ walked <$> walkthrough_entries ds
      = playthrough_walked <$> playthrough_walkthrough_entries ps.
Proof.
  eexists _, _. split; [vm_compute; reflexivity|]. split; [vm_compute; reflexivity|].
  apply (@collectors_agree Example.world Example.generic Example.remembering Example.counter
           "games/tw.z8" 1%Z 2%Z "games/tw.z8" _ "games/tw.z8").
  - vm_compute. reflexivity.
  - vm_compute. reflexivity.
Defined.

(** ** The numbering of the steps *)

Lemma numbered_snoc counts n :
  numbered (counts ++ [n]) = numbered counts ++ ((λ j, (length counts, j)) <$> seq 0 (S n)).
Proof.
  unfold numbered. rewrite imap_app, concat_app. f_equal.
  cbn [imap concat]. by rewrite app_nil_r, Nat.add_0_r.
Qed.

Lemma ordered_below_seq i j n steps :
  ordered_below (i, j) steps →
  ordered_below (i, j + n) (steps ++ ((λ j', (i, j')) <$> seq j n)).
Proof.
  revert j steps. induction n as [|n IH]; intros j steps Hs.
  - simpl. by rewrite app_nil_r, Nat.add_0_r.
  - rewrite <-cons_seq, fmap_cons, cons_middle, app_assoc.
    replace (j + S n) with (S j + n) by lia. apply IH.
    eapply ordered_below_snoc; [by left| |done]. right. simpl. lia.
Qed.

Lemma numbered_ordered counts : ordered_below (length counts, 0) (numbered counts).
Proof.
  induction counts as [|n counts IH] using rev_ind; [apply ordered_below_nil|].
  rewrite numbered_snoc, length_app. simpl.
  eapply ordered_below_weaken; [|by apply (ordered_below_seq _ 0 (S n))].
  right. left. simpl. lia.
Qed.

Section numbering.
Context `{TextWorld, !Generic, !ProcessFacts, Numpy}.

Lemma explore_steps gf w i n j l f l' f' :
  for_each (CmdGen.explore_body gf w i) (seq j n) (l, f) = Ok (l', f') →
  ∃ m, m ≤ n
    ∧ CmdGen.step <$> CmdGen.dataset l'
      = (CmdGen.step <$> CmdGen.dataset l) ++ ((λ j', (i, j')) <$> seq j m).
Proof.
  revert j l f. induction n as [|n IH]; intros j l f E.
  - simpl in E. simplify_eq. exists 0. by rewrite app_nil_r.
  - rewrite <-cons_seq in E.
    apply for_each_cons_Ok in E as ([l1 f1] & fl & E1 & E).
    apply explore_body_dataset in E1 as [(-> & Hd & _)|(-> & o & c & infos & _ & Hd)].
    + simplify_eq. exists 0. rewrite Hd, app_nil_r. split; [lia|done].
    + apply IH in E as (m & Hm & ->). exists (S m). split; [lia|].
      by rewrite Hd, fmap_app, <-cons_seq, fmap_cons, <-app_assoc.
Qed.

Lemma walk_steps gf w d cmds counts l l' :
  CmdGen.step <$> CmdGen.dataset l = numbered counts →
  Forall (λ n, n ≤ Z.to_nat d) counts →
  for_each (CmdGen.walk_body gf w d) (enumerate (length counts) cmds) l = Ok l' →
  ∃ counts', CmdGen.step <$> CmdGen.dataset l' = numbered counts'
    ∧ Forall (λ n, n ≤ Z.to_nat d) counts'.
Proof.
  revert counts l. induction cmds as [|cmd cmds IH]; intros counts l Hl Hc E.
  - simpl in E. simplify_eq. eauto.
  - rewrite enumerate_cons in E.
    apply for_each_cons_Ok in E as (l1 & fl & E1 & E).
    apply walk_body_Ok in E1 as (l0 & E0 & E1). simpl in E1.
    apply advance_dataset in E0 as [Hd0 _].
    assert (∃ m, m ≤ Z.to_nat d
              ∧ CmdGen.step <$> CmdGen.dataset l1 = numbered (counts ++ [m])) as (m & Hm & Hl1).
    { destruct (CmdGen.done l0).
      - destruct E1 as [-> _]. exists 0. split; [lia|]. simpl.
        by rewrite Hd0, fmap_app, Hl, numbered_snoc.
      - destruct E1 as [_ [f' (m & Hm & ->)%explore_steps]]. exists m. split; [done|]. simpl.
        by rewrite Hd0, fmap_app, Hl, numbered_snoc, <-cons_seq, fmap_cons, <-app_assoc. }
    assert (Forall (λ n, n ≤ Z.to_nat d) (counts ++ [m])) as Hc1.
    { apply Forall_app. split; [done|by apply Forall_singleton]. }
    destruct fl; [|subst; eauto].
    apply (IH (counts ++ [m]) l1); [done..|].
    rewrite length_app. simpl. by rewrite Nat.add_1_r.
Qed.

Lemma branches_steps gf i l jcs entries :
  Forall2 (branch_entry_from gf i l) jcs entries →
  Playthroughs.step <$> entries = (λ jc : nat * string, (i, jc.1)) <$> jcs.
Proof.
  induction 1 as [|jc r jcs entries (env_ & o & _ & ->) _ IH]; [done|].
  rewrite !fmap_cons. by rewrite IH.
Qed.

Lemma playthrough_walk_body_steps gf w i cmd l l' fl :
  Playthroughs.walk_body gf w (i, cmd) l = Ok (l', fl) →
  ∃ n, Playthroughs.step <$> Playthroughs.dataset l'
       = (Playthroughs.step <$> Playthroughs.dataset l) ++ ((λ j, (i, j)) <$> seq 0 (S n)).
Proof.
  intros (l1 & E1 & E)%playthrough_walk_body_Ok. simpl in E.
  pose proof (playthrough_advance_dataset _ _ _ _ E1) as [Hd _].
  destruct (Playthroughs.done l1).
  - destruct E as [-> _]. exists 0. simpl. by rewrite Hd, fmap_app.
  - destruct E as [_ (commands & _ & (_ & _ & entries & -> & Hentries)%branches_Ok)].
    exists (length commands). simpl.
    rewrite Hd, !fmap_app, (branches_steps _ _ _ _ _ Hentries), <-app_assoc. simpl.
    do 3 f_equal. unfold enumerate.
    rewrite <-(fst_zip (seq 1 (length commands)) commands) at 2 by (by rewrite length_seq).
    by rewrite <-list_fmap_compose.
Qed.

Lemma playthrough_walk_steps gf w cmds counts l l' :
  Playthroughs.step <$> Playthroughs.dataset l = numbered counts →
  for_each (Playthroughs.walk_body gf w) (enumerate (length counts) cmds) l = Ok l' →
  ∃ counts', Playthroughs.step <$> Playthroughs.dataset l' = numbered counts'.
Proof.
  revert counts l. induction cmds as [|cmd cmds IH]; intros counts l Hl E.
  - simpl in E. simplify_eq. eauto.
  - rewrite enumerate_cons in E.
    apply for_each_cons_Ok in E as (l1 & fl & (n & Hl1)%playthrough_walk_body_steps & E).
    rewrite Hl, <-numbered_snoc in Hl1.
    destruct fl; [|subst; eauto].
    apply (IH (counts ++ [n]) l1); [done|].
    rewrite length_app. simpl. by rewrite Nat.add_1_r.
Qed.

(** X17. In a dataset of the playthrough collector the steps are numbered
    without a gap: for each walkthrough position [i] in turn, the step
    [(i, 0)] of the walkthrough and then the steps [(i, 1)], [(i, 2)], ...
    of the commands tried there.  So the steps increase strictly from
    entry to entry and no two entries have the same step. *)
Theorem playthrough_steps_numbered gamefile gf ps :
  Playthroughs.collect_data_from_game gamefile = Ok (gf, ps) →
  (∃ counts, Playthroughs.step <$> ps = numbered counts)
  ∧ StronglySorted step_lt (Playthroughs.step <$> ps)
  ∧ NoDup (Playthroughs.step <$> ps).
Proof.
  intros (-> & e0 & e & o & infos & w & p & _ & _ & _ & Ep & ->)%playthrough_collect_Ok.
  apply (playthrough_walk_steps _ _ _ []) in Ep as [counts Hp]; [|done].
  split; [eauto|]. rewrite Hp. destruct (numbered_ordered counts) as [Hs _].
  split; [done|by apply StronglySorted_step_lt_NoDup].
Qed.

(** X1. In a dataset of the command-generation collector the steps are
    numbered without a gap: for each walkthrough position [i] in turn, the
    step [(i, 0)] and then the steps [(i, 1)], ..., [(i, n)] of the
    exploration, with [n] at most the branching depth.  So the steps
    increase strictly from entry to entry, by walkthrough position and then
    by depth in the exploration, no two entries have the same step, and the
    depth of an entry is at most the branching depth. *)
Theorem steps_increase gamefile seed branching_depth gf ds :
  CmdGen.collect_data_from_game gamefile seed branching_depth = Ok (gf, ds) →
  (∃ counts,
     CmdGen.step <$> ds = numbered counts
     ∧ Forall (λ n, n ≤ Z.to_nat branching_depth) counts)
  ∧ StronglySorted step_lt (CmdGen.step <$> ds)
  ∧ NoDup (CmdGen.step <$> ds)
  ∧ Forall (λ r, (CmdGen.step r).2 ≤ Z.to_nat branching_depth) ds.
Proof.
  intros (-> & r & e0 & e & o & infos & w & l & _ & _ & _ & _ & El & ->)%
    collect_data_from_game_Ok.
  pose proof El as [Hsorted _]%walk_ordered; [|apply ordered_below_nil].
  split_and!; [|done|by apply StronglySorted_step_lt_NoDup|].
  - by apply (walk_steps _ _ _ _ []) in El.
  - by apply walk_depth in El as (entries & -> & Hentries).
Qed.

End numbering.

Lemma playthrough_steps_numbered_witness :
  ∃ ps,
    @Playthroughs.collect_data_from_game Example.world Example.generic Example.remembering
      "games/tw.z8" = Ok ("games/tw.z8", ps)
    ∧ (∃ counts, Playthroughs.step <$> ps = numbered counts)
    ∧ StronglySorted step_lt (Playthroughs.step <$> ps)
    ∧ NoDup (Playthroughs.step <$> ps).
Proof.
  eexists. split; [vm_compute; reflexivity|].
  apply (@playthrough_steps_numbered Example.world Example.generic Example.remembering
           "games/tw.z8" "games/tw.z8").
  vm_compute. reflexivity.
Defined.

Lemma steps_increase_witness :
  ∃ ds,
    @CmdGen.collect_data_from_game Example.world Example.generic Example.remembering
      Example.counter "games/tw.z8" 0 2 = Ok ("games/tw.z8", ds)
    ∧ (∃ counts,
         CmdGen.step <$> ds = numbered counts ∧ Forall (λ n, n ≤ Z.to_nat 2) counts)
    ∧ StronglySorted step_lt (CmdGen.step <$> ds)
    ∧ NoDup (CmdGen.step <$> ds)
    ∧ Forall (λ r, (CmdGen.step r).2 ≤ Z.to_nat 2) ds.
Proof.
  eexists. split; [vm_compute; reflexivity|].
  apply (@steps_increase Example.world Example.generic Example.remembering
           Example.counter "games/tw.z8" 0%Z 2%Z "games/tw.z8").
  vm_compute. reflexivity.
Defined.
